(** * zcloudpass-app: the credential generator and the vault envelope codec

  A shallow embedding of the password / passphrase generator of the
  [PasswordGenerator] dialog (the component that the vault screen imports
  from components/Passwordgenerator; its text is lines 356-866 of
  src/components/Landing.tsx, and the line numbers below are those of
  that file) and of the vault envelope codec (lib/crypto), followed by
  the properties the specification states about them. *)

From Stdlib Require Import String Ascii List Bool Arith ZArith NArith Lia.
From Stdlib Require Import DecimalString SpecFloat.
From stdpp Require Import base decidable list gmap sets.

Local Open Scope nat_scope.
Set Warnings "-clear-no-such-hyp".

(** ** JavaScript values used by the generator *)

Module JS.

(** [s.split("")] and [a.join("")]: a string as the list of its code
    units.  Every string the generator handles is ASCII. *)
Definition split (s : string) : list ascii := list_ascii_of_string s.
Definition join (l : list ascii) : string := string_of_list_ascii l.

(** [s[i]] used as a string operand: the one-character string at [i], or
    [undefined], which [+] renders as the text "undefined". *)
Definition index_str (s : string) (i : nat) : string :=
  match String.get i s with
  | Some c => String c EmptyString
  | None => "undefined"%string
  end.

(** [set.includes(char)] for a one-character [char]. *)
Definition includes (set : string) (char : ascii) : bool :=
  existsb (Ascii.eqb char) (split set).

(** [s.substring(a, b)]: both ends are clamped to the length and swapped
    when out of order. *)
Definition substring (s : string) (a b : nat) : string :=
  let a' := Nat.min a (String.length s) in
  let b' := Nat.min b (String.length s) in
  String.substring (Nat.min a' b') (Nat.max a' b' - Nat.min a' b') s.

(** [s.substring(a)] *)
Definition substring_from (s : string) (a : nat) : string :=
  substring s a (String.length s).

(** [c.toUpperCase()] on one ASCII code unit. *)
Definition toUpperCase_ascii (c : ascii) : ascii :=
  let n := nat_of_ascii c in
  if (97 <=? n) && (n <=? 122) then ascii_of_nat (n - 32) else c.

(** [word.charAt(0).toUpperCase() + word.slice(1)] *)
Definition capitalizeWord (word : string) : string :=
  match word with
  | EmptyString => EmptyString
  | String c rest => String (toUpperCase_ascii c) rest
  end.

(** A JavaScript Number is an IEEE 754 binary64 value: the Standard
    Library's [spec_float] with a mantissa of 53 bits and [emax = 1024].
    [x * y] is the product rounded to nearest, ties to even. *)
Definition Number_mul (x y : spec_float) : spec_float := SFmul 53 1024 x y.

(** The Number of a length or of an integer literal; it is that integer
    itself below [2 ^ 53]. *)
Definition Number_of_N (n : N) : spec_float :=
  binary_normalize 53 1024 (Z.of_N n) 0 false.

(** [Math.floor(x)] of a finite [x], as an integer.  The products that
    the generator floors are finite (see [floor_mul_finite]). *)
Definition Math_floor (x : spec_float) : Z :=
  match x with
  | S754_finite s m e => Z.shiftl (cond_Zopp s (Zpos m)) e
  | _ => 0%Z
  end.

(** A value of [Math.random()]: a Number of positive sign, zero or
    [m * 2 ^ e] in canonical form, with [0 <= r < 1]. *)
Definition in_unit (x : spec_float) : bool :=
  valid_binary 53 1024 x &&
  match x with
  | S754_zero false => true
  | S754_finite false m e => (e <? 0)%Z && (Zpos m <? 2 ^ (- e))%Z
  | _ => false
  end.

Record sample : Type := mk_sample {
  sample_val : spec_float;
  sample_range : in_unit sample_val = true
}.

(** [Math.floor(r * n)] for a non-negative integer [n]: the product is
    rounded to a Number before the floor is taken. *)
Definition floor_mul (r : sample) (n : N) : N :=
  Z.to_N (Math_floor (Number_mul (sample_val r) (Number_of_N n))).

(** [Math.floor(r * len)] where [len] is the length of a string or of an
    array and the result is used as an index. *)
Definition random_index (r : sample) (len : nat) : nat :=
  N.to_nat (floor_mul r (N.of_nat len)).

(** [r > 0.5]; the Number [0.5] is [2 ^ 52 * 2 ^ -53]. *)
Definition gt_half (r : sample) : bool :=
  SFltb (S754_finite false 4503599627370496 (-53)) (sample_val r).

(** The text of a non-negative integer, as [+] renders a number. *)
Definition number_to_string (n : N) : string :=
  NilEmpty.string_of_uint (N.to_uint n).

(** The two random sources of the page: the values that
    [crypto.getRandomValues] writes, in order, and the successive results
    of [Math.random()]. *)
Record RandomSources : Type := {
  crypto_values : nat -> N;
  Math_random : nat -> sample
}.

(** Exceptions the generator can raise. *)
Inductive exn : Type :=
| QuotaExceededError.

(** [new Uint32Array(length)] filled by [crypto.getRandomValues]: the call
    throws when the array is larger than 65536 bytes; elements are
    unsigned 32-bit. *)
Definition getRandomValues (src : RandomSources) (length : nat)
  : exn + (nat -> N) :=
  if (65536 <? 4 * N.of_nat length)%N then inl QuotaExceededError
  else inr (fun i => (crypto_values src i mod 2 ^ 32)%N).

End JS.

(** ** The generator ([PasswordGenerator], lines 377-610) *)

Module Generator.
Import JS.

Definition WORD_LIST : list string := [
  "correct"; "horse"; "battery"; "staple"; "dragon"; "monkey"; "puzzle";
  "secret"; "castle"; "thunder"; "rainbow"; "galaxy"; "planet"; "ocean";
  "mountain"; "forest"; "river"; "sunset"; "coffee"; "wizard"; "knight";
  "phoenix"; "crystal"; "shadow"; "silver"; "golden"; "diamond"; "emerald";
  "tiger"; "eagle"; "wolf"; "falcon"; "anchor"; "compass"; "voyage";
  "island"; "treasure"; "captain"; "pirate"; "mermaid"; "unicorn";
  "griffin"; "centaur"; "pegasus"; "kraken"; "atlantis"; "olympus";
  "valhalla"; "nebula"; "cosmos"; "meteor"; "comet"; "aurora"; "eclipse";
  "solstice"; "equinox"; "quantum"; "neutron"; "photon"; "electron";
  "proton"; "particle"; "energy"; "velocity"; "harmony"; "melody";
  "rhythm"; "symphony"; "chorus"; "sonata"; "concerto"; "prelude";
  "crimson"; "scarlet"; "azure"; "violet"; "amber"; "jade"; "ivory";
  "ebony"; "thunder"; "lightning"; "blizzard"; "tempest"; "monsoon";
  "typhoon"; "cyclone"; "tornado"; "glacier"; "volcano"; "desert";
  "tundra"; "prairie"; "canyon"; "valley"; "summit"; "orchid"; "lotus";
  "jasmine"; "tulip"; "rose"; "lily"; "daisy"; "violet"; "maple";
  "willow"; "cedar"; "pine"; "birch"; "oak"; "elm"; "ash"
]%string.

Inductive CapitalizeOption : Type :=
| CapNone | CapFirst | CapAll | CapRandom.

(** The password-mode settings of the dialog. *)
Record PasswordSettings : Type := {
  length : nat;
  includeUppercase : bool;
  includeLowercase : bool;
  includeNumbers : bool;
  includeSymbols : bool;
  excludeAmbiguous : bool
}.

(** The passphrase-mode settings of the dialog. *)
Record PassphraseSettings : Type := {
  wordCount : nat;
  separator : string;
  capitalize : CapitalizeOption;
  includeNumber : bool
}.

Definition uppercase : string := "ABCDEFGHIJKLMNOPQRSTUVWXYZ".
Definition lowercase : string := "abcdefghijklmnopqrstuvwxyz".
Definition numbers : string := "0123456789".
Definition symbols : string := "!@#$%^&*()_+-=[]{}|;:,.<>?".
Definition ambiguous : string := "il1Lo0O".

(** Lines 526-541: the character set the draw uses. *)
Definition build_charset (p : PasswordSettings) : string :=
  let charset := EmptyString in
  let charset := if includeUppercase p then (charset ++ uppercase)%string else charset in
  let charset := if includeLowercase p then (charset ++ lowercase)%string else charset in
  let charset := if includeNumbers p then (charset ++ numbers)%string else charset in
  let charset := if includeSymbols p then (charset ++ symbols)%string else charset in
  let charset :=
    if excludeAmbiguous p
    then join (filter (fun char => negb (includes ambiguous char)) (split charset))
    else charset in
  if String.length charset =? 0 then lowercase (* Fallback *) else charset.

(** Lines 547-549: [result += charset[array[i] % charset.length]] for
    [i = 0 .. length-1]. *)
Definition draw (charset : string) (array : nat -> N) (length : nat) : string :=
  fold_left
    (fun result i =>
       (result ++ index_str charset
                    (N.to_nat (array i mod N.of_nat (String.length charset))))%string)
    (seq 0 length) EmptyString.

(** Lines 552-556 *)
Definition ensureChars (p : PasswordSettings) : list string :=
  (if includeUppercase p then [uppercase] else []) ++
  (if includeLowercase p then [lowercase] else []) ++
  (if includeNumbers p then [numbers] else []) ++
  (if includeSymbols p then [symbols] else []).

(** [result.split("").some((char) => set.includes(char))] *)
Definition has_char_of (set result : string) : bool :=
  existsb (fun char => includes set char) (split result).

(** Lines 559-564: one step of the [forEach]; the state is the password
    so far and the number of [Math.random()] calls already made. *)
Definition ensure_step (rnd : nat -> sample) (st : string * nat) (set : string)
  : string * nat :=
  let '(result, k) := st in
  if negb (has_char_of set result) then
    let randomChar := index_str set (random_index (rnd k) (String.length set)) in
    let pos := random_index (rnd (S k)) (String.length result) in
    ((substring result 0 pos ++ randomChar ++ substring_from result (pos + 1))%string,
     S (S k))
  else (result, k).

(** Lines 519-568.  The only exception is the one [crypto.getRandomValues]
    can raise; the function itself has no [throw]. *)
Definition generateRandomPassword (p : PasswordSettings) (src : RandomSources)
  : exn + string :=
  let charset := build_charset p in
  match getRandomValues src (length p) with
  | inl e => inl e
  | inr array =>
      let result := draw charset array (length p) in
      inr (fst (fold_left (ensure_step (Math_random src)) (ensureChars p) (result, 0)))
  end.

(** [WORD_LIST[index]]; [index] is always below [WORD_LIST.length]
    (see [random_index_lt]), so the default is never taken. *)
Definition word_at (index : nat) : string := nth index WORD_LIST EmptyString.

(** Lines 575-581: the selection loop.  Each iteration makes one
    [Math.random()] call, call number [k]; [None] means that the loop is
    still running after [fuel] iterations. *)
Fixpoint select_loop (fuel : nat) (rnd : nat -> sample) (wordCount : nat)
    (selectedWords : list string) (usedIndices : gset nat) (k : nat)
  : option (list string * gset nat * nat) :=
  if List.length selectedWords <? wordCount then
    match fuel with
    | O => None
    | S fuel' =>
        let index := random_index (rnd k) (List.length WORD_LIST) in
        if decide (index ∈ usedIndices)
        then select_loop fuel' rnd wordCount selectedWords usedIndices (S k)
        else select_loop fuel' rnd wordCount
               (selectedWords ++ [word_at index]) ({[index]} ∪ usedIndices) (S k)
    end
  else Some (selectedWords, usedIndices, k).

(** Lines 584-599: [selectedWords.map((word, idx) => ...)]; the callback
    runs in index order, and the [random] mode calls [Math.random()] once
    per word. *)
Fixpoint capitalize_from (mode : CapitalizeOption) (rnd : nat -> sample)
    (idx : nat) (words : list string) (k : nat) : list string * nat :=
  match words with
  | [] => ([], k)
  | word :: rest =>
      let '(word', k') :=
        match mode with
        | CapAll => (capitalizeWord word, k)
        | CapFirst => (if idx =? 0 then capitalizeWord word else word, k)
        | CapRandom => (if gt_half (rnd k) then capitalizeWord word else word, S k)
        | CapNone => (word, k)
        end in
      let '(rest', k'') := capitalize_from mode rnd (S idx) rest k' in
      (word' :: rest', k'')
  end.

(** Lines 583-609: what follows the selection loop. *)
Definition assemble (p : PassphraseSettings) (rnd : nat -> sample)
    (selectedWords : list string) (k : nat) : string :=
  let '(capitalizedWords, k') := capitalize_from (capitalize p) rnd 0 selectedWords k in
  let result := String.concat (separator p) capitalizedWords in
  if includeNumber p then
    let randomNum := floor_mul (rnd k') 9999%N in
    (result ++ separator p ++ number_to_string randomNum)%string
  else result.

(** Lines 570-610.  The function has no [throw]; [None] is the selection
    loop still running after [fuel] iterations. *)
Definition generateRandomPassphrase (fuel : nat) (p : PassphraseSettings)
    (src : RandomSources) : option string :=
  match select_loop fuel (Math_random src) (wordCount p) [] ∅ 0 with
  | Some (selectedWords, _, k) => Some (assemble p (Math_random src) selectedWords k)
  | None => None
  end.

End Generator.

(** ** The vault envelope codec (lib/crypto) *)

Module Codec.

(** Modelled from the spec: the [VaultEntry] type of lib/crypto, whose
    declaration is not part of the sources at hand; the fields are those
    the vault screen reads and writes.  An absent optional field is
    [None]. *)
Record VaultEntry : Type := {
  id : string;
  name : string;
  username : option string;
  password : option string;
  url : option string;
  notes : option string
}.

(** Modelled from the spec: the [Vault] type of lib/crypto, an ordered
    collection of entries. *)
Record Vault : Type := { entries : list VaultEntry }.

(** Modelled from the spec: [createEmptyVault] of lib/crypto. *)
Definition createEmptyVault : Vault := {| entries := [] |}.

(** Modelled from the spec: the failures of [decryptVault] (section 7 and
    step 4 of section 4.2). *)
Inductive CodecError : Type :=
| MalformedEnvelope
| AuthenticationFailed
| CorruptPlaintext.

(** Modelled from the spec: the key-derivation function and the
    authenticated cipher, which the spec leaves open.  [kdf] takes the
    master password, the salt and the cost parameters; the cipher takes
    the key, the nonce and the text. *)
Record Primitives : Type := {
  key : Type;
  kdf : string -> string -> string -> key;
  aead_encrypt : key -> string -> string -> string;
  aead_decrypt : key -> string -> string -> option string
}.

(** Modelled from the spec: decryption under the key and nonce of the
    encryption verifies the tag and returns the plaintext. *)
Definition aead_correct (P : Primitives) : Prop :=
  forall k n m, aead_decrypt P k n (aead_encrypt P k n m) = Some m.

Definition ESC : ascii := "\"%char.
Definition SEP : ascii := ";"%char.

(** Modelled from the spec: the deterministic text encoding of one field;
    the two reserved characters are escaped. *)
Fixpoint escape (s : string) : string :=
  match s with
  | EmptyString => EmptyString
  | String c rest =>
      if Ascii.eqb c ESC || Ascii.eqb c SEP
      then String ESC (String c (escape rest))
      else String c (escape rest)
  end.

(** Modelled from the spec: a sequence of fields as one string, each
    field escaped and closed by the separator. *)
Fixpoint frame (fields : list string) : string :=
  match fields with
  | [] => EmptyString
  | f :: rest => (escape f ++ String SEP (frame rest))%string
  end.

(** Modelled from the spec: the inverse of [frame]; [cur] is the field
    read so far.  An unfinished field or escape is malformed. *)
Fixpoint unframe_from (input : string) (cur : string) : option (list string) :=
  match input with
  | EmptyString =>
      match cur with EmptyString => Some [] | _ => None end
  | String c rest =>
      if Ascii.eqb c SEP then
        match unframe_from rest EmptyString with
        | Some fields => Some (cur :: fields)
        | None => None
        end
      else if Ascii.eqb c ESC then
        match rest with
        | String d rest' => unframe_from rest' (cur ++ String d EmptyString)
        | EmptyString => None
        end
      else unframe_from rest (cur ++ String c EmptyString)
  end.

Definition unframe (input : string) : option (list string) :=
  unframe_from input EmptyString.

(** Modelled from the spec: an optional field; absence and the empty text
    are kept apart. *)
Definition encode_optional (o : option string) : string :=
  match o with
  | None => EmptyString
  | Some s => String "="%char s
  end.

Definition decode_optional (f : string) : option (option string) :=
  match f with
  | EmptyString => Some None
  | String c s => if Ascii.eqb c "="%char then Some (Some s) else None
  end.

Definition entry_fields (e : VaultEntry) : list string :=
  [id e; name e; encode_optional (username e); encode_optional (password e);
   encode_optional (url e); encode_optional (notes e)].

(** Modelled from the spec: step 3 of [encryptVault], the canonical
    plaintext of a vault: the fields of its entries, in order. *)
Definition serialize (v : Vault) : string :=
  frame (concat (map entry_fields (entries v))).

Fixpoint parse_entries (fields : list string) : option (list VaultEntry) :=
  match fields with
  | [] => Some []
  | i :: n :: u :: p :: l :: o :: rest =>
      match decode_optional u, decode_optional p, decode_optional l,
            decode_optional o, parse_entries rest with
      | Some u', Some p', Some l', Some o', Some es =>
          Some ({| id := i; name := n; username := u'; password := p';
                   url := l'; notes := o' |} :: es)
      | _, _, _, _, _ => None
      end
  | _ => None
  end.

(** Modelled from the spec: step 4 of [decryptVault]. *)
Definition deserialize (plaintext : string) : option Vault :=
  match unframe plaintext with
  | Some fields =>
      match parse_entries fields with
      | Some es => Some {| entries := es |}
      | None => None
      end
  | None => None
  end.

Definition FORMAT_VERSION : string := "1".
Definition KDF_ALGORITHM : string := "memory-hard-kdf".
Definition KDF_COST : string := "cost-v1".
Definition SALT_BYTES : nat := 16.
Definition NONCE_BYTES : nat := 12.

(** Modelled from the spec: the envelope of section 3: format version,
    key-derivation parameters, nonce, ciphertext with its tag. *)
Record Envelope : Type := {
  version : string;
  kdf_algorithm : string;
  kdf_cost : string;
  salt : string;
  nonce : string;
  ciphertext : string
}.

(** Modelled from the spec: step 6 of [encryptVault]. *)
Definition encode_envelope (e : Envelope) : string :=
  frame [version e; kdf_algorithm e; kdf_cost e; salt e; nonce e; ciphertext e].

(** Modelled from the spec: step 1 of [decryptVault]; structure, version
    and field widths are checked. *)
Definition parse_envelope (s : string) : option Envelope :=
  match unframe s with
  | Some [v; a; c; sa; n; ct] =>
      if String.eqb v FORMAT_VERSION && String.eqb a KDF_ALGORITHM
         && (String.length sa =? SALT_BYTES) && (String.length n =? NONCE_BYTES)
      then Some {| version := v; kdf_algorithm := a; kdf_cost := c;
                   salt := sa; nonce := n; ciphertext := ct |}
      else None
  | _ => None
  end.

(** Modelled from the spec: the Secure Random Source of section 4.1;
    [fill rs from n] is the [n] bytes the generator [rs] yields from
    position [from] on. *)
Definition fill (rs : nat -> ascii) (from n : nat) : string :=
  string_of_list_ascii (map rs (seq from n)).

(** Modelled from the spec: [encryptVault] of lib/crypto, steps 1 to 6 of
    section 4.2. *)
Definition encryptVault (P : Primitives) (rs : nat -> ascii)
    (vault : Vault) (masterPassword : string) : string :=
  let salt := fill rs 0 SALT_BYTES in
  let k := kdf P masterPassword salt KDF_COST in
  let plaintext := serialize vault in
  let nonce := fill rs SALT_BYTES NONCE_BYTES in
  let ct := aead_encrypt P k nonce plaintext in
  encode_envelope {| version := FORMAT_VERSION; kdf_algorithm := KDF_ALGORITHM;
                     kdf_cost := KDF_COST; salt := salt; nonce := nonce;
                     ciphertext := ct |}.

(** Modelled from the spec: [decryptVault] of lib/crypto, steps 1 to 4 of
    section 4.2. *)
Definition decryptVault (P : Primitives) (envelopeString masterPassword : string)
  : CodecError + Vault :=
  match parse_envelope envelopeString with
  | None => inl MalformedEnvelope
  | Some e =>
      let k := kdf P masterPassword (salt e) (kdf_cost e) in
      match aead_decrypt P k (nonce e) (ciphertext e) with
      | None => inl AuthenticationFailed
      | Some plaintext =>
          match deserialize plaintext with
          | Some v => inr v
          | None => inl CorruptPlaintext
          end
      end
  end.

(** A cipher for examples: the key is the password followed by the salt;
    the ciphertext is the text behind a tag made of the key and the
    nonce, which decryption checks and removes. *)
Fixpoint strip_prefix (pre s : string) : option string :=
  match pre, s with
  | EmptyString, _ => Some s
  | String a pre', String b s' => if Ascii.eqb a b then strip_prefix pre' s' else None
  | String _ _, EmptyString => None
  end.

Definition toy : Primitives := {|
  key := string;
  kdf := fun pw salt _ => (pw ++ salt)%string;
  aead_encrypt := fun k n m => ((k ++ n) ++ m)%string;
  aead_decrypt := fun k n c => strip_prefix (k ++ n) c
|}.

End Codec.

(** ** Concrete settings and random sources used in the examples *)

Module Inputs.
Import JS Generator.

(** The Number [k / 2 ^ b]. *)
Definition dyadic (k : N) (b : N) : spec_float :=
  binary_normalize 53 1024 (Z.of_N k) (- Z.of_N b) false.

Definition r_0 : sample := mk_sample (dyadic 0 0) eq_refl.
Definition r_1_4 : sample := mk_sample (dyadic 1 2) eq_refl.
Definition r_7_16 : sample := mk_sample (dyadic 7 4) eq_refl.
Definition r_1_2 : sample := mk_sample (dyadic 1 1) eq_refl.
Definition r_3_4 : sample := mk_sample (dyadic 3 2) eq_refl.
Definition r_11_128 : sample := mk_sample (dyadic 11 7) eq_refl.
Definition r_23_32 : sample := mk_sample (dyadic 23 5) eq_refl.

Definition r_147_256 : sample := mk_sample (dyadic 147 8) eq_refl.

(** The Number that prints as 0.5714285714285714: its exact product with
    112 lies just below 64 and is rounded to 64. *)
Definition r_4_7 : sample :=
  mk_sample (S754_finite false 5146971002709138 (-53)) eq_refl.

(** [Math.random()] returning the values of [l] in order, then [0]. *)
Definition replay (l : list sample) : nat -> sample := fun i => nth i l r_0.

(** The default settings of the dialog: length 16, every category on. *)
Definition all_categories_16 : PasswordSettings :=
  {| length := 16; includeUppercase := true; includeLowercase := true;
     includeNumbers := true; includeSymbols := true; excludeAmbiguous := false |}.

Definition no_category_16 : PasswordSettings :=
  {| length := 16; includeUppercase := false; includeLowercase := false;
     includeNumbers := false; includeSymbols := false; excludeAmbiguous := false |}.

Definition no_category_unambiguous_8 : PasswordSettings :=
  {| length := 8; includeUppercase := false; includeLowercase := false;
     includeNumbers := false; includeSymbols := false; excludeAmbiguous := true |}.

Definition letters_unambiguous_8 : PasswordSettings :=
  {| length := 8; includeUppercase := true; includeLowercase := true;
     includeNumbers := false; includeSymbols := false; excludeAmbiguous := true |}.


(** Every secure value is [v]. *)
Definition constant_values (v : N) (rnd : nat -> sample) : RandomSources :=
  {| crypto_values := fun _ => v; Math_random := rnd |}.

(** The secure values 0, 11, 22, ... *)
Definition stepping_values (rnd : nat -> sample) : RandomSources :=
  {| crypto_values := fun i => (11 * N.of_nat i)%N; Math_random := rnd |}.

Definition three_words : PassphraseSettings :=
  {| wordCount := 3; separator := "-"; capitalize := CapNone; includeNumber := false |}.

Definition two_words : PassphraseSettings :=
  {| wordCount := 2; separator := "-"; capitalize := CapNone; includeNumber := false |}.

(** The passphrase settings of the spec's example. *)
Definition four_words_first_number : PassphraseSettings :=
  {| wordCount := 4; separator := "-"; capitalize := CapFirst; includeNumber := true |}.

(** A vault with two entries; some optional fields are absent, one is
    present and empty, and two texts hold reserved characters. *)
Definition sample_vault : Codec.Vault :=
  {| Codec.entries :=
       [ {| Codec.id := "1700000000000"; Codec.name := "mail; work";
            Codec.username := Some "ada"%string;
            Codec.password := Some "p\w=1"%string; Codec.url := None; Codec.notes := Some ""%string |};
         {| Codec.id := "1700000000001"; Codec.name := "bank"; Codec.username := None;
            Codec.password := None; Codec.url := Some "bank.example"%string; Codec.notes := None |} ] |}.

End Inputs.

(** ** Notions used to state the properties of the passphrase generator *)

Module Notions.
Import JS Generator.

(** The word index that [Math.random()] call number [k] yields. *)
Definition index_at (rnd : nat -> sample) (k : nat) : nat :=
  random_index (rnd k) (List.length WORD_LIST).

(** The indices yielded by the [n] calls from call [k] on. *)
Definition drawn (rnd : nat -> sample) (k n : nat) : gset nat :=
  list_to_set (map (index_at rnd) (seq k n)).

(** What the loop maintains: the selected words are the words at pairwise
    distinct indices below [WORD_LIST.length], in selection order, and
    [usedIndices] is the set of those indices. *)
Definition selection (idxs : list nat) (selectedWords : list string)
    (usedIndices : gset nat) : Prop :=
  selectedWords = map word_at idxs
  /\ NoDup idxs
  /\ usedIndices = list_to_set idxs
  /\ Forall (fun i => i < List.length WORD_LIST) idxs.

(** The values of [l], each once, in the order of their first
    occurrence. *)
Definition first_occurrences (l : list nat) : list nat :=
  reverse (remove_dups (reverse l)).

(** The specification's selection: the first [wordCount] different
    indices among those that the calls [0 .. calls-1] of [Math.random()]
    yield, in the order in which they appear, and the words at them. *)
Definition selected_indices (rnd : nat -> sample) (calls wordCount : nat) : list nat :=
  take wordCount (first_occurrences (map (index_at rnd) (seq 0 calls))).

Definition selected_words (rnd : nat -> sample) (calls wordCount : nat) : list string :=
  map word_at (selected_indices rnd calls wordCount).

(** The specification's "capitalized", for a word that starts with a
    lowercase ASCII letter: that letter is replaced by its capital, which
    lies 32 code units below; the rest of the word is kept. *)
Definition capital_of (word cap : string) : Prop :=
  exists c rest,
    word = String c rest
    /\ 97 <= nat_of_ascii c <= 122
    /\ cap = String (ascii_of_nat (nat_of_ascii c - 32)) rest.

(** The capitalization the specification describes for each mode. *)
Definition capitalized (mode : CapitalizeOption) (words caps : list string) : Prop :=
  match mode with
  | CapNone => caps = words
  | CapFirst =>
      match words, caps with
      | [], [] => True
      | first :: others, cap :: rest => capital_of first cap /\ rest = others
      | _, _ => False
      end
  | CapAll => Forall2 capital_of words caps
  | CapRandom => Forall2 (fun w c => c = w \/ capital_of w c) words caps
  end.

End Notions.

(** ** A further notion about the word list *)

Module MoreNotions.
Import Generator.

(** The words that [WORD_LIST] holds twice. *)
Definition listed_twice (w : string) : bool :=
  String.eqb w "thunder" || String.eqb w "violet".

End MoreNotions.

(** ** Further JavaScript string operations *)

Module JSText.
Import JS.

(** [c.toLowerCase()] on one code unit below 256: the capital letters of
    ASCII (65-90) and of Latin-1 (192-222, but for the sign at 215) are
    the only ones with another lowercase form, 32 code units above. *)
Definition toLowerCase_unit (c : ascii) : ascii :=
  let n := nat_of_ascii c in
  if ((65 <=? n) && (n <=? 90)) || ((192 <=? n) && (n <=? 214))
     || ((216 <=? n) && (n <=? 222))
  then ascii_of_nat (n + 32) else c.

(** [s.toLowerCase()] on Latin-1 text, which is what a [string] holds
    here (code units below 256).  On such text the mapping is made one
    code unit at a time: the rules of [String.prototype.toLowerCase] that
    depend on the context or change the length (the final sigma, the
    dotted capital I) concern code units from 304 on.  Text with other
    characters is outside this definition, and so outside what is proved
    about the search. *)
Fixpoint toLowerCase (s : string) : string :=
  match s with
  | EmptyString => EmptyString
  | String c rest => String (toLowerCase_unit c) (toLowerCase rest)
  end.

(** [s.includes(sub)] for strings: [sub] occurs in [s] at some position. *)
Fixpoint includes_str (s sub : string) : bool :=
  String.prefix sub s
  || match s with
     | EmptyString => false
     | String _ rest => includes_str rest sub
     end.

(** The character classes of the regular expressions [/[A-Z]/], [/[0-9]/]
    and [/[^A-Za-z0-9]/]. *)
Definition is_upper (c : ascii) : bool :=
  let n := nat_of_ascii c in (65 <=? n) && (n <=? 90).
Definition is_lower (c : ascii) : bool :=
  let n := nat_of_ascii c in (97 <=? n) && (n <=? 122).
Definition is_digit (c : ascii) : bool :=
  let n := nat_of_ascii c in (48 <=? n) && (n <=? 57).
Definition is_not_alnum (c : ascii) : bool :=
  negb (is_upper c || is_lower c || is_digit c).

(** [/[class]/.test(s)]: some code unit of [s] is in the class. *)
Definition test (class : ascii -> bool) (s : string) : bool :=
  existsb class (split s).

(** [!s] for a string: only the empty string is falsy. *)
Definition is_empty (s : string) : bool :=
  match s with EmptyString => true | String _ _ => false end.

End JSText.

(** ** The vault screen (src/components/Settings.tsx, lines 216-1015) *)

Module VaultScreen.
Import JS JSText.

Inductive ViewMode : Type :=
| view | create | edit.

(** The [entryForm] state; the fields are [name], [username], [password],
    [url] and [notes]. *)
Record EntryForm : Type := {
  form_name : string;
  form_username : string;
  form_password : string;
  form_url : string;
  form_notes : string
}.

(** The state of the [Vault] component that its handlers read and write
    ([showPassword] and [faviconErrors], which only the display reads, are
    left out). *)
Record Screen : Type := {
  vault : option Codec.Vault;
  loading : bool;
  saving : bool;
  error : string;
  searchQuery : string;
  masterPassword : string;
  unlocked : bool;
  selectedEntry : option Codec.VaultEntry;
  viewMode : ViewMode;
  generatorOpen : bool;
  entryForm : EntryForm
}.

Definition empty_form : EntryForm :=
  {| form_name := ""; form_username := ""; form_password := "";
     form_url := ""; form_notes := "" |}.

(** Lines 283-305: the state of the first render. *)
Definition initial : Screen :=
  {| vault := None; loading := true; saving := false; error := "";
     searchQuery := ""; masterPassword := ""; unlocked := false;
     selectedEntry := None; viewMode := view; generatorOpen := false;
     entryForm := empty_form |}.

Definition setVault (v : option Codec.Vault) (st : Screen) : Screen :=
  {| vault := v; loading := loading st; saving := saving st; error := error st;
     searchQuery := searchQuery st; masterPassword := masterPassword st;
     unlocked := unlocked st; selectedEntry := selectedEntry st;
     viewMode := viewMode st; generatorOpen := generatorOpen st;
     entryForm := entryForm st |}.

Definition setLoading (b : bool) (st : Screen) : Screen :=
  {| vault := vault st; loading := b; saving := saving st; error := error st;
     searchQuery := searchQuery st; masterPassword := masterPassword st;
     unlocked := unlocked st; selectedEntry := selectedEntry st;
     viewMode := viewMode st; generatorOpen := generatorOpen st;
     entryForm := entryForm st |}.

Definition setSaving (b : bool) (st : Screen) : Screen :=
  {| vault := vault st; loading := loading st; saving := b; error := error st;
     searchQuery := searchQuery st; masterPassword := masterPassword st;
     unlocked := unlocked st; selectedEntry := selectedEntry st;
     viewMode := viewMode st; generatorOpen := generatorOpen st;
     entryForm := entryForm st |}.

Definition setError (e : string) (st : Screen) : Screen :=
  {| vault := vault st; loading := loading st; saving := saving st; error := e;
     searchQuery := searchQuery st; masterPassword := masterPassword st;
     unlocked := unlocked st; selectedEntry := selectedEntry st;
     viewMode := viewMode st; generatorOpen := generatorOpen st;
     entryForm := entryForm st |}.

Definition setSearchQuery (q : string) (st : Screen) : Screen :=
  {| vault := vault st; loading := loading st; saving := saving st; error := error st;
     searchQuery := q; masterPassword := masterPassword st;
     unlocked := unlocked st; selectedEntry := selectedEntry st;
     viewMode := viewMode st; generatorOpen := generatorOpen st;
     entryForm := entryForm st |}.

Definition setMasterPassword (p : string) (st : Screen) : Screen :=
  {| vault := vault st; loading := loading st; saving := saving st; error := error st;
     searchQuery := searchQuery st; masterPassword := p;
     unlocked := unlocked st; selectedEntry := selectedEntry st;
     viewMode := viewMode st; generatorOpen := generatorOpen st;
     entryForm := entryForm st |}.

Definition setUnlocked (b : bool) (st : Screen) : Screen :=
  {| vault := vault st; loading := loading st; saving := saving st; error := error st;
     searchQuery := searchQuery st; masterPassword := masterPassword st;
     unlocked := b; selectedEntry := selectedEntry st;
     viewMode := viewMode st; generatorOpen := generatorOpen st;
     entryForm := entryForm st |}.

Definition setSelectedEntry (e : option Codec.VaultEntry) (st : Screen) : Screen :=
  {| vault := vault st; loading := loading st; saving := saving st; error := error st;
     searchQuery := searchQuery st; masterPassword := masterPassword st;
     unlocked := unlocked st; selectedEntry := e;
     viewMode := viewMode st; generatorOpen := generatorOpen st;
     entryForm := entryForm st |}.

Definition setViewMode (m : ViewMode) (st : Screen) : Screen :=
  {| vault := vault st; loading := loading st; saving := saving st; error := error st;
     searchQuery := searchQuery st; masterPassword := masterPassword st;
     unlocked := unlocked st; selectedEntry := selectedEntry st;
     viewMode := m; generatorOpen := generatorOpen st;
     entryForm := entryForm st |}.

Definition setGeneratorOpen (b : bool) (st : Screen) : Screen :=
  {| vault := vault st; loading := loading st; saving := saving st; error := error st;
     searchQuery := searchQuery st; masterPassword := masterPassword st;
     unlocked := unlocked st; selectedEntry := selectedEntry st;
     viewMode := viewMode st; generatorOpen := b;
     entryForm := entryForm st |}.

Definition setEntryForm (f : EntryForm) (st : Screen) : Screen :=
  {| vault := vault st; loading := loading st; saving := saving st; error := error st;
     searchQuery := searchQuery st; masterPassword := masterPassword st;
     unlocked := unlocked st; selectedEntry := selectedEntry st;
     viewMode := viewMode st; generatorOpen := generatorOpen st;
     entryForm := f |}.

(** The answer of [api.getVault()]: the thrown error's message, or the
    response with its [encrypted_vault], which may be [null]. *)
Definition VaultAnswer : Type := string + option string.

(** [response.encrypted_vault] as a condition: [null] and the empty string
    are falsy. *)
Definition has_vault (encrypted_vault : option string) : bool :=
  match encrypted_vault with
  | Some s => negb (is_empty s)
  | None => false
  end.

(** Lines 307-328.  The second component tells whether [onLogout()] was
    called. *)
Definition loadVault (answer : VaultAnswer) (st : Screen) : Screen * bool :=
  let st := setLoading true st in
  match answer with
  | inr encrypted_vault =>
      let st :=
        if has_vault encrypted_vault
        then setUnlocked false (setVault None st)
        else setUnlocked true (setVault (Some {| Codec.entries := [] |}) st) in
      (setLoading false st, false)
  | inl message =>
      let st := setError message st in
      (setLoading false st, includes_str message "Session expired")
  end.

(** Lines 334-354.  [decryptVault] is the function of lib/crypto; [None]
    stands for any error it throws. *)
Definition handleUnlock (decryptVault : string -> string -> option Codec.Vault)
    (answer : VaultAnswer) (st : Screen) : Screen :=
  let st := setError "" st in
  match answer with
  | inr encrypted_vault =>
      if negb (has_vault encrypted_vault) then setError "No vault found" st
      else
        match encrypted_vault with
        | Some blob =>
            match decryptVault blob (masterPassword st) with
            | Some decrypted => setUnlocked true (setVault (Some decrypted) st)
            | None => setError "Failed to unlock vault. Wrong password?" st
            end
        | None => setError "No vault found" st
        end
  | inl _ => setError "Failed to unlock vault. Wrong password?" st
  end.

(** [updatedVault.entries.find((e) => e.id === selectedEntry.id)] *)
Definition find_by_id (i : string) (entries : list Codec.VaultEntry)
  : option Codec.VaultEntry :=
  List.find (fun e => String.eqb (Codec.id e) i) entries.

(** Lines 356-375.  [outcome] is what encrypting and storing did: [inr tt]
    when both went through, [inl message] with the message of the error
    thrown otherwise. *)
Definition saveVault (outcome : string + unit) (updatedVault : Codec.Vault)
    (st : Screen) : Screen :=
  let st0 := setError "" (setSaving true st) in
  match outcome with
  | inr _ =>
      let st1 := setVault (Some updatedVault) st0 in
      let st2 :=
        match selectedEntry st with
        | Some sel =>
            setSelectedEntry (find_by_id (Codec.id sel) (Codec.entries updatedVault)) st1
        | None => st1
        end in
      setSaving false st2
  | inl message => setSaving false (setError message st0)
  end.

(** Line 377-381 *)
Definition handleAddEntry (st : Screen) : Screen :=
  setViewMode create (setSelectedEntry None (setEntryForm empty_form st)).

(** [value || ""] for an optional field. *)
Definition or_empty (o : option string) : string :=
  match o with Some s => s | None => EmptyString end.

(** [value || undefined] for a form field. *)
Definition or_undefined (s : string) : option string :=
  if is_empty s then None else Some s.

(** Lines 383-393 *)
Definition handleEditEntry (entry : Codec.VaultEntry) (st : Screen) : Screen :=
  setViewMode edit
    (setSelectedEntry (Some entry)
       (setEntryForm
          {| form_name := Codec.name entry;
             form_username := or_empty (Codec.username entry);
             form_password := or_empty (Codec.password entry);
             form_url := or_empty (Codec.url entry);
             form_notes := or_empty (Codec.notes entry) |} st)).

(** Lines 398-405; [now] is [Date.now().toString()]. *)
Definition newEntry (now : string) (st : Screen) : Codec.VaultEntry :=
  {| Codec.id :=
       match selectedEntry st with
       | Some sel => if is_empty (Codec.id sel) then now else Codec.id sel
       | None => now
       end;
     Codec.name := form_name (entryForm st);
     Codec.username := or_undefined (form_username (entryForm st));
     Codec.password := or_undefined (form_password (entryForm st));
     Codec.url := or_undefined (form_url (entryForm st));
     Codec.notes := or_undefined (form_notes (entryForm st)) |}.

(** Lines 407-410 *)
Definition updatedEntries (now : string) (st : Screen)
    (entries : list Codec.VaultEntry) : list Codec.VaultEntry :=
  match viewMode st, selectedEntry st with
  | edit, Some sel =>
      map (fun e => if String.eqb (Codec.id e) (Codec.id sel) then newEntry now st else e)
          entries
  | _, _ => entries ++ [newEntry now st]
  end.

(** Lines 395-415 *)
Definition handleSaveEntry (now : string) (outcome : string + unit) (st : Screen)
  : Screen :=
  match vault st with
  | None => st
  | Some v =>
      if is_empty (masterPassword st) || is_empty (form_name (entryForm st)) then st
      else
        let st' :=
          saveVault outcome {| Codec.entries := updatedEntries now st (Codec.entries v) |} st in
        setViewMode view (setSelectedEntry (Some (newEntry now st)) st')
  end.

(** Lines 417-424 *)
Definition handleCancelEdit (st : Screen) : Screen :=
  match selectedEntry st with
  | Some _ => setViewMode view st
  | None => setSelectedEntry None (setViewMode view st)
  end.

(** Lines 426-432; [confirmed] is the answer to [confirm("Delete this
    entry?")]. *)
Definition handleDeleteEntry (i : string) (confirmed : bool) (outcome : string + unit)
    (st : Screen) : Screen :=
  match vault st with
  | None => st
  | Some v =>
      if is_empty (masterPassword st) || negb confirmed then st
      else
        let updated := filter (fun e => negb (String.eqb (Codec.id e) i)) (Codec.entries v) in
        let st' := saveVault outcome {| Codec.entries := updated |} st in
        setViewMode view (setSelectedEntry None st')
  end.

(** Lines 438-444 *)
Definition handleGeneratePassword (st : Screen) : Screen := setGeneratorOpen true st.

Definition handlePasswordGenerated (password : string) (st : Screen) : Screen :=
  setEntryForm
    {| form_name := form_name (entryForm st);
       form_username := form_username (entryForm st);
       form_password := password;
       form_url := form_url (entryForm st);
       form_notes := form_notes (entryForm st) |} st.

(** Lines 450-453 *)
Definition handleSelectEntry (entry : Codec.VaultEntry) (st : Screen) : Screen :=
  setViewMode view (setSelectedEntry (Some entry) st).

(** [field?.toLowerCase().includes(query)]: an absent field matches
    nothing. *)
Definition optional_matches (field : option string) (query : string) : bool :=
  match field with
  | Some s => includes_str (toLowerCase s) query
  | None => false
  end.

(** Lines 455-461 *)
Definition filteredEntries (st : Screen) : list Codec.VaultEntry :=
  match vault st with
  | Some v =>
      filter
        (fun entry =>
           includes_str (toLowerCase (Codec.name entry)) (toLowerCase (searchQuery st))
           || optional_matches (Codec.username entry) (toLowerCase (searchQuery st))
           || optional_matches (Codec.url entry) (toLowerCase (searchQuery st)))
        (Codec.entries v)
  | None => []
  end.

End VaultScreen.

(** ** The API client (src/lib/api.ts) *)

Module Api.
Import JS JSText.
Local Open Scope string_scope.

Definition API_BASE_URL : string := "http://localhost:3000/api/v1".

(** The value of a field of a parsed JSON body. *)
Inductive jsval : Type :=
| JNull
| JString (s : string).

(** The data handed to [JSON.stringify] for the body of a request. *)
Inductive Body : Type :=
| RegisterRequest (username : option string) (email master_password : string)
    (encrypted_vault : option string)
| LoginRequest (email master_password : string)
| VaultUpdate (encrypted_vault : string)
| ChangePasswordRequest (current_password new_password : string).

(** The arguments of one [fetch] call. *)
Record Request : Type := {
  url : string;
  method : string;
  headers : gmap string string;
  body : option Body
}.

(** What the client reads of a [Response]. *)
Record Response : Type := {
  status : N;
  statusText : string;
  text : string + string;                 (* [await response.text()]: the message
                                             of the rejection, or the text *)
  content_type : option string;           (* [headers.get("content-type")] *)
  json : string + gmap string jsval       (* [response.json()]: the message of
                                             the rejection, or the object *)
}.

(** [response.ok]: the status is in the range 200-299. *)
Definition ok (r : Response) : bool := ((200 <=? status r) && (status r <=? 299))%N.

(** The outcome of [fetch]: the message of the rejection, or the response. *)
Definition FetchResult : Type := string + Response.

(** A method of the client: it reads and writes [localStorage], and
    returns a value or throws an error with a message. *)
Definition M (A : Type) : Type := gmap string string -> (string + A) * gmap string string.

Definition ret {A : Type} (a : A) : M A := fun ls => (inr a, ls).
Definition throw {A : Type} (message : string) : M A := fun ls => (inl message, ls).
Definition bind {A B : Type} (m : M A) (k : A -> M B) : M B :=
  fun ls =>
    match m ls with
    | (inr a, ls') => k a ls'
    | (inl message, ls') => (inl message, ls')
    end.

Notation "'do' x <- m ; k" := (bind m (fun x => k))
  (at level 10, x name, m at level 100, k at level 200).

Definition getItem (k : string) : M (option string) := fun ls => (inr (ls !! k), ls).
Definition setItem (k v : string) : M unit := fun ls => (inr tt, <[k := v]> ls).
Definition removeItem (k : string) : M unit := fun ls => (inr tt, delete k ls).

(** [await fetch(...)] *)
Definition await_fetch (answer : FetchResult) : M Response :=
  match answer with
  | inl message => throw message
  | inr response => ret response
  end.

(** A value with [!value] false: a token that is present and not empty. *)
Definition truthy (o : option string) : bool :=
  match o with
  | Some s => negb (is_empty s)
  | None => false
  end.

(** Lines 47-56 *)
Definition getAuthHeader : M (gmap string string) :=
  do token <- getItem "session_token";
  match token with
  | Some t =>
      if is_empty t then throw "No session token found"
      else ret (<["Authorization" := ("Bearer " ++ t)%string]>
                  (<["Content-Type" := "application/json"%string]> ∅))
  | None => throw "No session token found"
  end.

(** The string of a header that is present. *)
Definition or_default (o : option string) : string :=
  match o with Some s => s | None => EmptyString end.

(** [await response.text()]: reading the body can fail (the connection
    breaks, the body does not decode), and the promise is then rejected. *)
Definition await_text (response : Response) : M string :=
  match text response with
  | inl message => throw message
  | inr body_text => ret body_text
  end.

(** Lines 58-81.  The body of an error response is read before the status
    is looked at.  [{}] is the empty object. *)
Definition handleResponse (response : Response) : M (gmap string jsval) :=
  if negb (ok response) then
    do errorText <- await_text response;
    if (status response =? 401)%N then
      do _ <- removeItem "session_token";
      throw "Session expired. Please login again."
    else
      throw ("API error " ++ number_to_string (status response) ++ ": "
               ++ (if is_empty errorText then statusText response else errorText))%string
  else
    if negb (truthy (content_type response))
       || negb (includes_str (or_default (content_type response)) "application/json")
    then ret ∅
    else
      match json response with
      | inl message => throw message
      | inr object => ret object
      end.

Definition json_headers : gmap string string :=
  <["Content-Type" := "application/json"]> ∅.

(** Lines 83-91 *)
Definition register (fetch : Request -> FetchResult) (username : option string)
    (email master_password : string) (encrypted_vault : option string)
  : M (gmap string jsval) :=
  do response <- await_fetch
       (fetch {| url := API_BASE_URL ++ "/auth/register"; method := "POST";
                 headers := json_headers;
                 body := Some (RegisterRequest username email master_password
                                 encrypted_vault) |});
  handleResponse response.

(** [String(value)] for a field of a parsed body; an absent field is
    [undefined]. *)
Definition to_storage_string (field : option jsval) : string :=
  match field with
  | None => "undefined"
  | Some JNull => "null"
  | Some (JString s) => s
  end.

(** Lines 93-107 *)
Definition login (fetch : Request -> FetchResult) (email master_password : string)
  : M (gmap string jsval) :=
  do response <- await_fetch
       (fetch {| url := API_BASE_URL ++ "/auth/login"; method := "POST";
                 headers := json_headers;
                 body := Some (LoginRequest email master_password) |});
  do result <- handleResponse response;
  do _ <- setItem "session_token" (to_storage_string (result !! "session_token"));
  ret result.

(** Lines 109-116 *)
Definition getVault (fetch : Request -> FetchResult) : M (gmap string jsval) :=
  do auth <- getAuthHeader;
  do response <- await_fetch
       (fetch {| url := API_BASE_URL ++ "/vault"; method := "GET";
                 headers := auth; body := None |});
  handleResponse response.

(** Lines 118-127 *)
Definition updateVault (fetch : Request -> FetchResult) (encrypted_vault : string)
  : M unit :=
  do auth <- getAuthHeader;
  do response <- await_fetch
       (fetch {| url := API_BASE_URL ++ "/vault"; method := "PUT";
                 headers := auth; body := Some (VaultUpdate encrypted_vault) |});
  do _ <- handleResponse response;
  ret tt.

(** Lines 129-138 *)
Definition changePassword (fetch : Request -> FetchResult)
    (current_password new_password : string) : M unit :=
  do auth <- getAuthHeader;
  do response <- await_fetch
       (fetch {| url := API_BASE_URL ++ "/auth/change-password"; method := "POST";
                 headers := auth;
                 body := Some (ChangePasswordRequest current_password new_password) |});
  do _ <- handleResponse response;
  ret tt.

(** Lines 140-143 *)
Definition checkHealth (fetch : Request -> FetchResult) : M string :=
  do response <- await_fetch
       (fetch {| url := API_BASE_URL ++ "/auth/health"; method := "GET";
                 headers := ∅; body := None |});
  await_text response.

(** Lines 145-147 *)
Definition isAuthenticated : M bool :=
  do token <- getItem "session_token";
  ret (truthy token).

(** Lines 149-152 *)
Definition logout : M unit := removeItem "session_token".

(** [response.encrypted_vault] of the object [getVault] returns. *)
Definition encrypted_vault_of (object : gmap string jsval) : option string :=
  match object !! "encrypted_vault" with
  | Some (JString s) => Some s
  | Some JNull | None => None
  end.

(** What [await api.getVault()] gives the vault screen: the message of the
    error thrown, or the [encrypted_vault] of the response. *)
Definition vault_answer (result : string + gmap string jsval) : string + option string :=
  match result with
  | inl message => inl message
  | inr object => inr (encrypted_vault_of object)
  end.

End Api.

(** ** The registration, login and settings forms *)

Module Account.
Import JS JSText Api.
Local Open Scope string_scope.

(** The object [getPasswordStrength] returns. *)
Record Strength : Type := { strength : string; color : string }.

(** src/components/Register.tsx, lines 30-45 *)
Definition getPasswordStrength (pwd : string) : Strength :=
  if (String.length pwd <? 8)%nat
  then {| strength := "Weak"; color := "text-muted-foreground" |}
  else if (String.length pwd <? 12)%nat
  then {| strength := "Medium"; color := "text-foreground" |}
  else if (16 <=? String.length pwd)%nat && test is_upper pwd && test is_digit pwd
          && test is_not_alnum pwd
  then {| strength := "Strong"; color := "text-primary font-bold" |}
  else {| strength := "Medium"; color := "text-foreground" |}.

(** The place of a rating in the order Weak, Medium, Strong. *)
Definition rank (s : Strength) : nat :=
  if String.eqb (strength s) "Strong" then 2
  else if String.eqb (strength s) "Medium" then 1
  else 0.

(** The state of the [Register] component. *)
Record RegisterForm : Type := {
  email : string;
  password : string;
  confirmPassword : string;
  loading : bool;
  error : string
}.

Definition with_error (e : string) (f : RegisterForm) : RegisterForm :=
  {| email := email f; password := password f; confirmPassword := confirmPassword f;
     loading := loading f; error := e |}.

Definition with_loading (b : bool) (f : RegisterForm) : RegisterForm :=
  {| email := email f; password := password f; confirmPassword := confirmPassword f;
     loading := b; error := error f |}.

(** src/components/Register.tsx, lines 47-88.  [encryptVault] is the
    function of lib/crypto, which may throw.  The result is the form, and
    whether [onRegisterSuccess()] was called; the storage is threaded as
    in the client. *)
Definition handleSubmit (encryptVault : Codec.Vault -> string -> string + string)
    (fetch : Request -> FetchResult) (f : RegisterForm)
    (ls : gmap string string) : RegisterForm * bool * gmap string string :=
  let f := with_error "" f in
  if negb (String.eqb (password f) (confirmPassword f))
  then (with_error "Passwords do not match" f, false, ls)
  else if (String.length (password f) <? 8)%nat
  then (with_error "Password must be at least 8 characters long" f, false, ls)
  else
    let f := with_loading true f in
    let emptyVault := Codec.createEmptyVault in
    match encryptVault emptyVault (password f) with
    | inl message => (with_loading false (with_error message f), false, ls)
    | inr encryptedVault =>
        match (do _ <- register fetch None (email f) (password f) (Some encryptedVault);
               login fetch (email f) (password f)) ls with
        | (inr _, ls') => (with_loading false f, true, ls')
        | (inl message, ls') => (with_loading false (with_error message f), false, ls')
        end
    end.

(** The state of the [Settings] component. *)
Record SettingsForm : Type := {
  currentPassword : string;
  newPassword : string;
  confirmNewPassword : string;
  settings_loading : bool;
  settings_error : string;
  success : string
}.

(** src/components/Settings.tsx, lines 32-71.  The result is the form,
    and whether the logout timer was started; the storage is threaded as
    in the client. *)
Definition handleChangePassword (fetch : Request -> FetchResult) (f : SettingsForm)
    (ls : gmap string string) : SettingsForm * bool * gmap string string :=
  let cleared :=
    {| currentPassword := currentPassword f; newPassword := newPassword f;
       confirmNewPassword := confirmNewPassword f;
       settings_loading := settings_loading f; settings_error := ""; success := "" |} in
  if negb (String.eqb (newPassword f) (confirmNewPassword f))
  then ({| currentPassword := currentPassword f; newPassword := newPassword f;
           confirmNewPassword := confirmNewPassword f;
           settings_loading := settings_loading f;
           settings_error := "New passwords do not match"; success := "" |}, false, ls)
  else if (String.length (newPassword f) <? 8)%nat
  then ({| currentPassword := currentPassword f; newPassword := newPassword f;
           confirmNewPassword := confirmNewPassword f;
           settings_loading := settings_loading f;
           settings_error := "New password must be at least 8 characters long";
           success := "" |}, false, ls)
  else
    match changePassword fetch (currentPassword f) (newPassword f) ls with
    | (inr _, ls') =>
        ({| currentPassword := ""; newPassword := ""; confirmNewPassword := "";
            settings_loading := false; settings_error := "";
            success := "Password changed successfully! Please log in again." |},
         true, ls')
    | (inl message, ls') =>
        ({| currentPassword := currentPassword cleared; newPassword := newPassword cleared;
            confirmNewPassword := confirmNewPassword cleared;
            settings_loading := false; settings_error := message; success := "" |},
         false, ls')
    end.

End Account.

Module AccountNotions.
Import Account.

(** The registration form once the request is over, showing [message]. *)
Definition shown (f : RegisterForm) (message : string) : RegisterForm :=
  {| email := email f; password := password f; confirmPassword := confirmPassword f;
     loading := false; error := message |}.

End AccountNotions.

(** ** The routes of the application (App.tsx) *)

Module App.
Import Api.

(** The paths the router knows, and any other one. *)
Inductive Path : Type :=
| path_login | path_register | path_vault | path_settings | path_root | path_other.

Inductive Page : Type :=
| Login | Register | Vault | Settings | Landing.

(** What a location renders: a page, a [Navigate] to another path, or
    nothing when no route matches. *)
Inductive Element : Type :=
| Render (page : Page)
| Navigate (to : Path)
| NoMatch.

(** The [Routes] of [AppContent]. *)
Definition route (isAuthenticated : bool) (path : Path) : Element :=
  match path with
  | path_login => if isAuthenticated then Navigate path_vault else Render Login
  | path_register => if isAuthenticated then Navigate path_vault else Render Register
  | path_vault => if isAuthenticated then Render Vault else Navigate path_login
  | path_settings => if isAuthenticated then Render Settings else Navigate path_login
  | path_root => if isAuthenticated then Navigate path_vault else Render Landing
  | path_other => NoMatch
  end.


(** The state of [AppContent] that the routes read, with the location. *)
Record AppState : Type := {
  isAuthenticated_state : bool;
  location : Path
}.

(** [setIsAuthenticated(api.isAuthenticated())] of the first effect. *)
Definition on_mount (st : AppState) (ls : gmap string string) : AppState :=
  {| isAuthenticated_state :=
       match fst (isAuthenticated ls) with inr b => b | inl _ => isAuthenticated_state st end;
     location := location st |}.

Definition handleLoginSuccess (st : AppState) : AppState :=
  {| isAuthenticated_state := true; location := path_vault |}.

Definition handleLogout (st : AppState) (ls : gmap string string)
  : AppState * gmap string string :=
  ({| isAuthenticated_state := false; location := path_root |}, snd (logout ls)).

(** Rendering while the flag stays as it is, that is between two events
    of a mounted application: each [Navigate] replaces the location, until
    a page is rendered or no route matches.  The result is the location
    reached and what is rendered there; [None] when [fuel] redirections
    did not suffice. *)
Fixpoint settle (fuel : nat) (isAuthenticated : bool) (path : Path)
  : option (Path * Element) :=
  match route isAuthenticated path with
  | Navigate to =>
      match fuel with
      | O => None
      | S fuel' => settle fuel' isAuthenticated to
      end
  | element => Some (path, element)
  end.

(** Loading the application at a location.  The first render is made with
    [useState(false)] (line 17), whatever the storage holds, and its
    redirections are followed; the effect of lines 31-33 then sets the
    flag from the stored token, and the routes are rendered again at the
    location reached.  [fuel] bounds the redirections of each of the two
    phases. *)
Definition load (fuel : nat) (ls : gmap string string) (path : Path)
  : option (AppState * Element) :=
  match settle fuel false path with
  | Some (reached, _) =>
      let st := on_mount {| isAuthenticated_state := false; location := reached |} ls in
      match settle fuel (isAuthenticated_state st) (location st) with
      | Some (final, element) =>
          Some ({| isAuthenticated_state := isAuthenticated_state st; location := final |},
                element)
      | None => None
      end
  | None => None
  end.

End App.

(** ** The generator dialog (lines 495-641) *)

Module GeneratorDialog.
Import JS JSText Generator.

Inductive Mode : Type :=
| mode_password | mode_passphrase.

(** The state of [PasswordGenerator]. *)
Record Dialog : Type := {
  mode : Mode;
  password : string;
  copied : bool;
  passwordSettings : PasswordSettings;
  passphraseSettings : PassphraseSettings
}.

(** Lines 500-517: the state of the first render. *)
Definition initial : Dialog :=
  {| mode := mode_password; password := ""; copied := false;
     passwordSettings :=
       {| length := 16; includeUppercase := true; includeLowercase := true;
          includeNumbers := true; includeSymbols := true; excludeAmbiguous := false |};
     passphraseSettings :=
       {| wordCount := 4; separator := "-"; capitalize := CapFirst;
          includeNumber := true |} |}.

Definition show (newPassword : string) (d : Dialog) : Dialog :=
  {| mode := mode d; password := newPassword; copied := false;
     passwordSettings := passwordSettings d;
     passphraseSettings := passphraseSettings d |}.


(** Lines 627-632: the argument of [onGenerate], when it is called. *)
Definition handleUsePassword (d : Dialog) : option string :=
  if is_empty (password d) then None else Some (password d).














End GeneratorDialog.

(** ** The reveal order of the landing page's text effect
       (DecryptedText.tsx, [getRevealOrder]) *)

Module Reveal.

Inductive Direction : Type :=
| start | end_ | center.

(** [Array.from({ length }, (_, i) => i)] *)
Definition indices (length : nat) : list Z := map Z.of_nat (seq 0 length).

(** The [while] loop of the [center] case; [None] when it is still
    running after [fuel] iterations. *)
Fixpoint center_loop (fuel : nat) (length left right : Z) (result : list Z)
  : option (list Z) :=
  if (0 <=? left)%Z || (right <? length)%Z then
    match fuel with
    | O => None
    | S fuel' =>
        let result1 := if (0 <=? left)%Z then result ++ [left] else result in
        let left1 := if (0 <=? left)%Z then (left - 1)%Z else left in
        let result2 := if (right <? length)%Z then result1 ++ [right] else result1 in
        let right1 := if (right <? length)%Z then (right + 1)%Z else right in
        center_loop fuel' length left1 right1 result2
    end
  else Some result.

Definition getRevealOrder (fuel : nat) (length : nat) (direction : Direction)
  : option (list Z) :=
  match direction with
  | start => Some (indices length)
  | end_ => Some (rev (indices length))
  | center =>
      let center := (Z.of_nat length / 2)%Z in
      center_loop fuel (Z.of_nat length) (center - 1)%Z (center + 1)%Z [center]
  end.

End Reveal.

(** ** Notions used to state the properties of the screens *)

Module ScreenNotions.
Import JS JSText VaultScreen.

(** The entries the screen holds; none while the vault is locked. *)
Definition entries_of (st : Screen) : list Codec.VaultEntry :=
  match vault st with
  | Some v => Codec.entries v
  | None => []
  end.

Definition ids_of (st : Screen) : list string := map Codec.id (entries_of st).

(** An entry as the form writes it: a name, and no optional field that is
    present but empty. *)
Definition well_formed (e : Codec.VaultEntry) : Prop :=
  Codec.name e <> EmptyString
  /\ Codec.username e <> Some EmptyString
  /\ Codec.password e <> Some EmptyString
  /\ Codec.url e <> Some EmptyString
  /\ Codec.notes e <> Some EmptyString.

(** One event of the vault screen: a handler runs, or an input changes.
    A handler is taken as a whole: what it does after an [await] is not
    interleaved with another event. *)
Inductive step : Screen -> Screen -> Prop :=
| step_loadVault answer st : step st (fst (loadVault answer st))
| step_handleUnlock decrypt answer st : step st (handleUnlock decrypt answer st)
| step_setMasterPassword p st : step st (setMasterPassword p st)
| step_setSearchQuery q st : step st (setSearchQuery q st)
| step_setEntryForm f st : step st (setEntryForm f st)
| step_handleAddEntry st : step st (handleAddEntry st)
| step_handleEditEntry e st : step st (handleEditEntry e st)
| step_handleSaveEntry now outcome st : step st (handleSaveEntry now outcome st)
| step_handleCancelEdit st : step st (handleCancelEdit st)
| step_handleDeleteEntry i confirmed outcome st :
    step st (handleDeleteEntry i confirmed outcome st)
| step_handleGeneratePassword st : step st (handleGeneratePassword st)
| step_setGeneratorOpen open st : step st (setGeneratorOpen open st)
| step_handlePasswordGenerated p st : step st (handlePasswordGenerated p st)
| step_handleSelectEntry e st : step st (handleSelectEntry e st).

(** The states the screen can be in. *)
Inductive reachable : Screen -> Prop :=
| reachable_initial : reachable initial
| reachable_step st st' : reachable st -> step st st' -> reachable st'.

(** How the mode and the selection go together. *)
Definition mode_matches_selection (st : Screen) : Prop :=
  match viewMode st with
  | create => selectedEntry st = None
  | edit => selectedEntry st <> None
  | view => True
  end.

(** The test [filteredEntries] applies to an entry. *)
Definition matches (query : string) (entry : Codec.VaultEntry) : bool :=
  includes_str (toLowerCase (Codec.name entry)) (toLowerCase query)
  || optional_matches (Codec.username entry) (toLowerCase query)
  || optional_matches (Codec.url entry) (toLowerCase query).




End ScreenNotions.

(** ** Notions used to state the properties of the client *)

Module ApiNotions.
Import Api.
Local Open Scope string_scope.

(** The request [login] sends. *)
Definition login_request (email pw : string) : Request :=
  {| url := API_BASE_URL ++ "/auth/login"; method := "POST";
     headers := json_headers; body := Some (LoginRequest email pw) |}.

(** What a call answered with status 401 comes to: when the body of the
    answer can be read, the token is removed and the session reported as
    expired; when reading the body fails, that failure is what the call
    throws, and the storage is left as it is. *)
Definition unauthorized_outcome {A : Type} (r : Response) (ls : gmap string string)
  : (string + A) * gmap string string :=
  match text r with
  | inr _ => (inl "Session expired. Please login again.", delete "session_token" ls)
  | inl message => (inl message, ls)
  end.

End ApiNotions.

(** ** Concrete answers of the server used in the examples *)

Module ApiInputs.
Import Api.
Local Open Scope string_scope.

Definition unauthorized : Response :=
  {| status := 401; statusText := "Unauthorized"; text := inr "invalid credentials";
     content_type := Some "text/plain"; json := inl "Unexpected token" |}.

(** A 401 whose body cannot be read. *)
Definition unauthorized_unreadable : Response :=
  {| status := 401; statusText := "Unauthorized"; text := inl "Failed to fetch";
     content_type := Some "text/plain"; json := inl "Failed to fetch" |}.

(** The answer to a successful login. *)
Definition logged_in : Response :=
  {| status := 200; statusText := "OK"; text := inr "";
     content_type := Some "application/json; charset=utf-8";
     json := inr (<["session_token" := JString "tok-1"]>
                    (<["expires_at" := JString "2030-01-01"]> ∅)) |}.

(** A success without a JSON body. *)
Definition created_no_body : Response :=
  {| status := 201; statusText := "Created"; text := inr "";
     content_type := None; json := inl "Unexpected end of JSON input" |}.

Definition server_down : Response :=
  {| status := 500; statusText := "Internal Server Error"; text := inr "";
     content_type := None; json := inl "Unexpected end of JSON input" |}.

(** A server that accepts registrations and logins. *)
Definition friendly (request : Request) : FetchResult :=
  if String.eqb (url request) (API_BASE_URL ++ "/auth/login") then inr logged_in
  else inr created_no_body.

(** A server whose registration is down. *)
Definition no_registration (request : Request) : FetchResult :=
  if String.eqb (url request) (API_BASE_URL ++ "/auth/register") then inr server_down
  else inr logged_in.

End ApiInputs.

(** ** Concrete screens used in the examples *)

Module ScreenInputs.
Import VaultScreen.

Definition mail_entry : Codec.VaultEntry :=
  {| Codec.id := "1700000000000"; Codec.name := "Mail";
     Codec.username := Some "ada"%string; Codec.password := Some "s3cret"%string;
     Codec.url := Some "mail.example"%string; Codec.notes := None |}.

Definition bank_entry : Codec.VaultEntry :=
  {| Codec.id := "1700000000001"; Codec.name := "Bank";
     Codec.username := None; Codec.password := Some "pin"%string;
     Codec.url := None; Codec.notes := Some "card in drawer"%string |}.

(** An unlocked screen with two entries, nothing selected. *)
Definition two_entries : Screen :=
  {| vault := Some {| Codec.entries := [mail_entry; bank_entry] |};
     loading := false; saving := false; error := ""; searchQuery := "";
     masterPassword := "master"; unlocked := true; selectedEntry := None;
     viewMode := view; generatorOpen := false; entryForm := empty_form |}.

Definition shop_form : EntryForm :=
  {| form_name := "Shop"; form_username := "ada"; form_password := "";
     form_url := "shop.example"; form_notes := "" |}.

(** The same screen after "Add entry" and filling the form. *)
Definition adding_shop : Screen := setEntryForm shop_form (handleAddEntry two_entries).

(** The same screen after choosing to edit the bank entry and changing the
    name in the form. *)
Definition editing_bank : Screen :=
  setEntryForm
    {| form_name := "Bank (joint)"; form_username := ""; form_password := "pin";
       form_url := ""; form_notes := "card in drawer" |}
    (handleEditEntry bank_entry two_entries).

(** A registration form ready to be sent, and one with a short password. *)
Definition ada_form : Account.RegisterForm :=
  {| Account.email := "ada@example.org"; Account.password := "correct horse";
     Account.confirmPassword := "correct horse"; Account.loading := false;
     Account.error := "" |}.

Definition short_form : Account.RegisterForm :=
  {| Account.email := "ada@example.org"; Account.password := "horse";
     Account.confirmPassword := "horse"; Account.loading := false;
     Account.error := "" |}.

(** An encryption that always succeeds, for the examples. *)
Definition sealing (v : Codec.Vault) (pw : string) : string + string :=
  inr (Codec.encryptVault Codec.toy (fun _ => "s"%char) v pw).

End ScreenInputs.

(** ** Notions used to reason about the rounding of Numbers *)

Module NumberNotions.
Local Open Scope Z_scope.

(** What [k] right shifts of [m] leave: the quotient, and a round bit that
    is set only when the remainder is at least half of [2 ^ k]. *)
Definition shifted (m k : Z) (mrs : shr_record) : Prop :=
  0 <= shr_m mrs
  /\ exists rem, m = shr_m mrs * 2 ^ k + rem /\ 0 <= rem < 2 ^ k
                 /\ (shr_r mrs = true -> 2 ^ k <= 2 * rem).

(** A product is zero or a positive finite number. *)
Definition nonneg_finite (x : spec_float) : Prop :=
  x = S754_zero false \/ exists m e, x = S754_finite false m e.

(** The lengths that are exact as a Number; every JavaScript string and
    array is shorter than [2 ^ 53]. *)
Definition exact_length (len : nat) : Prop := (N.of_nat len < 2 ^ 53)%N.

End NumberNotions.

(** ** Facts about the multiplication of Numbers *)

Module NumberFacts.
Import JS NumberNotions.
Local Open Scope Z_scope.

Lemma digits2_pos_bounds (p : positive) :
  2 ^ (Zpos (digits2_pos p) - 1) <= Zpos p < 2 ^ Zpos (digits2_pos p).
Proof.
  induction p as [p IH|p IH|]; cbn [digits2_pos].
  - rewrite Pos2Z.inj_succ. change (Zpos p~1) with (2 * Zpos p + 1).
    set (d := Zpos (digits2_pos p)) in *.
    assert (Hd : 0 < d) by (unfold d; lia).
    replace (Z.succ d - 1) with (Z.succ (d - 1)) by lia.
    rewrite (Z.pow_succ_r 2 d), (Z.pow_succ_r 2 (d - 1)) by lia. lia.
  - rewrite Pos2Z.inj_succ. change (Zpos p~0) with (2 * Zpos p).
    set (d := Zpos (digits2_pos p)) in *.
    assert (Hd : 0 < d) by (unfold d; lia).
    replace (Z.succ d - 1) with (Z.succ (d - 1)) by lia.
    rewrite (Z.pow_succ_r 2 d), (Z.pow_succ_r 2 (d - 1)) by lia. lia.
  - simpl. lia.
Qed.

Lemma shifted_shr_1 (m k : Z) (mrs : shr_record) :
  0 <= k -> shifted m k mrs -> shifted m (k + 1) (shr_1 mrs).
Proof.
  intros Hk [Hm (rem & Heq & Hrem & Hr)].
  destruct mrs as [m' r s]. unfold shifted. cbn [shr_m shr_r] in *.
  rewrite Z.pow_add_r, Z.pow_1_r by lia.
  set (X := 2 ^ k) in *.
  destruct m' as [|[p|p|]|p]; cbn [shr_1 shr_m shr_r]; try lia.
  - split; [lia |]. exists rem. repeat split; try lia; try discriminate.
  - change (Zpos p~1) with (2 * Zpos p + 1) in Heq.
    split; [lia |]. exists (X + rem). repeat split; lia.
  - change (Zpos p~0) with (2 * Zpos p) in Heq.
    split; [lia |]. exists rem. repeat split; try lia; try discriminate.
  - split; [lia |]. exists (X + rem). repeat split; lia.
Qed.

Lemma shifted_iter_pos (m : Z) (p : positive) :
  forall k mrs, 0 <= k -> shifted m k mrs ->
    shifted m (k + Zpos p) (SpecFloat.iter_pos shr_1 p mrs).
Proof.
  induction p as [p IH|p IH|]; intros k mrs Hk H; cbn [SpecFloat.iter_pos].
  - replace (k + Zpos p~1) with (k + 1 + Zpos p + Zpos p) by lia.
    apply IH; [lia |]. apply IH; [lia |]. now apply shifted_shr_1.
  - replace (k + Zpos p~0) with (k + Zpos p + Zpos p) by lia.
    apply IH; [lia |]. now apply IH.
  - now apply shifted_shr_1.
Qed.

Lemma shifted_start (m : Z) : 0 <= m -> shifted m 0 (shr_record_of_loc m loc_Exact).
Proof.
  intros Hm. split; [exact Hm |]. exists 0. cbn. repeat split; try lia; try discriminate.
Qed.

(** [shr] from an exact record, by a shift of any sign. *)
Lemma shifted_shr (m e n : Z) :
  0 <= m ->
  let '(mrs, e') := shr (shr_record_of_loc m loc_Exact) e n in
  e' = e + Z.max 0 n /\ shifted m (Z.max 0 n) mrs.
Proof.
  intros Hm. destruct n as [|p|p]; cbn [shr].
  - split; [lia |]. now apply shifted_start.
  - split; [lia |]. rewrite Z.max_r by lia.
    apply (shifted_iter_pos m p 0); [lia |]. now apply shifted_start.
  - split; [lia |]. rewrite Z.max_l by lia. now apply shifted_start.
Qed.

Lemma round_nearest_even_cases (mrs : shr_record) :
  let m' := round_nearest_even (shr_m mrs) (loc_of_shr_record mrs) in
  m' = shr_m mrs \/ (m' = shr_m mrs + 1 /\ shr_r mrs = true).
Proof.
  destruct mrs as [m [] []]; cbn; auto.
  destruct (Z.even m); auto.
Qed.

(** Rounding [p * 2 ^ ep] to nearest even stays below an integer [N]
    that the exact value is far enough below. *)
Lemma round_floor_lt (p : positive) (ep N : Z) :
  ep <= 0 -> 0 < N <= 2 ^ 53 ->
  let s := Z.max 0 (fexp 53 1024 (Zpos (digits2_pos p) + ep) - ep) in
  Zpos p < N * 2 ^ (- ep) ->
  (0 < s -> Zpos p + 2 ^ (s - 1) < N * 2 ^ (- ep)) ->
  let x := binary_round_aux 53 1024 false (Zpos p) ep loc_Exact in
  0 <= Math_floor x < N /\ nonneg_finite x.
Proof.
  intros Hep HN s Hexact Hhalf x. subst x.
  unfold binary_round_aux, shr_fexp. cbn [Zdigits2].
  pose proof (shifted_shr (Zpos p) ep
                (fexp 53 1024 (Zpos (digits2_pos p) + ep) - ep)) as H1.
  destruct (shr (shr_record_of_loc (Zpos p) loc_Exact) ep
              (fexp 53 1024 (Zpos (digits2_pos p) + ep) - ep)) as [mrs' e'].
  destruct H1 as [He' [Hm1 (rem & Heq & Hrem & Hr)]]; [lia |]. fold s in He', Heq, Hrem, Hr.
  set (m2 := round_nearest_even (shr_m mrs') (loc_of_shr_record mrs')).
  assert (Hs : 0 <= s) by (unfold s; lia).
  assert (Hm2 : 0 <= m2 /\ m2 * 2 ^ s < N * 2 ^ (- ep)).
  { pose proof (Z.pow_pos_nonneg 2 s ltac:(lia) Hs) as Hpow.
    destruct (round_nearest_even_cases mrs') as [Hsame|[Hup Hbit]]; fold m2 in Hsame || fold m2 in Hup.
    - rewrite Hsame. split; [exact Hm1 | lia].
    - rewrite Hup. split; [lia |]. specialize (Hr Hbit).
      destruct (Z.eq_dec s 0) as [Hs0|Hs0].
      + rewrite Hs0 in *. change (2 ^ 0) with 1 in *. lia.
      + assert (Hsplit : 2 ^ s = 2 * 2 ^ (s - 1)).
        { rewrite <- Z.pow_succ_r by lia. f_equal. lia. }
        specialize (Hhalf ltac:(lia)). lia. }
  destruct Hm2 as [Hm2 Hbound].
  pose proof (shifted_shr m2 e' (fexp 53 1024 (Zdigits2 m2 + e') - e')) as H2.
  destruct (shr (shr_record_of_loc m2 loc_Exact) e'
              (fexp 53 1024 (Zdigits2 m2 + e') - e')) as [mrs'' e''].
  destruct H2 as [He'' [Hm3 (rem2 & Heq2 & Hrem2 & _)]]; [exact Hm2 |].
  set (s2 := Z.max 0 (fexp 53 1024 (Zdigits2 m2 + e') - e')) in *.
  assert (Hs2 : 0 <= s2) by (unfold s2; lia).
  destruct (shr_m mrs'') as [|m3|m3] eqn:Hm3eq; [| | lia].
  { split; [cbn; lia | now left]. }
  assert (Hall : Zpos m3 * 2 ^ (s + s2) < N * 2 ^ (- ep)).
  { rewrite Z.pow_add_r by lia.
    pose proof (Z.pow_pos_nonneg 2 s ltac:(lia) Hs).
    pose proof (Z.pow_pos_nonneg 2 s2 ltac:(lia) Hs2). nia. }
  assert (He : e'' = ep + (s + s2)) by lia.
  assert (Hfloor : 0 <= Z.shiftl (Zpos m3) e'' < N /\ e'' < 53).
  { assert (Ht : 0 < 2 ^ (s + s2)) by (apply Z.pow_pos_nonneg; lia).
    destruct (Z_lt_le_dec e'' 0) as [Hneg|Hnonneg].
    - split; [| lia]. rewrite Z.shiftl_div_pow2 by lia.
      assert (Hp : 0 < 2 ^ (- e'')) by (apply Z.pow_pos_nonneg; lia).
      split; [apply Z.div_pos; lia |].
      apply Z.div_lt_upper_bound; [exact Hp |].
      assert (Hpow : 2 ^ (- ep) = 2 ^ (- e'') * 2 ^ (s + s2)).
      { rewrite <- Z.pow_add_r by lia. f_equal. lia. }
      rewrite Hpow in Hall.
      apply (Z.mul_lt_mono_pos_r (2 ^ (s + s2))); [exact Ht |]. lia.
    - rewrite Z.shiftl_mul_pow2 by lia.
      assert (Hp : 0 < 2 ^ e'') by (apply Z.pow_pos_nonneg; lia).
      assert (Hq : 0 < 2 ^ (- ep)) by (apply Z.pow_pos_nonneg; lia).
      assert (Hpow : 2 ^ (s + s2) = 2 ^ e'' * 2 ^ (- ep)).
      { rewrite <- Z.pow_add_r by lia. f_equal. lia. }
      rewrite Hpow in Hall.
      assert (Hlt : Zpos m3 * 2 ^ e'' < N).
      { apply (Z.mul_lt_mono_pos_r (2 ^ (- ep))); [exact Hq |]. lia. }
      split; [lia |].
      destruct (Z_lt_le_dec e'' 53) as [|Hbig]; [assumption |].
      pose proof (Z.pow_le_mono_r 2 53 e'' ltac:(lia) Hbig). nia. }
  destruct Hfloor as [Hfloor He53].
  replace (e'' <=? 1024 - 53) with true by (symmetry; apply Z.leb_le; lia).
  split; [exact Hfloor | right; eauto].
Qed.

Lemma iter_xO (p k : positive) : Zpos (Pos.iter xO p k) = Zpos p * 2 ^ Zpos k.
Proof.
  induction k as [|k IH] using Pos.peano_ind.
  - cbn. lia.
  - rewrite Pos.iter_succ, Pos2Z.inj_succ, Z.pow_succ_r by lia.
    change (Zpos (Pos.iter xO p k)~0) with (2 * Zpos (Pos.iter xO p k)). lia.
Qed.

Lemma digits2_pos_unique (p : positive) (d : Z) :
  2 ^ (d - 1) <= Zpos p < 2 ^ d -> 0 < d -> Zpos (digits2_pos p) = d.
Proof.
  intros [Hlo Hhi] Hd. destruct (digits2_pos_bounds p) as [Hlo' Hhi'].
  set (d' := Zpos (digits2_pos p)) in *.
  assert (Hd' : 0 < d') by (unfold d'; lia).
  destruct (Z.lt_trichotomy d' d) as [Hlt|[Heq|Hgt]]; [| exact Heq |].
  - pose proof (Z.pow_le_mono_r 2 d' (d - 1) ltac:(lia) ltac:(lia)). lia.
  - pose proof (Z.pow_le_mono_r 2 d (d' - 1) ltac:(lia) ltac:(lia)). lia.
Qed.

(** A number that is already in canonical form is left as it is. *)
Lemma binary_round_aux_canonical (m : positive) (e : Z) :
  Zpos (digits2_pos m) = 53 -> -1074 <= e <= 971 ->
  binary_round_aux 53 1024 false (Zpos m) e loc_Exact = S754_finite false m e.
Proof.
  intros Hd He. unfold binary_round_aux, shr_fexp. cbn [Zdigits2]. rewrite Hd.
  assert (Hshift : fexp 53 1024 (53 + e) - e = 0).
  { unfold fexp, emin. lia. }
  rewrite Hshift. cbn [shr shr_record_of_loc shr_m loc_of_shr_record round_nearest_even Zdigits2].
  rewrite Hd, Hshift. cbn [shr shr_m].
  replace (e <=? 1024 - 53) with true by (symmetry; apply Z.leb_le; lia).
  reflexivity.
Qed.

(** The Number of a positive integer below [2 ^ 53]: an exact value with
    a mantissa of 53 bits. *)
Lemma Number_of_N_finite (n : N) :
  (0 < n)%N -> Z.of_N n < 2 ^ 53 ->
  exists mn en, Number_of_N n = S754_finite false mn en
    /\ -52 <= en <= 0 /\ Zpos mn = Z.of_N n * 2 ^ (- en) /\ 2 ^ 52 <= Zpos mn.
Proof.
  intros Hpos Hlt. destruct n as [|pn]; [lia |].
  cbn [Z.of_N] in *. unfold Number_of_N. cbn [Z.of_N binary_normalize]. unfold binary_round.
  destruct (digits2_pos_bounds pn) as [Hlo Hhi].
  set (d := Zpos (digits2_pos pn)) in *.
  assert (Hd : 1 <= d <= 53).
  { split; [unfold d; lia |].
    destruct (Z_le_gt_dec d 53) as [|Hbig]; [assumption |].
    pose proof (Z.pow_le_mono_r 2 53 (d - 1) ltac:(lia) ltac:(lia)). lia. }
  assert (Hfexp : fexp 53 1024 (d + 0) = d - 53).
  { unfold fexp, emin. lia. }
  rewrite Hfexp. unfold shl_align.
  destruct (d - 53 - 0) as [|k|k] eqn:Hk; [| lia |].
  - assert (d = 53) by lia.
    rewrite binary_round_aux_canonical by (fold d; lia).
    exists pn, 0. repeat split; try lia.
    replace (53 - 1) with 52 in * by lia. replace d with 53 in Hlo by lia.
    exact Hlo.
  - assert (Hkd : Zpos k = 53 - d) by lia.
    assert (Hval : Zpos (Pos.iter xO pn k) = Zpos pn * 2 ^ (53 - d)).
    { rewrite iter_xO. now rewrite Hkd. }
    assert (Hsplit : 2 ^ 52 = 2 ^ (d - 1) * 2 ^ (53 - d)).
    { rewrite <- Z.pow_add_r by lia. f_equal. lia. }
    assert (Hsplit' : 2 ^ 53 = 2 ^ d * 2 ^ (53 - d)).
    { rewrite <- Z.pow_add_r by lia. f_equal. lia. }
    assert (Hp : 0 < 2 ^ (53 - d)) by (apply Z.pow_pos_nonneg; lia).
    assert (Hrange : 2 ^ 52 <= Zpos (Pos.iter xO pn k) < 2 ^ 53).
    { rewrite Hval, Hsplit, Hsplit'. split.
      - apply Z.mul_le_mono_nonneg_r; lia.
      - apply Z.mul_lt_mono_pos_r; lia. }
    rewrite binary_round_aux_canonical.
    + exists (Pos.iter xO pn k), (d - 53). repeat split; try lia.
      rewrite Hval. f_equal. f_equal. lia.
    + apply digits2_pos_unique; [| lia]. exact Hrange.
    + lia.
Qed.

(** The floor of a sample times a positive integer below [2 ^ 53] is a
    smaller non-negative integer, and the product is finite. *)
Lemma Number_mul_floor_bounds (x : spec_float) (n : N) :
  in_unit x = true -> (0 < n)%N -> Z.of_N n < 2 ^ 53 ->
  0 <= Math_floor (Number_mul x (Number_of_N n)) < Z.of_N n
  /\ nonneg_finite (Number_mul x (Number_of_N n)).
Proof.
  intros Hx Hpos Hlt.
  destruct (Number_of_N_finite n Hpos Hlt) as (mn & en & Hn & Hen & Hmn & Hmn52).
  rewrite Hn. unfold in_unit in Hx. apply andb_prop in Hx as [Hvalid Hunit].
  destruct x as [[]| | |[] m e]; try discriminate Hunit.
  - cbn. split; [lia | now left].
  - apply andb_prop in Hunit as [He Hm]. apply Z.ltb_lt in He, Hm.
    cbn [valid_binary] in Hvalid. unfold bounded, canonical_mantissa in Hvalid.
    apply andb_prop in Hvalid as [Hcanon _]. apply Z.eqb_eq in Hcanon.
    destruct (digits2_pos_bounds m) as [Hmlo _].
    assert (Hdm : Zpos (digits2_pos m) <= 53 /\ -1074 <= e).
    { unfold fexp, emin in Hcanon. lia. }
    destruct Hdm as [Hdm Hemin].
    assert (Hm53 : Zpos m < 2 ^ 53).
    { destruct (digits2_pos_bounds m) as [_ Hhi].
      pose proof (Z.pow_le_mono_r 2 (Zpos (digits2_pos m)) 53 ltac:(lia) Hdm). lia. }
    unfold Number_mul. cbn [SFmul xorb].
    assert (Hpow : 2 ^ (- (e + en)) = 2 ^ (- en) * 2 ^ (- e)).
    { rewrite <- Z.pow_add_r by lia. f_equal. lia. }
    assert (Hrhs : Z.of_N n * 2 ^ (- (e + en)) = Zpos mn * 2 ^ (- e)).
    { rewrite Hpow, Hmn. ring. }
    assert (Hroom : Zpos (m * mn) + Zpos mn <= Zpos mn * 2 ^ (- e)).
    { rewrite Pos2Z.inj_mul. nia. }
    apply round_floor_lt.
    + lia.
    + lia.
    + rewrite Hrhs. lia.
    + intros Hs. rewrite Hrhs.
      enough (2 ^ (Z.max 0 (fexp 53 1024 (Zpos (digits2_pos (m * mn)) + (e + en)) - (e + en)) - 1)
              < Zpos mn) by lia.
      set (d := Zpos (digits2_pos (m * mn))) in *.
      set (s := Z.max 0 (fexp 53 1024 (d + (e + en)) - (e + en))) in *.
      assert (Hcases : s = d - 53 \/ s <= 52).
      { unfold s, fexp, emin. lia. }
      destruct Hcases as [Hnormal|Hsub].
      * destruct (digits2_pos_bounds (m * mn)) as [Hlo _]. fold d in Hlo.
        rewrite Pos2Z.inj_mul in Hlo.
        assert (Hsplit : 2 ^ (d - 1) = 2 ^ 53 * 2 ^ (s - 1)).
        { rewrite <- Z.pow_add_r by lia. f_equal. lia. }
        assert (Hp : 0 < 2 ^ (s - 1)) by (apply Z.pow_pos_nonneg; lia).
        nia.
      * pose proof (Z.pow_le_mono_r 2 (s - 1) 51 ltac:(lia) ltac:(lia)) as Hle.
        assert (2 ^ 51 < 2 ^ 52) by (apply Z.pow_lt_mono_r; lia). lia.
Qed.

End NumberFacts.

(** ** Facts about the JavaScript operations *)

Module JSFacts.
Import JS NumberNotions NumberFacts.

Lemma split_append (a b : string) : split (a ++ b) = split a ++ split b.
Proof. induction a as [|c a IH]; simpl; [reflexivity | now rewrite IH]. Qed.

Lemma length_split (s : string) : List.length (split s) = String.length s.
Proof. induction s as [|c s IH]; simpl; [reflexivity | now rewrite IH]. Qed.

Lemma split_join (l : list ascii) : split (join l) = l.
Proof. apply list_ascii_of_string_of_list_ascii. Qed.

Lemma length_append (a b : string) :
  String.length (a ++ b) = String.length a + String.length b.
Proof. rewrite <- !length_split, split_append. apply length_app. Qed.

Lemma split_String_substring (n m : nat) (s : string) :
  split (String.substring n m s) = take m (drop n (split s)).
Proof.
  revert n m. induction s as [|c s IH]; intros [|n] [|m]; simpl; try reflexivity.
  - now rewrite (IH 0 m).
  - now rewrite (IH n 0).
  - now rewrite (IH n (S m)).
Qed.

Lemma split_substring (s : string) (a b : nat) :
  a <= b -> split (substring s a b) = take (b - a) (drop a (split s)).
Proof.
  intros Hab. unfold substring. rewrite split_String_substring.
  rewrite <- (length_split s).
  set (n := List.length (split s)).
  destruct (Nat.le_gt_cases a n) as [Han|Han].
  - rewrite (Nat.min_l a n) by lia.
    destruct (Nat.le_gt_cases b n) as [Hbn|Hbn].
    + rewrite (Nat.min_l b n) by lia. now rewrite Nat.min_l, Nat.max_r by lia.
    + rewrite (Nat.min_r b n) by lia. rewrite Nat.min_l, Nat.max_r by lia.
      rewrite !take_ge; [reflexivity | |]; rewrite length_drop; fold n; lia.
  - rewrite (Nat.min_r a n), (Nat.min_r b n) by lia.
    rewrite Nat.min_id, Nat.max_id, Nat.sub_diag.
    rewrite (drop_ge (split s) a) by (fold n; lia).
    now rewrite take_nil.
Qed.

Lemma split_substring_from (s : string) (a : nat) :
  split (substring_from s a) = drop a (split s).
Proof.
  unfold substring_from.
  destruct (Nat.le_gt_cases a (String.length s)) as [Ha|Ha].
  - rewrite split_substring by exact Ha.
    apply take_ge. rewrite length_drop, length_split. lia.
  - unfold substring. rewrite split_String_substring.
    rewrite (Nat.min_r a) by lia. rewrite !Nat.min_id, Nat.max_id, Nat.sub_diag.
    rewrite !drop_ge by (rewrite length_split; lia).
    reflexivity.
Qed.

Lemma get_split (s : string) (i : nat) : String.get i s = split s !! i.
Proof.
  revert i. induction s as [|c s IH]; intros [|i]; simpl; try reflexivity.
  apply IH.
Qed.

(** In range, [s[i]] is the one character at [i]. *)
Lemma index_str_in_range (s : string) (i : nat) :
  i < String.length s ->
  exists c, index_str s i = String c EmptyString /\ split s !! i = Some c.
Proof.
  intros Hi. unfold index_str. rewrite get_split.
  destruct (lookup_lt_is_Some_2 (split s) i) as [c Hc].
  { now rewrite length_split. }
  rewrite Hc. eauto.
Qed.

Lemma small_exact (len : nat) : (N.of_nat len <= 16384)%N -> exact_length len.
Proof. unfold exact_length. change (2 ^ 53)%N with 9007199254740992%N. lia. Qed.

(** [Math.floor(Math.random() * n)] is one of [0 .. n-1]. *)
Lemma floor_mul_lt (r : sample) (n : N) :
  (0 < n)%N -> (n < 2 ^ 53)%N -> (floor_mul r n < n)%N.
Proof.
  intros Hn Hexact. unfold floor_mul.
  destruct (Number_mul_floor_bounds (sample_val r) n (sample_range r) Hn) as [Hlt _].
  { change (2 ^ 53)%Z with (Z.of_N (2 ^ 53)). lia. }
  lia.
Qed.

(** The product that is floored is a finite Number. *)
Lemma floor_mul_finite (r : sample) (n : N) :
  (0 < n)%N -> (n < 2 ^ 53)%N ->
  nonneg_finite (Number_mul (sample_val r) (Number_of_N n)).
Proof.
  intros Hn Hexact.
  destruct (Number_mul_floor_bounds (sample_val r) n (sample_range r) Hn) as [_ Hfin].
  { change (2 ^ 53)%Z with (Z.of_N (2 ^ 53)). lia. }
  exact Hfin.
Qed.

Lemma random_index_lt (r : sample) (len : nat) :
  0 < len -> exact_length len -> random_index r len < len.
Proof.
  intros Hlen Hexact. unfold random_index.
  pose proof (floor_mul_lt r (N.of_nat len) ltac:(lia) Hexact). lia.
Qed.

(** The product is rounded before the floor is taken: the exact product
    of this sample and 112 is below 64, the index is 64. *)
Lemma random_index_rounds_product :
  random_index Inputs.r_4_7 112 = 64
  /\ (5146971002709138 * 112 < 64 * 2 ^ 53)%Z.
Proof. split; [vm_compute; reflexivity | lia]. Qed.

End JSFacts.

(** ** Facts about the password generator *)

Module PasswordFacts.
Import JS NumberNotions JSFacts Generator.

Lemma build_charset_nonempty (p : PasswordSettings) :
  0 < String.length (build_charset p).
Proof. destruct p as [n [] [] [] [] []]; vm_compute; lia. Qed.

Lemma ensureChars_nonempty (p : PasswordSettings) :
  Forall (fun set => 0 < String.length set) (ensureChars p).
Proof.
  destruct p as [n [] [] [] [] e]; unfold ensureChars; simpl;
    repeat constructor; vm_compute; lia.
Qed.

Lemma ensureChars_exact (p : PasswordSettings) :
  Forall (fun set => exact_length (String.length set)) (ensureChars p).
Proof.
  destruct p as [n [] [] [] [] e]; unfold ensureChars; simpl;
    repeat constructor; apply small_exact; vm_compute; discriminate.
Qed.

(** The characters of the draw: one per requested position, each taken
    from the character set. *)
Lemma draw_from (charset : string) (array : nat -> N) (l : list nat) (acc : string) :
  0 < String.length charset ->
  exists cs,
    split (fold_left
             (fun result i =>
                (result ++ index_str charset
                   (N.to_nat (array i mod N.of_nat (String.length charset))))%string)
             l acc) = split acc ++ cs
    /\ List.length cs = List.length l
    /\ Forall (fun c => c ∈ split charset) cs.
Proof.
  intros Hne. revert acc. induction l as [|i l IH]; intros acc; simpl.
  - exists []. rewrite app_nil_r. repeat split; constructor.
  - destruct (index_str_in_range charset
               (N.to_nat (array i mod N.of_nat (String.length charset))))
      as (c & Hc & Hlook).
    { pose proof (N.mod_lt (array i) (N.of_nat (String.length charset))). lia. }
    rewrite Hc.
    destruct (IH (acc ++ String c EmptyString)%string) as (cs & Hcs & Hlen & Hall).
    exists (c :: cs). rewrite Hcs, split_append. simpl.
    rewrite <- app_assoc. simpl. repeat split.
    + now rewrite Hlen.
    + constructor; [| exact Hall]. eapply list_elem_of_lookup_2. exact Hlook.
Qed.

Lemma draw_length (charset : string) (array : nat -> N) (n : nat) :
  0 < String.length charset -> String.length (draw charset array n) = n.
Proof.
  intros Hne. unfold draw.
  destruct (draw_from charset array (seq 0 n) EmptyString Hne) as (cs & Hcs & Hlen & _).
  rewrite <- length_split, Hcs. simpl. now rewrite Hlen, length_seq.
Qed.

Lemma draw_chars (charset : string) (array : nat -> N) (n : nat) :
  0 < String.length charset ->
  Forall (fun c => c ∈ split charset) (split (draw charset array n)).
Proof.
  intros Hne. unfold draw.
  destruct (draw_from charset array (seq 0 n) EmptyString Hne) as (cs & Hcs & _ & Hall).
  now rewrite Hcs.
Qed.

(** The injection step replaces one character in place. *)
Lemma ensure_step_length (rnd : nat -> sample) (result set : string) (k : nat) :
  0 < String.length result -> exact_length (String.length result) ->
  0 < String.length set -> exact_length (String.length set) ->
  String.length (fst (ensure_step rnd (result, k) set)) = String.length result.
Proof.
  intros Hres Hres' Hset Hset'. unfold ensure_step.
  destruct (negb (has_char_of set result)); [| reflexivity]. simpl.
  destruct (index_str_in_range set (random_index (rnd k) (String.length set)))
    as (c & Hc & _).
  { now apply random_index_lt. }
  rewrite Hc.
  pose proof (random_index_lt (rnd (S k)) (String.length result) Hres Hres') as Hpos.
  set (pos := random_index (rnd (S k)) (String.length result)) in *.
  rewrite <- !length_split, !split_append, split_substring, split_substring_from by lia.
  simpl. rewrite !length_app. simpl.
  rewrite length_take, !length_drop, length_split. lia.
Qed.

Lemma ensure_fold_length (rnd : nat -> sample) (sets : list string) (st : string * nat) :
  0 < String.length (fst st) -> exact_length (String.length (fst st)) ->
  Forall (fun set => 0 < String.length set) sets ->
  Forall (fun set => exact_length (String.length set)) sets ->
  String.length (fst (fold_left (ensure_step rnd) sets st)) = String.length (fst st).
Proof.
  revert st. induction sets as [|set sets IH]; intros [result k] Hres Hres' Hsets Hsets';
    cbn [fold_left].
  - reflexivity.
  - inversion Hsets as [|? ? Hset Hrest]; subst.
    inversion Hsets' as [|? ? Hset' Hrest']; subst. cbn [fst] in Hres, Hres'.
    pose proof (ensure_step_length rnd result set k Hres Hres' Hset Hset') as Hstep.
    rewrite IH; [exact Hstep | rewrite Hstep; exact Hres | rewrite Hstep; exact Hres'
                | exact Hrest | exact Hrest'].
Qed.

(** When every enabled category is already present, the [forEach] leaves
    the password as drawn and makes no [Math.random()] call. *)
Lemma ensure_fold_covered (rnd : nat -> sample) (sets : list string) (result : string) (k : nat) :
  Forall (fun set => has_char_of set result = true) sets ->
  fold_left (ensure_step rnd) sets (result, k) = (result, k).
Proof.
  induction sets as [|set sets IH]; intros Hcov; simpl; [reflexivity |].
  inversion Hcov as [|? ? Hset Hrest]; subst.
  rewrite Hset. simpl. now apply IH.
Qed.

Lemma getRandomValues_ok (src : RandomSources) (n : nat) :
  (N.of_nat n <= 16384)%N ->
  getRandomValues src n = inr (fun i => (crypto_values src i mod 2 ^ 32)%N).
Proof.
  intros Hn. unfold getRandomValues.
  destruct (N.ltb_spec 65536 (4 * N.of_nat n)); [lia | reflexivity].
Qed.

End PasswordFacts.


(** ** Facts about the passphrase generator *)

Module PassphraseFacts.
Import JS NumberNotions JSFacts Generator Notions.

Lemma index_at_lt (rnd : nat -> sample) (k : nat) :
  index_at rnd k < List.length WORD_LIST.
Proof.
  apply random_index_lt; [vm_compute; lia |].
  apply small_exact. vm_compute. discriminate.
Qed.

Lemma selection_nil : selection [] [] ∅.
Proof. repeat split; constructor. Qed.

Lemma selection_push (idxs : list nat) (sel : list string) (used : gset nat) (i : nat) :
  selection idxs sel used -> i ∉ used -> i < List.length WORD_LIST ->
  selection (idxs ++ [i]) (sel ++ [word_at i]) ({[i]} ∪ used).
Proof.
  intros (Hsel & Hnd & Hused & Hlt) Hi Hilt. subst sel used. repeat split.
  - now rewrite map_app.
  - apply NoDup_app. split; [exact Hnd |]. split.
    + intros x Hx Hx'. apply list_elem_of_singleton in Hx'. subst x.
      apply Hi. now apply elem_of_list_to_set.
    + apply NoDup_singleton.
  - rewrite list_to_set_app_L. cbn [list_to_set foldr].
    rewrite (right_id_L ∅ (∪)). apply (comm_L (∪)).
  - apply Forall_app. split; [exact Hlt |]. now constructor.
Qed.

(** At most [WORD_LIST.length] words can ever be selected. *)
Lemma selection_bounded (idxs : list nat) (sel : list string) (used : gset nat) :
  selection idxs sel used -> List.length sel <= List.length WORD_LIST.
Proof.
  intros (Hsel & Hnd & _ & Hlt). subst sel. rewrite length_map.
  rewrite <- (length_seq (List.length WORD_LIST) 0).
  apply submseteq_length, NoDup_submseteq; [exact Hnd |].
  intros i Hi. apply elem_of_seq. rewrite Forall_forall in Hlt.
  specialize (Hlt i Hi). lia.
Qed.

(** When the loop ends, the selection has exactly [wordCount] words. *)
Lemma select_loop_sound (rnd : nat -> sample) (wordCount fuel : nat) :
  forall idxs sel used k sel' used' k',
    selection idxs sel used -> List.length sel <= wordCount ->
    select_loop fuel rnd wordCount sel used k = Some (sel', used', k') ->
    (exists idxs', selection idxs' sel' used') /\ List.length sel' = wordCount.
Proof.
  induction fuel as [|fuel IH]; intros idxs sel used k sel' used' k' Hinv Hle Hrun;
    cbn [select_loop] in Hrun;
    destruct (Nat.ltb_spec (List.length sel) wordCount) as [Hlt|Hge].
  - discriminate.
  - injection Hrun as <- <- <-. split; [eauto | lia].
  - destruct (decide (random_index (rnd k) (List.length WORD_LIST) ∈ used)) as [Hin|Hout].
    + eapply IH; eauto.
    + eapply IH; [| | exact Hrun].
      * apply selection_push; [exact Hinv | exact Hout | apply index_at_lt].
      * rewrite length_app. simpl. lia.
  - injection Hrun as <- <- <-. split; [eauto | lia].
Qed.

Lemma drawn_step (rnd : nat -> sample) (k n : nat) :
  drawn rnd k (S n) = {[index_at rnd k]} ∪ drawn rnd (S k) n.
Proof. reflexivity. Qed.

(** The loop ends within [fuel] iterations as soon as the calls it makes
    in them yield enough indices that are not used yet. *)
Lemma select_loop_terminates (rnd : nat -> sample) (wordCount fuel : nat) :
  forall sel used k,
    wordCount <= List.length sel + size (drawn rnd k fuel ∖ used) ->
    is_Some (select_loop fuel rnd wordCount sel used k).
Proof.
  induction fuel as [|fuel IH]; intros sel used k Henough; cbn [select_loop];
    destruct (Nat.ltb_spec (List.length sel) wordCount) as [Hlt|Hge]; eauto.
  - exfalso. unfold drawn in Henough. simpl in Henough.
    rewrite difference_disjoint_L, size_empty in Henough by set_solver. lia.
  - rewrite drawn_step in Henough. fold (index_at rnd k).
    set (i := index_at rnd k) in *. set (X := drawn rnd (S k) fuel) in *.
    destruct (decide (i ∈ used)) as [Hin|Hout]; apply IH; fold X.
    + replace (X ∖ used) with (({[i]} ∪ X) ∖ used) by set_solver. exact Henough.
    + rewrite length_app. simpl.
      assert (Hsub : ({[i]} ∪ X) ∖ used ⊆ {[i]} ∪ X ∖ ({[i]} ∪ used)).
      { intros x Hx. destruct (decide (x = i)); set_solver. }
      apply subseteq_size in Hsub.
      assert (Hdisj : ({[i]} : gset nat) ## X ∖ ({[i]} ∪ used)) by set_solver.
      pose proof (size_union _ _ Hdisj) as Hsize.
      rewrite size_singleton in Hsize. lia.
Qed.

Lemma capitalize_from_later (rnd : nat -> sample) (words : list string) :
  forall idx k, fst (capitalize_from CapFirst rnd (S idx) words k) = words.
Proof.
  induction words as [|w ws IH]; intros idx k; cbn [capitalize_from]; [reflexivity |].
  specialize (IH (S idx) k).
  destruct (capitalize_from CapFirst rnd (S (S idx)) ws k) as [rest k'].
  simpl in *. now rewrite IH.
Qed.

(** Every word of the list starts with a lowercase letter. *)
Lemma words_start_lowercase :
  forallb (fun w => match w with
                    | String c _ => (97 <=? nat_of_ascii c) && (nat_of_ascii c <=? 122)
                    | EmptyString => false
                    end) WORD_LIST = true.
Proof. vm_compute. reflexivity. Qed.

Lemma capitalizeWord_capital (w : string) :
  w ∈ WORD_LIST -> capital_of w (capitalizeWord w).
Proof.
  intros Hw. pose proof words_start_lowercase as Hall.
  rewrite forallb_forall in Hall. apply list_elem_of_In in Hw.
  specialize (Hall w Hw). destruct w as [|c rest]; [discriminate |].
  exists c, rest. apply andb_prop in Hall as [Hlo Hhi].
  apply Nat.leb_le in Hlo, Hhi. repeat split; try assumption.
  cbn [capitalizeWord]. unfold toUpperCase_ascii.
  apply Nat.leb_le in Hlo, Hhi. now rewrite Hlo, Hhi.
Qed.

Lemma capitalize_from_spec (mode : CapitalizeOption) (rnd : nat -> sample)
    (words : list string) (k : nat) :
  Forall (fun w => w ∈ WORD_LIST) words ->
  capitalized mode words (fst (capitalize_from mode rnd 0 words k)).
Proof.
  intros Hwords. destruct mode; unfold capitalized.
  - generalize 0 as idx. revert k. clear Hwords.
    induction words as [|w ws IH]; intros k idx; cbn [capitalize_from]; [reflexivity |].
    specialize (IH k (S idx)).
    destruct (capitalize_from CapNone rnd (S idx) ws k) as [rest k'].
    simpl in *. now rewrite IH.
  - destruct words as [|w ws]; cbn [capitalize_from]; [exact I |].
    pose proof (capitalize_from_later rnd ws 0 k) as Hrest.
    destruct (capitalize_from CapFirst rnd 1 ws k) as [rest k'].
    simpl in *. inversion Hwords as [|? ? Hw _]; subst.
    split; [now apply capitalizeWord_capital | reflexivity].
  - generalize 0 as idx. revert k.
    induction Hwords as [|w ws Hw Hws IH]; intros k idx; cbn [capitalize_from];
      [constructor |].
    specialize (IH k (S idx)).
    destruct (capitalize_from CapAll rnd (S idx) ws k) as [rest k'].
    simpl in *. constructor; [now apply capitalizeWord_capital | exact IH].
  - generalize 0 as idx. revert k.
    induction Hwords as [|w ws Hw Hws IH]; intros k idx; cbn [capitalize_from];
      [constructor |].
    specialize (IH (S k) (S idx)).
    destruct (capitalize_from CapRandom rnd (S idx) ws (S k)) as [rest k'].
    simpl in *. constructor; [| exact IH].
    destruct (gt_half (rnd k)); [right; now apply capitalizeWord_capital | now left].
Qed.

(** A new value is appended to the first occurrences, a known one is not. *)
Lemma first_occurrences_snoc (l : list nat) (x : nat) :
  first_occurrences (l ++ [x])
  = if decide (x ∈ l) then first_occurrences l else first_occurrences l ++ [x].
Proof.
  unfold first_occurrences. rewrite reverse_snoc. cbn [remove_dups].
  destruct (decide_rel elem_of x (reverse l)) as [Hin|Hout];
    destruct (decide (x ∈ l)) as [Hin'|Hout']; try reflexivity.
  - exfalso. apply Hout'. rewrite elem_of_reverse in Hin. exact Hin.
  - exfalso. apply Hout. rewrite elem_of_reverse. exact Hin'.
  - now rewrite reverse_cons.
Qed.

Lemma first_occurrences_prefix (l m : list nat) :
  first_occurrences l `prefix_of` first_occurrences (l ++ m).
Proof.
  induction m as [|x m IH] using rev_ind.
  - now rewrite app_nil_r.
  - rewrite app_assoc, first_occurrences_snoc.
    destruct (decide (x ∈ l ++ m)); [exact IH |].
    now apply prefix_app_r.
Qed.

Lemma elem_of_first_occurrences (l : list nat) (x : nat) :
  x ∈ first_occurrences l <-> x ∈ l.
Proof.
  unfold first_occurrences.
  rewrite elem_of_reverse, elem_of_remove_dups, elem_of_reverse.
  reflexivity.
Qed.

(** The selection loop keeps the first [wordCount] different indices, in
    the order in which the calls yield them. *)
Lemma select_loop_first_occurrences (rnd : nat -> sample) (wordCount fuel : nat) :
  forall k sel used sel' used' k',
    sel = map word_at (first_occurrences (map (index_at rnd) (seq 0 k))) ->
    used = list_to_set (map (index_at rnd) (seq 0 k)) ->
    List.length sel <= wordCount ->
    select_loop fuel rnd wordCount sel used k = Some (sel', used', k') ->
    sel' = selected_words rnd (k + fuel) wordCount.
Proof.
  induction fuel as [|fuel IH]; intros k sel used sel' used' k' Hsel Hused Hle Hrun;
    cbn [select_loop] in Hrun;
    destruct (Nat.ltb_spec (List.length sel) wordCount) as [Hlt|Hge];
    try discriminate.
  - injection Hrun as <- <- <-. rewrite Nat.add_0_r.
    unfold selected_words, selected_indices. rewrite Hsel.
    rewrite Hsel, length_map in Hge, Hle.
    now rewrite take_ge by lia.
  - fold (index_at rnd k) in Hrun.
    assert (Hnext : map (index_at rnd) (seq 0 (S k))
                    = map (index_at rnd) (seq 0 k) ++ [index_at rnd k]).
    { now rewrite seq_S, map_app. }
    replace (k + S fuel) with (S k + fuel) by lia.
    destruct (decide (index_at rnd k ∈ used)) as [Hin|Hout].
    + apply (IH (S k) sel used sel' used' k'); [| | exact Hle | exact Hrun].
      * rewrite Hnext, first_occurrences_snoc, decide_True; [exact Hsel |].
        rewrite Hused in Hin. now apply elem_of_list_to_set in Hin.
      * rewrite Hnext, list_to_set_app_L, <- Hused. set_solver.
    + apply (IH (S k) (sel ++ [word_at (index_at rnd k)]) ({[index_at rnd k]} ∪ used)
               sel' used' k'); [| | | exact Hrun].
      * rewrite Hnext, first_occurrences_snoc, decide_False.
        -- now rewrite map_app, Hsel.
        -- intros Hin. apply Hout. rewrite Hused. now apply elem_of_list_to_set.
      * rewrite Hnext, list_to_set_app_L, <- Hused. set_solver.
      * rewrite length_app. simpl. lia.
  - injection Hrun as <- <- <-.
    unfold selected_words, selected_indices. f_equal.
    rewrite Hsel, length_map in Hge, Hle.
    destruct (first_occurrences_prefix (map (index_at rnd) (seq 0 k))
                (map (index_at rnd) (seq k (S fuel)))) as [rest Hrest].
    rewrite <- map_app, <- seq_app in Hrest. rewrite Hrest.
    rewrite take_app_le by lia. rewrite Hsel. f_equal.
    now rewrite take_ge by lia.
Qed.

Lemma word_at_in_list (i : nat) : i < List.length WORD_LIST -> word_at i ∈ WORD_LIST.
Proof.
  intros Hi. unfold word_at. apply list_elem_of_In. now apply nth_In.
Qed.

End PassphraseFacts.
(** ** The generator against the specification *)

Module GeneratorSpec.
Import JS NumberNotions JSFacts Generator Notions PasswordFacts PassphraseFacts Inputs.

(** The password generator accepts any positive length the secure source
    can serve and returns exactly that many characters. *)
Lemma generateRandomPassword_length (p : PasswordSettings) (src : RandomSources) :
  1 <= length p -> (N.of_nat (length p) <= 16384)%N ->
  exists s, generateRandomPassword p src = inr s /\ String.length s = length p.
Proof.
  intros Hpos Hquota. unfold generateRandomPassword.
  rewrite getRandomValues_ok by exact Hquota.
  eexists. split; [reflexivity |].
  pose proof (draw_length (build_charset p)
                (fun i => (crypto_values src i mod 2 ^ 32)%N) (length p)
                (build_charset_nonempty p)) as Hdraw.
  rewrite ensure_fold_length; cbn [fst].
  - exact Hdraw.
  - rewrite Hdraw. lia.
  - rewrite Hdraw. now apply small_exact.
  - apply ensureChars_nonempty.
  - apply ensureChars_exact.
Qed.

(** C7.  For every password policy whose length is at least 1 (and small
    enough for [crypto.getRandomValues], which covers the documented range
    8-64), the generator returns a password whose length is exactly the
    requested one: the coverage injection replaces a character in place. *)
Theorem password_length_exact (p : PasswordSettings) (src : RandomSources) :
  1 <= length p -> (N.of_nat (length p) <= 16384)%N ->
  exists s, generateRandomPassword p src = inr s /\ String.length s = length p.
Proof. apply generateRandomPassword_length. Qed.

Lemma password_length_exact_witness :
  exists s, generateRandomPassword all_categories_16 (constant_values 26 (replay [])) = inr s
            /\ String.length s = 16.
Proof.
  apply (password_length_exact all_categories_16 (constant_values 26 (replay []))).
  - simpl. lia.
  - simpl. lia.
Defined.

(** C2 (as stated, refuted).  With the four category flags off the
    generator does not fail: it returns a sixteen-letter password. *)
Lemma no_category_returns_password :
  generateRandomPassword no_category_16 (constant_values 0 (replay []))
    = inr "aaaaaaaaaaaaaaaa"%string
  /\ ~ (exists e, generateRandomPassword no_category_16 (constant_values 0 (replay []))
                  = inl e).
Proof.
  assert (H : generateRandomPassword no_category_16 (constant_values 0 (replay []))
              = inr "aaaaaaaaaaaaaaaa"%string) by (vm_compute; reflexivity).
  split; [exact H |]. intros [e He]. rewrite H in He. discriminate.
Qed.

(** C2 (amended).  With the four category flags off the generator falls
    back to the lowercase alphabet: it returns a password of the requested
    length made of lowercase letters only, and raises no error. *)
Theorem no_category_falls_back_to_lowercase (p : PasswordSettings) (src : RandomSources) :
  includeUppercase p = false -> includeLowercase p = false ->
  includeNumbers p = false -> includeSymbols p = false ->
  (N.of_nat (length p) <= 16384)%N ->
  exists s, generateRandomPassword p src = inr s
            /\ String.length s = length p
            /\ Forall (fun c => includes lowercase c = true) (split s).
Proof.
  intros Hu Hl Hn Hs Hquota. unfold generateRandomPassword.
  rewrite getRandomValues_ok by exact Hquota.
  assert (Hcs : build_charset p = lowercase).
  { destruct p as [n u l d y e]; simpl in *; subst. now destruct e. }
  assert (Hens : ensureChars p = []).
  { unfold ensureChars. now rewrite Hu, Hl, Hn, Hs. }
  rewrite Hcs, Hens. cbn [fold_left fst].
  eexists. split; [reflexivity |]. split.
  - apply draw_length. vm_compute. lia.
  - eapply Forall_impl; [apply draw_chars; vm_compute; lia |].
    intros c Hc. unfold includes. apply existsb_exists. exists c. split.
    + now apply list_elem_of_In.
    + apply Ascii.eqb_refl.
Qed.

Lemma no_category_falls_back_to_lowercase_witness :
  exists s, generateRandomPassword no_category_16 (constant_values 0 (replay [])) = inr s
            /\ String.length s = 16
            /\ Forall (fun c => includes lowercase c = true) (split s).
Proof.
  apply (no_category_falls_back_to_lowercase no_category_16
           (constant_values 0 (replay [])));
    try reflexivity.
  simpl. lia.
Defined.

(** Below the range of the slider: for length 0 and a category enabled the
    injection makes a one-character password out of the empty draw. *)
Lemma zero_length_injection :
  generateRandomPassword
    {| length := 0; includeUppercase := true; includeLowercase := false;
       includeNumbers := false; includeSymbols := false; excludeAmbiguous := false |}
    (constant_values 0 (replay [])) = inr "A"%string.
Proof. vm_compute. reflexivity. Qed.

(** C5 (the code departs from the claim).  With [excludeAmbiguous] set,
    upper and lower case enabled and a draw of lowercase letters only, the
    coverage injection takes its character from the unfiltered uppercase
    alphabet: the password contains the blacklisted [L]. *)
Theorem injection_places_ambiguous_character :
  excludeAmbiguous letters_unambiguous_8 = true
  /\ generateRandomPassword letters_unambiguous_8
       (constant_values 24 (replay [r_7_16; r_1_2])) = inr "aaaaLaaa"%string
  /\ includes ambiguous "L"%char = true.
Proof. repeat split; vm_compute; reflexivity. Qed.

(** With [excludeAmbiguous] set and at least one category enabled, the
    character set of the draw holds no blacklisted character. *)
Lemma charset_excludes_ambiguous (p : PasswordSettings) :
  excludeAmbiguous p = true ->
  includeUppercase p || includeLowercase p || includeNumbers p || includeSymbols p = true ->
  forallb (fun char => negb (includes ambiguous char)) (split (build_charset p)) = true.
Proof.
  destruct p as [n [] [] [] [] []]; intros He Hany;
    try discriminate He; try discriminate Hany; vm_compute; reflexivity.
Qed.

(** The fallback alphabet is not filtered either: with no category enabled
    and [excludeAmbiguous] set the draw can yield the blacklisted [i]. *)
Lemma fallback_places_ambiguous_character :
  generateRandomPassword no_category_unambiguous_8 (constant_values 8 (replay []))
    = inr "iiiiiiii"%string
  /\ includes ambiguous "i"%char = true.
Proof. split; vm_compute; reflexivity. Qed.

(** C6 (the code departs from the claim).  For length 16 and the four
    categories enabled, a draw of lowercase letters only makes the three
    injections land on the same position, each overwriting the one before:
    the password returned has sixteen characters but neither an uppercase
    letter nor a digit. *)
Theorem injections_overwrite_each_other :
  generateRandomPassword all_categories_16
    (constant_values 26 (replay [r_3_4; r_1_2; r_1_4; r_1_2; r_7_16; r_1_2]))
    = inr "aaaaaaaa+aaaaaaa"%string
  /\ has_char_of uppercase "aaaaaaaa+aaaaaaa" = false
  /\ has_char_of numbers "aaaaaaaa+aaaaaaa" = false.
Proof. repeat split; vm_compute; reflexivity. Qed.

(** Each single injection does put a character of its category in place. *)
Lemma ensure_step_covers (rnd : nat -> sample) (result set : string) (k : nat) :
  0 < String.length result -> 0 < String.length set -> exact_length (String.length set) ->
  has_char_of set (fst (ensure_step rnd (result, k) set)) = true.
Proof.
  intros Hres Hset Hset'. unfold ensure_step.
  destruct (has_char_of set result) eqn:Hhas; [exact Hhas |]. cbn [negb fst].
  destruct (index_str_in_range set (random_index (rnd k) (String.length set)))
    as (c & Hc & Hlook).
  { now apply random_index_lt. }
  rewrite Hc. unfold has_char_of. rewrite !split_append. simpl.
  rewrite existsb_app. apply orb_true_iff. right. simpl.
  apply orb_true_iff. left. unfold includes. apply existsb_exists.
  exists c. split; [| apply Ascii.eqb_refl].
  apply list_elem_of_In. eapply list_elem_of_lookup_2. exact Hlook.
Qed.

(** The selection loop, started as the generator starts it: when the first
    [fuel] calls of [Math.random()] yield at least [wordCount] different
    indices, the loop ends with exactly [wordCount] words of the list, the
    words at pairwise distinct indices. *)
Lemma select_loop_result (rnd : nat -> sample) (wordCount fuel : nat) :
  wordCount <= size (drawn rnd 0 fuel) ->
  exists idxs words used k,
    select_loop fuel rnd wordCount [] ∅ 0 = Some (words, used, k)
    /\ selection idxs words used
    /\ List.length words = wordCount.
Proof.
  intros Henough.
  destruct (select_loop_terminates rnd wordCount fuel [] ∅ 0) as [[[words used] k] Hrun].
  { rewrite difference_empty_L. simpl. exact Henough. }
  destruct (select_loop_sound rnd wordCount fuel [] [] ∅ 0 words used k
              selection_nil (Nat.le_0_l _) Hrun) as [[idxs Hsel] Hlen].
  exists idxs, words, used, k. auto.
Qed.

(** C4 (the code departs from the claim).  [WORD_LIST] holds "thunder" at
    indices 9 and 80 (and "violet" at 75 and 103); the loop keeps the
    indices distinct, not the words.  For a word count of 3 and calls of
    [Math.random()] yielding the indices 9, 80 and 56 the passphrase
    repeats a word. *)
Theorem distinct_indices_repeat_a_word :
  word_at 9 = "thunder"%string /\ word_at 80 = "thunder"%string
  /\ map (index_at (replay [r_11_128; r_23_32; r_1_2])) [0; 1; 2] = [9; 80; 56]
  /\ generateRandomPassphrase 8 three_words
       (constant_values 0 (replay [r_11_128; r_23_32; r_1_2]))
     = Some "thunder-thunder-quantum"%string.
Proof. repeat split; vm_compute; reflexivity. Qed.

(** C8.  Whenever the selection loop ends (here: the first [fuel] calls of
    [Math.random()] yield at least [wordCount] different indices), the
    passphrase is made of the selected words, the words of the list at
    the first [wordCount] different indices drawn: each capitalized as
    the mode says (none: unchanged; first: the first word only; all:
    every word; random: each word either way), joined by the separator;
    with [includeNumber] it ends with the separator and the decimal text
    of an integer between 0 and 9998, the floor of 9999 times a result
    of [Math.random()]. *)
Theorem passphrase_shape (fuel : nat) (p : PassphraseSettings) (src : RandomSources) :
  wordCount p <= size (drawn (Math_random src) 0 fuel) ->
  exists caps n call,
    generateRandomPassphrase fuel p src
      = Some (if includeNumber p
              then (String.concat (separator p) caps
                      ++ separator p ++ NilEmpty.string_of_uint (N.to_uint n))%string
              else String.concat (separator p) caps)
    /\ List.length (selected_words (Math_random src) fuel (wordCount p)) = wordCount p
    /\ NoDup (selected_indices (Math_random src) fuel (wordCount p))
    /\ Forall (fun w => w ∈ WORD_LIST) (selected_words (Math_random src) fuel (wordCount p))
    /\ capitalized (capitalize p)
         (selected_words (Math_random src) fuel (wordCount p)) caps
    /\ n = floor_mul (Math_random src call) 9999
    /\ (n <= 9998)%N.
Proof.
  intros Henough.
  destruct (select_loop_result (Math_random src) (wordCount p) fuel Henough)
    as (idxs & words & used & k & Hrun & (Hwords & _ & _ & Hlt) & Hlen).
  assert (Hsel : words = selected_words (Math_random src) fuel (wordCount p)).
  { apply (select_loop_first_occurrences (Math_random src) (wordCount p) fuel
             0 [] ∅ words used k); [reflexivity | reflexivity | simpl; lia | exact Hrun]. }
  assert (Hin : Forall (fun w => w ∈ WORD_LIST) words).
  { rewrite Hwords. apply Forall_map. eapply Forall_impl; [exact Hlt |].
    intros i Hi. now apply word_at_in_list. }
  unfold generateRandomPassphrase. rewrite Hrun. unfold assemble.
  pose proof (capitalize_from_spec (capitalize p) (Math_random src) words k Hin) as Hcap.
  destruct (capitalize_from (capitalize p) (Math_random src) 0 words k) as [caps k'].
  cbn [fst] in Hcap. rewrite <- Hsel.
  exists caps, (floor_mul (Math_random src k') 9999), k'. repeat split.
  - exact Hlen.
  - unfold selected_indices. eapply sublist_NoDup; [| apply sublist_take].
    unfold first_occurrences. rewrite reverse_Permutation. apply NoDup_remove_dups.
  - exact Hin.
  - exact Hcap.
  - pose proof (floor_mul_lt (Math_random src k') 9999 ltac:(lia) ltac:(reflexivity)). lia.
Qed.

Lemma passphrase_shape_witness :
  exists caps n call,
    generateRandomPassphrase 8 four_words_first_number
      (constant_values 0 (replay [r_1_2; r_3_4; r_1_2; r_1_4; r_0; r_7_16]))
      = Some (String.concat "-" caps
                ++ "-" ++ NilEmpty.string_of_uint (N.to_uint n))%string
    /\ List.length (selected_words (replay [r_1_2; r_3_4; r_1_2; r_1_4; r_0; r_7_16]) 8 4) = 4
    /\ NoDup (selected_indices (replay [r_1_2; r_3_4; r_1_2; r_1_4; r_0; r_7_16]) 8 4)
    /\ Forall (fun w => w ∈ WORD_LIST)
         (selected_words (replay [r_1_2; r_3_4; r_1_2; r_1_4; r_0; r_7_16]) 8 4)
    /\ capitalized CapFirst
         (selected_words (replay [r_1_2; r_3_4; r_1_2; r_1_4; r_0; r_7_16]) 8 4) caps
    /\ n = floor_mul (replay [r_1_2; r_3_4; r_1_2; r_1_4; r_0; r_7_16] call) 9999
    /\ (n <= 9998)%N.
Proof.
  apply (passphrase_shape 8 four_words_first_number
           (constant_values 0 (replay [r_1_2; r_3_4; r_1_2; r_1_4; r_0; r_7_16]))).
  vm_compute. lia.
Defined.

(** The run of the specification's example, in full: four words, the
    first one capitalized, and the number [floor(0.4375 * 9999)]. *)
Lemma passphrase_shape_example :
  generateRandomPassphrase 8 four_words_first_number
    (constant_values 0 (replay [r_1_2; r_3_4; r_1_2; r_1_4; r_0; r_7_16]))
  = Some "Quantum-monsoon-tiger-correct-4374"%string
  /\ selected_words (replay [r_1_2; r_3_4; r_1_2; r_1_4; r_0; r_7_16]) 8 4
     = ["quantum"; "monsoon"; "tiger"; "correct"]%string.
Proof. split; vm_compute; reflexivity. Qed.

(** The indices are those of the rounded products: the samples
    0.5714285714285714 and 147/256 both yield the index 64, so that after
    these two calls a selection of two words is still under way. *)
Lemma rounded_products_repeat_an_index :
  map (index_at (replay [r_4_7; r_147_256])) [0; 1] = [64; 64]
  /\ size (drawn (replay [r_4_7; r_147_256]) 0 2) = 1
  /\ generateRandomPassphrase 2 two_words (constant_values 0 (replay [r_4_7; r_147_256]))
     = None.
Proof. repeat split; vm_compute; reflexivity. Qed.

(** A passphrase is returned only for a word count of at most 112. *)
Lemma passphrase_returned_only_within_word_list
    (fuel : nat) (p : PassphraseSettings) (src : RandomSources) (s : string) :
  generateRandomPassphrase fuel p src = Some s -> wordCount p <= 112.
Proof.
  unfold generateRandomPassphrase.
  destruct (select_loop fuel (Math_random src) (wordCount p) [] ∅ 0)
    as [[[words used] k]|] eqn:Hrun; [intros _ | discriminate].
  destruct (select_loop_sound _ _ _ [] [] ∅ 0 words used k
              selection_nil (Nat.le_0_l _) Hrun) as [[idxs Hsel] Hlen].
  apply selection_bounded in Hsel.
  change (List.length WORD_LIST) with 112 in Hsel. lia.
Qed.

(** C10.  [WORD_LIST] has 112 entries, and for a word count above 112 the
    selection loop is still running after any number of iterations: the
    generator, which checks no bound, never returns. *)
Theorem passphrase_never_returns_beyond_word_list
    (p : PassphraseSettings) (src : RandomSources) :
  112 < wordCount p ->
  List.length WORD_LIST = 112
  /\ forall fuel, generateRandomPassphrase fuel p src = None.
Proof.
  intros Hbig. split; [reflexivity |]. intros fuel.
  destruct (generateRandomPassphrase fuel p src) as [s|] eqn:Hret; [| reflexivity].
  apply passphrase_returned_only_within_word_list in Hret. lia.
Qed.

Lemma passphrase_never_returns_beyond_word_list_witness :
  List.length WORD_LIST = 112
  /\ forall fuel,
       generateRandomPassphrase fuel
         {| wordCount := 113; separator := "-"; capitalize := CapNone;
            includeNumber := false |}
         (constant_values 0 (replay [r_1_2; r_3_4])) = None.
Proof.
  apply (passphrase_never_returns_beyond_word_list
           {| wordCount := 113; separator := "-"; capitalize := CapNone;
              includeNumber := false |}
           (constant_values 0 (replay [r_1_2; r_3_4]))).
  simpl. lia.
Defined.

(** C3 (as stated, refuted).  With the secure source and the settings
    fixed, other results of [Math.random()] give another passphrase, and
    another password when the coverage injection runs. *)
Lemma output_follows_Math_random :
  generateRandomPassphrase 8 three_words
    (constant_values 0 (replay [r_1_2; r_3_4; r_1_4])) = Some "quantum-monsoon-tiger"%string
  /\ generateRandomPassphrase 8 three_words
       (constant_values 0 (replay [r_1_4; r_1_2; r_3_4])) = Some "tiger-quantum-monsoon"%string
  /\ generateRandomPassword all_categories_16
       (constant_values 26 (replay [r_3_4; r_1_2; r_1_4; r_1_2; r_7_16; r_1_2]))
     = inr "aaaaaaaa+aaaaaaa"%string
  /\ generateRandomPassword all_categories_16 (constant_values 26 (replay []))
     = inr "!aaaaaaaaaaaaaaa"%string.
Proof. repeat split; vm_compute; reflexivity. Qed.

(** C3 (amended).  The [length] characters of the draw come from
    [crypto.getRandomValues]: a password whose draw already holds every
    enabled category is the same whatever [Math.random()] returns.  The
    passphrase is made from [Math.random()] alone: it is the same whatever
    the secure source holds. *)
Theorem secure_source_feeds_only_the_draw
    (p : PasswordSettings) (pp : PassphraseSettings) (fuel : nat)
    (values values' : nat -> N) (rnd rnd' : nat -> sample) :
  Forall (fun set =>
            has_char_of set
              (draw (build_charset p) (fun i => (values i mod 2 ^ 32)%N) (length p))
            = true)
         (ensureChars p) ->
  generateRandomPassword p {| crypto_values := values; Math_random := rnd |}
  = generateRandomPassword p {| crypto_values := values; Math_random := rnd' |}
  /\ generateRandomPassphrase fuel pp {| crypto_values := values; Math_random := rnd |}
     = generateRandomPassphrase fuel pp {| crypto_values := values'; Math_random := rnd |}.
Proof.
  intros Hcov. split; [| reflexivity].
  unfold generateRandomPassword, getRandomValues. cbn [crypto_values Math_random].
  destruct (65536 <? 4 * N.of_nat (length p))%N; [reflexivity |].
  now rewrite !ensure_fold_covered by exact Hcov.
Qed.

Lemma secure_source_feeds_only_the_draw_witness :
  generateRandomPassword all_categories_16
    {| crypto_values := fun i => (11 * N.of_nat i)%N; Math_random := replay [] |}
  = generateRandomPassword all_categories_16
      {| crypto_values := fun i => (11 * N.of_nat i)%N; Math_random := replay [r_1_2; r_3_4] |}
  /\ generateRandomPassphrase 8 three_words
       {| crypto_values := fun i => (11 * N.of_nat i)%N; Math_random := replay [] |}
     = generateRandomPassphrase 8 three_words
         {| crypto_values := fun _ => 0%N; Math_random := replay [] |}.
Proof.
  apply (secure_source_feeds_only_the_draw all_categories_16 three_words 8
           (fun i => (11 * N.of_nat i)%N) (fun _ => 0%N)
           (replay []) (replay [r_1_2; r_3_4])).
  repeat constructor; vm_compute; reflexivity.
Defined.






End GeneratorSpec.

(** ** The envelope codec against the specification *)

Module CodecSpec.
Import Codec Inputs.

Lemma append_String (c : ascii) (s t : string) :
  (String c s ++ t)%string = String c (s ++ t).
Proof. reflexivity. Qed.

Lemma append_empty_l (t : string) : ("" ++ t)%string = t.
Proof. reflexivity. Qed.

Lemma append_empty_r (s : string) : (s ++ "")%string = s.
Proof.
  induction s as [|c s IH]; [reflexivity |]. now rewrite append_String, IH.
Qed.

Lemma append_assoc (a b c : string) : ((a ++ b) ++ c)%string = (a ++ (b ++ c))%string.
Proof.
  induction a as [|x a IH]; [reflexivity |]. now rewrite !append_String, IH.
Qed.

(** Reading an escaped field up to its separator yields the field. *)
Lemma unframe_from_field (f rest cur : string) :
  unframe_from (escape f ++ String SEP rest) cur
  = match unframe_from rest EmptyString with
    | Some fields => Some ((cur ++ f)%string :: fields)
    | None => None
    end.
Proof.
  revert cur. induction f as [|c f IH]; intros cur.
  - rewrite append_empty_r. cbn [escape]. rewrite append_empty_l.
    cbn [unframe_from]. change (Ascii.eqb SEP SEP) with true. reflexivity.
  - assert (Hnext : unframe_from (escape f ++ String SEP rest) (cur ++ String c EmptyString)
                    = match unframe_from rest EmptyString with
                      | Some fields => Some ((cur ++ String c f)%string :: fields)
                      | None => None
                      end).
    { rewrite IH, append_assoc. reflexivity. }
    cbn [escape].
    destruct (Ascii.eqb c ESC) eqn:Hesc; [| destruct (Ascii.eqb c SEP) eqn:Hsep];
      cbn [orb]; rewrite !append_String; cbn [unframe_from].
    + change (Ascii.eqb ESC SEP) with false. change (Ascii.eqb ESC ESC) with true.
      cbn iota. exact Hnext.
    + change (Ascii.eqb ESC SEP) with false. change (Ascii.eqb ESC ESC) with true.
      cbn iota. exact Hnext.
    + rewrite Hsep, Hesc. exact Hnext.
Qed.

Lemma unframe_frame (fields : list string) : unframe (frame fields) = Some fields.
Proof.
  unfold unframe. induction fields as [|f fields IH]; [reflexivity |].
  cbn [frame]. rewrite unframe_from_field, IH. reflexivity.
Qed.

Lemma decode_encode_optional (o : option string) :
  decode_optional (encode_optional o) = Some o.
Proof. destruct o; reflexivity. Qed.

Lemma parse_entry_fields (es : list VaultEntry) :
  parse_entries (concat (map entry_fields es)) = Some es.
Proof.
  induction es as [|e es IH]; [reflexivity |].
  destruct e as [i n u p l o]. cbn [map concat entry_fields app parse_entries].
  cbn [id name username password url notes].
  rewrite !decode_encode_optional, IH. reflexivity.
Qed.

(** The plaintext of a vault reads back as that vault: entries, their
    order, and which optional fields are present. *)
Lemma deserialize_serialize (v : Vault) : deserialize (serialize v) = Some v.
Proof.
  destruct v as [es]. unfold deserialize, serialize. cbn [entries].
  rewrite unframe_frame, parse_entry_fields. reflexivity.
Qed.

Lemma length_fill (rs : nat -> ascii) (from n : nat) : String.length (fill rs from n) = n.
Proof.
  unfold fill. revert from. induction n as [|n IH]; intros from; simpl;
    [reflexivity | now rewrite IH].
Qed.

(** An envelope made by [encryptVault] is recognized by [decryptVault]. *)
Lemma parse_encode_envelope (e : Envelope) :
  version e = FORMAT_VERSION -> kdf_algorithm e = KDF_ALGORITHM ->
  String.length (salt e) = SALT_BYTES -> String.length (nonce e) = NONCE_BYTES ->
  parse_envelope (encode_envelope e) = Some e.
Proof.
  destruct e as [v a c sa n ct]. cbn [version kdf_algorithm salt nonce].
  intros -> -> Hsalt Hnonce. unfold parse_envelope, encode_envelope.
  rewrite unframe_frame. cbn [version kdf_algorithm kdf_cost salt nonce ciphertext].
  rewrite !String.eqb_refl, Hsalt, Hnonce, !Nat.eqb_refl. reflexivity.
Qed.

Lemma strip_prefix_append (pre s : string) : strip_prefix pre (pre ++ s) = Some s.
Proof.
  induction pre as [|c pre IH]; [reflexivity |].
  rewrite append_String. cbn [strip_prefix]. now rewrite Ascii.eqb_refl.
Qed.

Lemma toy_aead_correct : aead_correct toy.
Proof. intros k n m. simpl. apply strip_prefix_append. Qed.

(** C1.  For every vault and master password, decrypting what
    [encryptVault] produced, with the same password, returns the vault
    that was encrypted: the same entries, in the same order, with the same
    optional fields present.  The cipher is any one whose decryption
    inverts its encryption under the same key and nonce. *)
Theorem decrypt_encrypt_round_trip
    (P : Primitives) (rs : nat -> ascii) (V : Vault) (masterPassword : string) :
  aead_correct P ->
  decryptVault P (encryptVault P rs V masterPassword) masterPassword = inr V.
Proof.
  intros Haead. unfold decryptVault, encryptVault.
  rewrite parse_encode_envelope; try reflexivity; try apply length_fill.
  cbn [salt nonce kdf_cost ciphertext].
  rewrite Haead, deserialize_serialize. reflexivity.
Qed.

Lemma decrypt_encrypt_round_trip_witness :
  decryptVault toy
    (encryptVault toy (fun i => ascii_of_nat (65 + i)) sample_vault "master")
    "master"
  = inr sample_vault.
Proof.
  apply (decrypt_encrypt_round_trip toy (fun i => ascii_of_nat (65 + i))
           sample_vault "master").
  exact toy_aead_correct.
Defined.

End CodecSpec.

(** ** Properties of the vault screen *)

Module VaultScreenProps.
Import JS JSText VaultScreen ScreenNotions.

Lemma is_empty_false (s : string) : is_empty s = false <-> s <> EmptyString.
Proof. destruct s; simpl; split; intros H; congruence. Qed.

Lemma is_empty_true (s : string) : is_empty s = true <-> s = EmptyString.
Proof. destruct s; simpl; split; intros H; congruence. Qed.


Lemma or_undefined_or_empty (o : option string) :
  o <> Some EmptyString -> or_undefined (or_empty o) = o.
Proof. destruct o as [[|c s]|]; intros H; try reflexivity. now elim H. Qed.


(** What [saveVault] leaves in the [vault] state. *)
Lemma vault_saveVault (outcome : string + unit) (updated : Codec.Vault) (st : Screen) :
  vault (saveVault outcome updated st)
  = match outcome with inr _ => Some updated | inl _ => vault st end.
Proof.
  unfold saveVault. destruct outcome as [message|[]]; [reflexivity |].
  destruct (selectedEntry st); reflexivity.
Qed.

(** The entries after [handleSaveEntry]. *)
Lemma entries_handleSaveEntry (now : string) (outcome : string + unit) (st : Screen) :
  entries_of (handleSaveEntry now outcome st)
  = match vault st, outcome with
    | Some v, inr _ =>
        if is_empty (masterPassword st) || is_empty (form_name (entryForm st))
        then Codec.entries v
        else updatedEntries now st (Codec.entries v)
    | _, _ => entries_of st
    end.
Proof.
  unfold handleSaveEntry, entries_of.
  destruct (vault st) as [v|] eqn:Hv; cbv beta iota.
  - destruct (is_empty (masterPassword st) || is_empty (form_name (entryForm st))).
    + rewrite Hv. now destruct outcome.
    + cbn [vault setViewMode setSelectedEntry]. rewrite vault_saveVault.
      destruct outcome; [now rewrite Hv | reflexivity].
  - now rewrite Hv.
Qed.

(** The entries after [handleDeleteEntry]. *)
Lemma entries_handleDeleteEntry (i : string) (confirmed : bool)
    (outcome : string + unit) (st : Screen) :
  entries_of (handleDeleteEntry i confirmed outcome st)
  = match outcome with
    | inr _ =>
        if is_empty (masterPassword st) || negb confirmed then entries_of st
        else filter (fun e => negb (String.eqb (Codec.id e) i)) (entries_of st)
    | inl _ => entries_of st
    end.
Proof.
  unfold handleDeleteEntry, entries_of.
  destruct (vault st) as [v|] eqn:Hv; cbv beta iota.
  - destruct (is_empty (masterPassword st) || negb confirmed).
    + rewrite Hv. now destruct outcome.
    + cbn [vault setViewMode setSelectedEntry]. rewrite vault_saveVault.
      destruct outcome; [now rewrite Hv | reflexivity].
  - rewrite Hv. destruct outcome; [reflexivity |].
    now destruct (is_empty (masterPassword st) || negb confirmed).
Qed.




Lemma map_id_replace (new : Codec.VaultEntry) (i : string) (l : list Codec.VaultEntry) :
  Codec.id new = i ->
  map Codec.id (map (fun e => if String.eqb (Codec.id e) i then new else e) l)
  = map Codec.id l.
Proof.
  intros Hnew. induction l as [|e l IH]; [reflexivity |]. cbn [map]. rewrite IH.
  destruct (String.eqb_spec (Codec.id e) i) as [Heq|Hne]; [| reflexivity].
  now rewrite Hnew, Heq.
Qed.

Lemma id_newEntry_selected (now : string) (st : Screen) (sel : Codec.VaultEntry) :
  selectedEntry st = Some sel -> Codec.id sel <> EmptyString ->
  Codec.id (newEntry now st) = Codec.id sel.
Proof.
  intros Hsel Hid. unfold newEntry. cbn [Codec.id]. rewrite Hsel.
  apply is_empty_false in Hid. now rewrite Hid.
Qed.

Lemma id_newEntry_fresh (now : string) (st : Screen) :
  selectedEntry st = None -> Codec.id (newEntry now st) = now.
Proof. intros Hsel. unfold newEntry. cbn [Codec.id]. now rewrite Hsel. Qed.

Lemma ids_handleSaveEntry_edit
    (now : string) (outcome : string + unit) (st : Screen) (sel : Codec.VaultEntry) :
  viewMode st = edit -> selectedEntry st = Some sel -> Codec.id sel <> EmptyString ->
  ids_of (handleSaveEntry now outcome st) = ids_of st.
Proof.
  intros Hmode Hsel Hid. unfold ids_of. rewrite entries_handleSaveEntry.
  destruct (vault st) as [v|] eqn:Hv; [| reflexivity].
  assert (Hentries : entries_of st = Codec.entries v).
  { unfold entries_of. now rewrite Hv. }
  destruct outcome as [message|[]]; [reflexivity |]. rewrite Hentries.
  destruct (is_empty (masterPassword st) || is_empty (form_name (entryForm st)));
    [reflexivity |].
  unfold updatedEntries. rewrite Hmode, Hsel.
  apply map_id_replace. now apply (id_newEntry_selected now st sel).
Qed.

(** Saving an edited entry changes neither the ids of the vault nor their
    order, whatever the form holds and whether or not the save goes
    through. *)
Theorem edit_keeps_ids_and_order
    (now : string) (outcome : string + unit) (st : Screen) (sel : Codec.VaultEntry) :
  viewMode st = edit -> selectedEntry st = Some sel -> Codec.id sel <> EmptyString ->
  ids_of (handleSaveEntry now outcome st) = ids_of st.
Proof. apply ids_handleSaveEntry_edit. Qed.

Lemma edit_keeps_ids_and_order_witness :
  ids_of (handleSaveEntry "1700000000002" (inr tt) ScreenInputs.editing_bank)
  = ids_of ScreenInputs.editing_bank.
Proof.
  apply (edit_keeps_ids_and_order "1700000000002" (inr tt) ScreenInputs.editing_bank
           ScreenInputs.bank_entry); [reflexivity | reflexivity | discriminate].
Defined.


Lemma ids_handleSaveEntry_append (now : string) (st : Screen) (v : Codec.Vault) :
  vault st = Some v -> selectedEntry st = None ->
  is_empty (masterPassword st) || is_empty (form_name (entryForm st)) = false ->
  ids_of (handleSaveEntry now (inr tt) st) = ids_of st ++ [now].
Proof.
  intros Hv Hsel Hguard. unfold ids_of. rewrite entries_handleSaveEntry, Hv, Hguard.
  unfold updatedEntries, entries_of. rewrite Hsel, Hv.
  destruct (viewMode st); rewrite map_app; cbn [map];
    now rewrite (id_newEntry_fresh now st Hsel).
Qed.

(** Saving keeps the ids of the vault pairwise distinct, provided the
    time stamp is not an id of the vault yet and the form is either
    editing the selected entry or has no entry selected. *)
Theorem save_keeps_ids_distinct
    (now : string) (outcome : string + unit) (st : Screen) :
  NoDup (ids_of st) -> now ∉ ids_of st ->
  viewMode st = edit \/ selectedEntry st = None ->
  NoDup (ids_of (handleSaveEntry now outcome st)).
Proof.
  intros Hnd Hfresh Hmode.
  destruct outcome as [message|[]].
  { unfold ids_of. rewrite entries_handleSaveEntry. now destruct (vault st). }
  destruct (vault st) as [v|] eqn:Hv.
  2: { unfold ids_of. rewrite entries_handleSaveEntry, Hv. exact Hnd. }
  destruct (is_empty (masterPassword st) || is_empty (form_name (entryForm st))) eqn:Hguard.
  { unfold ids_of. rewrite entries_handleSaveEntry, Hv, Hguard.
    unfold ids_of, entries_of in Hnd. now rewrite Hv in Hnd. }
  destruct (selectedEntry st) as [sel|] eqn:Hsel.
  - destruct Hmode as [Hedit|Hnone]; [| discriminate].
    destruct (is_empty (Codec.id sel)) eqn:Hid.
    + (* the selected entry has the empty id: it takes the time stamp *)
      unfold ids_of. rewrite entries_handleSaveEntry, Hv, Hguard.
      unfold updatedEntries. rewrite Hedit, Hsel.
      apply is_empty_true in Hid.
      assert (Hnew : Codec.id (newEntry now st) = now).
      { unfold newEntry. cbn [Codec.id]. now rewrite Hsel, Hid. }
      assert (Hids : ids_of st = map Codec.id (Codec.entries v)).
      { unfold ids_of, entries_of. now rewrite Hv. }
      rewrite Hids in Hnd, Hfresh. clear Hids.
      induction (Codec.entries v) as [|e l IH]; [constructor |].
      cbn [map] in *. apply NoDup_cons in Hnd as [He Hl].
      apply not_elem_of_cons in Hfresh as [Hne Hfresh].
      apply NoDup_cons. split; [| now apply IH].
      intros Hin. apply list_elem_of_fmap in Hin as (x & Hx & Hxin).
      apply list_elem_of_fmap in Hxin as (y & -> & Hy).
      assert (Hyin : Codec.id y ∈ map Codec.id l).
      { apply list_elem_of_fmap. eauto. }
      destruct (String.eqb_spec (Codec.id e) (Codec.id sel)) as [He1|He1];
        destruct (String.eqb_spec (Codec.id y) (Codec.id sel)) as [Hy1|Hy1].
      * apply He. now rewrite He1, <- Hy1.
      * rewrite Hnew in Hx. apply Hfresh. now rewrite Hx.
      * rewrite Hnew in Hx. now apply Hne.
      * apply He. now rewrite Hx.
    + rewrite (ids_handleSaveEntry_edit now (inr tt) st sel Hedit Hsel); [exact Hnd |].
      now apply is_empty_false.
  - rewrite (ids_handleSaveEntry_append now st v Hv Hsel Hguard).
    apply NoDup_app. split; [exact Hnd |]. split.
    + intros x Hx Hx'. apply list_elem_of_singleton in Hx'. now subst x.
    + apply NoDup_singleton.
Qed.

Lemma save_keeps_ids_distinct_witness :
  NoDup (ids_of (handleSaveEntry "1700000000002" (inr tt) ScreenInputs.adding_shop)).
Proof.
  apply (save_keeps_ids_distinct "1700000000002" (inr tt) ScreenInputs.adding_shop).
  - vm_compute. repeat constructor; set_solver.
  - vm_compute. set_solver.
  - right. reflexivity.
Defined.


(** With pairwise distinct ids, an id names one entry. *)
Lemma same_id_same_entry (l : list Codec.VaultEntry) (x e : Codec.VaultEntry) :
  NoDup (map Codec.id l) -> x ∈ l -> e ∈ l -> Codec.id x = Codec.id e -> x = e.
Proof.
  induction l as [|z l IH]; intros Hnd Hx He Hid; [now apply elem_of_nil in Hx |].
  cbn [map] in Hnd. apply NoDup_cons in Hnd as [Hz Hl].
  apply elem_of_cons in Hx as [->|Hx]; apply elem_of_cons in He as [->|He].
  - reflexivity.
  - exfalso. apply Hz. rewrite Hid. now apply list_elem_of_fmap_2.
  - exfalso. apply Hz. rewrite <- Hid. now apply list_elem_of_fmap_2.
  - now apply IH.
Qed.

Lemma replace_by_itself (e : Codec.VaultEntry) (l : list Codec.VaultEntry) :
  (forall x, x ∈ l -> Codec.id x = Codec.id e -> x = e) ->
  map (fun x => if String.eqb (Codec.id x) (Codec.id e) then e else x) l = l.
Proof.
  induction l as [|x l IH]; intros Hsame; [reflexivity |]. cbn [map]. f_equal.
  - destruct (String.eqb_spec (Codec.id x) (Codec.id e)) as [Hid|Hid]; [| reflexivity].
    symmetry. apply Hsame; [apply elem_of_cons; now left | exact Hid].
  - apply IH. intros y Hy. apply Hsame. apply elem_of_cons. now right.
Qed.

(** Opening an entry of the vault for editing and saving the form
    untouched leaves the vault as it was, when the ids of the vault are
    pairwise distinct and the entry is well formed with an id. *)
Theorem edit_then_save_unchanged
    (now : string) (st : Screen) (v : Codec.Vault) (e : Codec.VaultEntry) :
  vault st = Some v -> masterPassword st <> EmptyString ->
  e ∈ Codec.entries v -> NoDup (map Codec.id (Codec.entries v)) ->
  well_formed e -> Codec.id e <> EmptyString ->
  vault (handleSaveEntry now (inr tt) (handleEditEntry e st)) = Some v.
Proof.
  intros Hv Hpw He Hnd (Hname & Hu & Hp & Hl & Ho) Hid.
  set (st1 := handleEditEntry e st).
  assert (Hnew : newEntry now st1 = e).
  { unfold newEntry, st1. cbn.
    apply is_empty_false in Hid. rewrite Hid.
    rewrite !or_undefined_or_empty by assumption. now destruct e. }
  unfold handleSaveEntry.
  assert (Hv1 : vault st1 = Some v) by exact Hv.
  assert (Hpw1 : is_empty (masterPassword st1) = false) by now apply is_empty_false.
  assert (Hname1 : is_empty (form_name (entryForm st1)) = false) by now apply is_empty_false.
  rewrite Hv1, Hpw1, Hname1. cbn [orb vault setViewMode setSelectedEntry].
  rewrite vault_saveVault. unfold updatedEntries. rewrite Hnew.
  change (viewMode st1) with edit. change (selectedEntry st1) with (Some e).
  cbv beta iota.
  rewrite replace_by_itself; [now destruct v |].
  intros x Hx Hxid. now apply (same_id_same_entry (Codec.entries v)).
Qed.

Lemma edit_then_save_unchanged_witness :
  vault (handleSaveEntry "1700000000002" (inr tt)
           (handleEditEntry ScreenInputs.bank_entry ScreenInputs.two_entries))
  = Some {| Codec.entries := [ScreenInputs.mail_entry; ScreenInputs.bank_entry] |}.
Proof.
  apply (edit_then_save_unchanged "1700000000002" ScreenInputs.two_entries
           {| Codec.entries := [ScreenInputs.mail_entry; ScreenInputs.bank_entry] |}
           ScreenInputs.bank_entry).
  - reflexivity.
  - discriminate.
  - simpl. set_solver.
  - vm_compute. repeat constructor; set_solver.
  - repeat split; simpl; congruence.
  - discriminate.
Defined.


Lemma filter_other_ids_absent (i : string) (l : list Codec.VaultEntry) :
  i ∉ map Codec.id l ->
  filter (fun e => negb (String.eqb (Codec.id e) i)) l = l.
Proof.
  induction l as [|e l IH]; intros Hi; [reflexivity |].
  cbn [map] in Hi. apply not_elem_of_cons in Hi as [Hne Hi].
  rewrite filter_cons_True.
  - now rewrite IH.
  - destruct (String.eqb_spec (Codec.id e) i); [congruence | exact I].
Qed.

Lemma filter_other_ids_length (i : string) (l : list Codec.VaultEntry) :
  NoDup (map Codec.id l) -> i ∈ map Codec.id l ->
  List.length (filter (fun e => negb (String.eqb (Codec.id e) i)) l) + 1 = List.length l.
Proof.
  induction l as [|e l IH]; intros Hnd Hi; [now apply elem_of_nil in Hi |].
  cbn [map] in *. apply NoDup_cons in Hnd as [He Hl].
  destruct (String.eqb_spec (Codec.id e) i) as [Heq|Hne].
  - rewrite filter_cons_False.
    + rewrite filter_other_ids_absent by now rewrite <- Heq. simpl. lia.
    + rewrite Heq, String.eqb_refl. simpl. tauto.
  - rewrite filter_cons_True.
    + apply elem_of_cons in Hi as [Hi|Hi]; [congruence |].
      simpl. rewrite <- (IH Hl Hi). lia.
    + destruct (String.eqb_spec (Codec.id e) i); [congruence | exact I].
Qed.

(** A confirmed delete that goes through removes every entry with the
    given id and keeps the others, in their order; with pairwise distinct
    ids and the id in the vault, exactly one entry goes. *)
Theorem delete_removes_the_entry
    (i : string) (st : Screen) :
  masterPassword st <> EmptyString ->
  let st' := handleDeleteEntry i true (inr tt) st in
  (i ∉ ids_of st')
  /\ (forall e, e ∈ entries_of st' <-> e ∈ entries_of st /\ Codec.id e <> i)
  /\ sublist (entries_of st') (entries_of st)
  /\ (NoDup (ids_of st) -> i ∈ ids_of st ->
      List.length (entries_of st') + 1 = List.length (entries_of st)).
Proof.
  intros Hpw st'. apply is_empty_false in Hpw.
  assert (Hentries : entries_of st'
                     = filter (fun e => negb (String.eqb (Codec.id e) i)) (entries_of st)).
  { unfold st'. rewrite entries_handleDeleteEntry, Hpw. reflexivity. }
  assert (Hmem : forall e, e ∈ entries_of st' <-> e ∈ entries_of st /\ Codec.id e <> i).
  { intros e. rewrite Hentries, list_elem_of_filter.
    destruct (String.eqb_spec (Codec.id e) i); simpl; tauto. }
  split; [| split; [exact Hmem | split]].
  - unfold ids_of. intros Hin. apply list_elem_of_fmap in Hin as (e & -> & He).
    apply Hmem in He. tauto.
  - rewrite Hentries. apply sublist_filter.
  - intros Hnd Hi. rewrite Hentries. now apply filter_other_ids_length.
Qed.

Lemma delete_removes_the_entry_witness :
  let st' := handleDeleteEntry "1700000000000" true (inr tt) ScreenInputs.two_entries in
  ("1700000000000"%string ∉ ids_of st')
  /\ (forall e, e ∈ entries_of st'
                <-> e ∈ entries_of ScreenInputs.two_entries
                    /\ Codec.id e <> "1700000000000"%string)
  /\ sublist (entries_of st') (entries_of ScreenInputs.two_entries)
  /\ (NoDup (ids_of ScreenInputs.two_entries) ->
      "1700000000000"%string ∈ ids_of ScreenInputs.two_entries ->
      List.length (entries_of st') + 1 = List.length (entries_of ScreenInputs.two_entries)).
Proof.
  apply (delete_removes_the_entry "1700000000000" ScreenInputs.two_entries).
  discriminate.
Defined.

Lemma masterPassword_handleSaveEntry (now : string) (outcome : string + unit) (st : Screen) :
  masterPassword (handleSaveEntry now outcome st) = masterPassword st.
Proof.
  unfold handleSaveEntry. destruct (vault st); [| reflexivity].
  destruct (is_empty (masterPassword st) || is_empty (form_name (entryForm st)));
    [reflexivity |].
  unfold saveVault. destruct outcome as [message|[]]; [reflexivity |].
  destruct (selectedEntry st); reflexivity.
Qed.

(** Adding an entry and then deleting the entry with the id it was given
    brings the entries of the vault back, when that id was not in the
    vault before. *)
Theorem create_then_delete_restores (now : string) (st : Screen) :
  selectedEntry st = None -> now ∉ ids_of st ->
  entries_of (handleDeleteEntry now true (inr tt) (handleSaveEntry now (inr tt) st))
  = entries_of st.
Proof.
  intros Hsel Hfresh.
  rewrite entries_handleDeleteEntry, masterPassword_handleSaveEntry.
  rewrite entries_handleSaveEntry.
  destruct (vault st) as [v|] eqn:Hv.
  2: { destruct (is_empty (masterPassword st) || negb true); [reflexivity |].
       unfold entries_of. now rewrite Hv. }
  assert (Hentries : entries_of st = Codec.entries v).
  { unfold entries_of. now rewrite Hv. }
  unfold ids_of in Hfresh. rewrite Hentries in *.
  destruct (is_empty (masterPassword st)) eqn:Hpw; [reflexivity |]. cbn [orb negb].
  destruct (is_empty (form_name (entryForm st))).
  - now apply filter_other_ids_absent.
  - unfold updatedEntries. rewrite Hsel.
    assert (Happ : filter (fun e => negb (String.eqb (Codec.id e) now))
                     (Codec.entries v ++ [newEntry now st]) = Codec.entries v).
    { rewrite filter_app, filter_other_ids_absent by exact Hfresh.
      rewrite filter_cons_False, filter_nil, app_nil_r; [reflexivity |].
      rewrite (id_newEntry_fresh now st Hsel), String.eqb_refl. simpl. tauto. }
    now destruct (viewMode st).
Qed.

Lemma create_then_delete_restores_witness :
  entries_of (handleDeleteEntry "1700000000002" true (inr tt)
                (handleSaveEntry "1700000000002" (inr tt) ScreenInputs.adding_shop))
  = entries_of ScreenInputs.adding_shop.
Proof.
  apply (create_then_delete_restores "1700000000002" ScreenInputs.adding_shop).
  - reflexivity.
  - vm_compute. set_solver.
Defined.

(** When the server holds no vault the screen opens unlocked without the
    master password ever being asked; the password stays empty, and so
    saving an entry does nothing, whatever the form holds. *)
Theorem without_stored_vault_nothing_is_saved
    (encrypted_vault : option string) (st0 : Screen) (form : EntryForm)
    (now : string) (outcome : string + unit) :
  masterPassword st0 = EmptyString -> has_vault encrypted_vault = false ->
  let st := setEntryForm form (handleAddEntry (fst (loadVault (inr encrypted_vault) st0))) in
  unlocked st = true /\ entries_of st = [] /\ handleSaveEntry now outcome st = st.
Proof.
  intros Hpw Hnone st. unfold st, loadVault. rewrite Hnone. cbn.
  repeat split. unfold handleSaveEntry. cbn. now rewrite Hpw.
Qed.

Lemma without_stored_vault_nothing_is_saved_witness :
  let st :=
    setEntryForm ScreenInputs.shop_form (handleAddEntry (fst (loadVault (inr None) initial))) in
  unlocked st = true /\ entries_of st = []
  /\ handleSaveEntry "1700000000002" (inr tt) st = st.
Proof.
  apply (without_stored_vault_nothing_is_saved None initial ScreenInputs.shop_form
           "1700000000002" (inr tt)); reflexivity.
Defined.

(** When encrypting or storing fails, the vault on the screen is left as
    it was and the error is shown, yet the screen selects the entry of the
    form and leaves the form; for a new entry, the entry selected is not
    in the vault. *)
Theorem failed_save_selects_unsaved_entry
    (now message : string) (st : Screen) (v : Codec.Vault) :
  vault st = Some v -> masterPassword st <> EmptyString ->
  form_name (entryForm st) <> EmptyString ->
  selectedEntry st = None -> now ∉ ids_of st ->
  let st' := handleSaveEntry now (inl message) st in
  vault st' = Some v /\ error st' = message /\ viewMode st' = view
  /\ exists e, selectedEntry st' = Some e /\ e ∉ entries_of st'.
Proof.
  intros Hv Hpw Hname Hsel Hfresh st'.
  apply is_empty_false in Hpw. apply is_empty_false in Hname.
  assert (Hst' : st' = setViewMode view
                         (setSelectedEntry (Some (newEntry now st))
                            (saveVault (inl message) {| Codec.entries :=
                               updatedEntries now st (Codec.entries v) |} st))).
  { unfold st', handleSaveEntry. now rewrite Hv, Hpw, Hname. }
  rewrite Hst'. cbn. rewrite Hv. repeat split.
  exists (newEntry now st). split; [reflexivity |].
  unfold entries_of. cbn. rewrite Hv. intros Hin.
  apply Hfresh. unfold ids_of, entries_of. rewrite Hv.
  rewrite <- (id_newEntry_fresh now st Hsel). now apply list_elem_of_fmap_2.
Qed.

Lemma failed_save_selects_unsaved_entry_witness :
  let st' := handleSaveEntry "1700000000002" (inl "API error 500: down"%string)
               ScreenInputs.adding_shop in
  vault st' = Some {| Codec.entries := [ScreenInputs.mail_entry; ScreenInputs.bank_entry] |}
  /\ error st' = "API error 500: down"%string /\ viewMode st' = view
  /\ exists e, selectedEntry st' = Some e /\ e ∉ entries_of st'.
Proof.
  apply (failed_save_selects_unsaved_entry "1700000000002" "API error 500: down"
           ScreenInputs.adding_shop
           {| Codec.entries := [ScreenInputs.mail_entry; ScreenInputs.bank_entry] |}).
  - reflexivity.
  - discriminate.
  - discriminate.
  - reflexivity.
  - vm_compute. set_solver.
Defined.


Lemma saveVault_frame (outcome : string + unit) (updated : Codec.Vault) (st : Screen) :
  viewMode (saveVault outcome updated st) = viewMode st
  /\ unlocked (saveVault outcome updated st) = unlocked st
  /\ (is_Some (vault st) -> is_Some (vault (saveVault outcome updated st))).
Proof.
  unfold saveVault. destruct outcome as [message|[]]; [now cbn |].
  destruct (selectedEntry st); cbn; eauto.
Qed.

(** One event keeps the two relations between the fields of the state. *)
Lemma step_keeps_relations (st st' : Screen) :
  step st st' ->
  mode_matches_selection st /\ (unlocked st = true <-> is_Some (vault st)) ->
  mode_matches_selection st' /\ (unlocked st' = true <-> is_Some (vault st')).
Proof.
  intros Hstep [Hmode Hlock].
  assert (Hsame : forall st1 : Screen,
             viewMode st1 = viewMode st -> selectedEntry st1 = selectedEntry st ->
             unlocked st1 = unlocked st -> vault st1 = vault st ->
             mode_matches_selection st1 /\ (unlocked st1 = true <-> is_Some (vault st1))).
  { intros st1 Hm Hs Hu Hv. unfold mode_matches_selection. now rewrite Hm, Hs, Hu, Hv. }
  assert (Hview : forall st1 : Screen,
             viewMode st1 = view -> unlocked st1 = unlocked st ->
             (is_Some (vault st1) <-> is_Some (vault st)) ->
             mode_matches_selection st1 /\ (unlocked st1 = true <-> is_Some (vault st1))).
  { intros st1 Hm Hu Hv. unfold mode_matches_selection. rewrite Hm, Hu, Hv. tauto. }
  destruct Hstep as [answer st|decrypt answer st|p st|q st|f st|st|e st|now outcome st
                    |st|i confirmed outcome st|st|open st|p st|e st].
  - unfold loadVault. destruct answer as [message|ev]; [now apply Hsame |].
    destruct (has_vault ev); cbn [fst]; unfold mode_matches_selection; cbn;
      (split; [exact Hmode |]); split; intros H; try discriminate; eauto.
    now destruct H.
  - unfold handleUnlock. destruct answer as [message|ev]; [now apply Hsame |].
    destruct (negb (has_vault ev)); [now apply Hsame |].
    destruct ev as [blob|]; [| now apply Hsame].
    destruct (decrypt blob (masterPassword (setError "" st))); [| now apply Hsame].
    unfold mode_matches_selection. cbn. split; [exact Hmode |]. split; eauto.
  - now apply Hsame.
  - now apply Hsame.
  - now apply Hsame.
  - split; [reflexivity | exact Hlock].
  - split; [discriminate | exact Hlock].
  - unfold handleSaveEntry. destruct (vault st) as [v|] eqn:Hv; [| now apply Hsame].
    destruct (is_empty (masterPassword st) || is_empty (form_name (entryForm st)));
      [now apply Hsame |].
    destruct (saveVault_frame outcome
                {| Codec.entries := updatedEntries now st (Codec.entries v) |} st)
      as (_ & Hun & Hsome).
    apply Hview; [reflexivity | exact Hun |]. cbn [vault setViewMode setSelectedEntry].
    split; intros _; [eauto | apply Hsome; rewrite Hv; eauto].
  - unfold handleCancelEdit. destruct (selectedEntry st); now apply Hview.
  - unfold handleDeleteEntry. destruct (vault st) as [v|] eqn:Hv; [| now apply Hsame].
    destruct (is_empty (masterPassword st) || negb confirmed); [now apply Hsame |].
    destruct (saveVault_frame outcome
                {| Codec.entries :=
                     filter (fun e => negb (String.eqb (Codec.id e) i)) (Codec.entries v) |} st)
      as (_ & Hun & Hsome).
    apply Hview; [reflexivity | exact Hun |]. cbn [vault setViewMode setSelectedEntry].
    split; intros _; [eauto | apply Hsome; rewrite Hv; eauto].
  - now apply Hsame.
  - now apply Hsame.
  - now apply Hsame.
  - now apply Hview.
Qed.

(** In every state the screen can reach, the create mode has no entry
    selected and the edit mode has one. *)
Theorem reachable_mode_matches_selection (st : Screen) :
  reachable st -> mode_matches_selection st.
Proof.
  intros Hreach.
  enough (mode_matches_selection st /\ (unlocked st = true <-> is_Some (vault st))) by tauto.
  induction Hreach as [|st st' _ IH Hstep].
  - split; [exact I |]. split; [discriminate | intros [v Hv]; discriminate].
  - now apply (step_keeps_relations st st').
Qed.

Lemma reachable_mode_matches_selection_witness :
  mode_matches_selection (handleAddEntry (fst (loadVault (inr None) initial))).
Proof.
  apply (reachable_mode_matches_selection
           (handleAddEntry (fst (loadVault (inr None) initial)))).
  eapply reachable_step; [| apply step_handleAddEntry].
  eapply reachable_step; [apply reachable_initial | apply step_loadVault].
Defined.

(** In every state the screen can reach, the screen is unlocked exactly
    when it holds a vault. *)
Theorem reachable_unlocked_iff_vault (st : Screen) :
  reachable st -> (unlocked st = true <-> is_Some (vault st)).
Proof.
  intros Hreach.
  enough (mode_matches_selection st /\ (unlocked st = true <-> is_Some (vault st))) by tauto.
  induction Hreach as [|st st' _ IH Hstep].
  - split; [exact I |]. split; [discriminate | intros [v Hv]; discriminate].
  - now apply (step_keeps_relations st st').
Qed.

Lemma reachable_unlocked_iff_vault_witness :
  unlocked (fst (loadVault (inr None) initial)) = true
  <-> is_Some (vault (fst (loadVault (inr None) initial))).
Proof.
  apply (reachable_unlocked_iff_vault (fst (loadVault (inr None) initial))).
  eapply reachable_step; [apply reachable_initial | apply step_loadVault].
Defined.

End VaultScreenProps.

(** ** Properties of the search of the vault screen *)

Module SearchProps.
Import JS JSText VaultScreen ScreenNotions.

Lemma append_cons (c : ascii) (s t : string) :
  (String c s ++ t)%string = String c (s ++ t).
Proof. reflexivity. Qed.

Lemma text_append_assoc (a b c : string) : ((a ++ b) ++ c)%string = (a ++ (b ++ c))%string.
Proof. induction a as [|x a IH]; [reflexivity |]. now rewrite !append_cons, IH. Qed.


Lemma prefix_occurs (sub s : string) :
  String.prefix sub s = true <-> exists post, s = (sub ++ post)%string.
Proof.
  revert s. induction sub as [|a sub IH]; intros s.
  - split; [intros _; now exists s | intros _; now destruct s].
  - destruct s as [|b s]; cbn [String.prefix].
    + split; [discriminate | intros [post H]; discriminate].
    + destruct (ascii_dec a b) as [->|Hne].
      * rewrite IH. split; intros [post H]; exists post.
        -- now rewrite append_cons, H.
        -- rewrite append_cons in H. now injection H.
      * split; [discriminate |]. intros [post H]. rewrite append_cons in H.
        injection H as Hab _. congruence.
Qed.

(** [s.includes(sub)] holds exactly when [sub] occurs in [s]. *)
Lemma includes_str_occurs (s sub : string) :
  includes_str s sub = true <-> exists pre post, s = (pre ++ sub ++ post)%string.
Proof.
  induction s as [|c s IH]; cbn [includes_str]; rewrite orb_true_iff, prefix_occurs.
  - split.
    + intros [[post H]|H]; [| discriminate]. now exists EmptyString, post.
    + intros (pre & post & H). left. destruct pre; [| discriminate].
      now exists post.
  - rewrite IH. split.
    + intros [[post H]|(pre & post & H)].
      * now exists EmptyString, post.
      * exists (String c pre), post. now rewrite append_cons, H.
    + intros (pre & post & H). destruct pre as [|a pre].
      * left. now exists post.
      * right. rewrite append_cons in H. injection H as _ H. now exists pre, post.
Qed.

Lemma toLowerCase_append (a b : string) :
  toLowerCase (a ++ b) = (toLowerCase a ++ toLowerCase b)%string.
Proof.
  induction a as [|c a IH]; [reflexivity |].
  rewrite append_cons. cbn [toLowerCase]. now rewrite IH, append_cons.
Qed.

(** An occurrence survives lowercasing, and occurrences compose. *)
Lemma includes_str_lower (s sub : string) :
  includes_str s sub = true -> includes_str (toLowerCase s) (toLowerCase sub) = true.
Proof.
  rewrite !includes_str_occurs. intros (pre & post & ->).
  exists (toLowerCase pre), (toLowerCase post). now rewrite !toLowerCase_append.
Qed.

Lemma includes_str_trans (s mid sub : string) :
  includes_str s mid = true -> includes_str mid sub = true -> includes_str s sub = true.
Proof.
  rewrite !includes_str_occurs. intros (pre & post & ->) (pre' & post' & ->).
  exists (pre ++ pre')%string, (post' ++ post)%string. now rewrite !text_append_assoc.
Qed.


Lemma includes_str_empty (s : string) : includes_str s EmptyString = true.
Proof. apply includes_str_occurs. now exists EmptyString, s. Qed.

Lemma filteredEntries_matches (st : Screen) :
  filteredEntries st = filter (fun e => matches (searchQuery st) e) (entries_of st).
Proof. unfold filteredEntries, entries_of. now destruct (vault st). Qed.

Lemma optional_matches_narrow (field : option string) (long short : string) :
  includes_str long short = true ->
  optional_matches field long = true -> optional_matches field short = true.
Proof.
  intros Hocc. destruct field as [s|]; [| discriminate]. cbn [optional_matches].
  intros H. now apply (includes_str_trans _ long).
Qed.

Lemma matches_narrow (long short : string) (e : Codec.VaultEntry) :
  includes_str long short = true -> matches long e = true -> matches short e = true.
Proof.
  intros Hocc. apply includes_str_lower in Hocc. unfold matches.
  rewrite !orb_true_iff. intros [[H|H]|H].
  - left. left. now apply (includes_str_trans _ (toLowerCase long)).
  - left. right. now apply (optional_matches_narrow _ (toLowerCase long)).
  - right. now apply (optional_matches_narrow _ (toLowerCase long)).
Qed.

Lemma sublist_filter_narrow {A : Type} (p q : A -> bool) (l : list A) :
  (forall x, p x = true -> q x = true) ->
  sublist (filter (fun x => p x) l) (filter (fun x => q x) l).
Proof.
  intros Hpq. induction l as [|x l IH]; [constructor |].
  destruct (p x) eqn:Hp.
  - rewrite (filter_cons_True (fun x => p x)) by now rewrite Hp.
    rewrite (filter_cons_True (fun x => q x)) by now rewrite (Hpq x Hp).
    now constructor.
  - rewrite (filter_cons_False (fun x => p x)) by now rewrite Hp.
    destruct (q x) eqn:Hq.
    + rewrite (filter_cons_True (fun x => q x)) by now rewrite Hq. now constructor.
    + rewrite (filter_cons_False (fun x => q x)) by now rewrite Hq. exact IH.
Qed.

(** With the empty search field the list shows every entry of the vault,
    in the vault's order. *)
Theorem empty_search_shows_every_entry (st : Screen) :
  searchQuery st = EmptyString -> filteredEntries st = entries_of st.
Proof.
  intros Hq. rewrite filteredEntries_matches, Hq.
  induction (entries_of st) as [|e l IH]; [reflexivity |].
  rewrite filter_cons_True; [now rewrite IH |].
  unfold matches. cbn [toLowerCase]. now rewrite includes_str_empty.
Qed.

Lemma empty_search_shows_every_entry_witness :
  filteredEntries ScreenInputs.two_entries = entries_of ScreenInputs.two_entries.
Proof.
  apply (empty_search_shows_every_entry ScreenInputs.two_entries). reflexivity.
Defined.

(** Typing more never adds results, on Latin-1 text (the text a [string]
    holds: code units below 256, lowercased one at a time): when the old
    search text occurs in the new one, the entries listed for the new
    text are among those listed for the old one, in the same order. *)
Theorem longer_search_narrows (st : Screen) (shorter longer : string) :
  includes_str longer shorter = true ->
  sublist (filteredEntries (setSearchQuery longer st))
          (filteredEntries (setSearchQuery shorter st)).
Proof.
  intros Hocc. rewrite !filteredEntries_matches.
  change (entries_of (setSearchQuery longer st)) with (entries_of st).
  change (entries_of (setSearchQuery shorter st)) with (entries_of st).
  cbn [searchQuery setSearchQuery].
  apply (sublist_filter_narrow (matches longer) (matches shorter)).
  intros e. now apply matches_narrow.
Qed.

Lemma longer_search_narrows_witness :
  sublist (filteredEntries (setSearchQuery "mail.ex" ScreenInputs.two_entries))
          (filteredEntries (setSearchQuery "ail" ScreenInputs.two_entries)).
Proof.
  apply (longer_search_narrows ScreenInputs.two_entries "ail" "mail.ex").
  reflexivity.
Defined.





End SearchProps.

(** ** Properties of the API client *)

Module ApiProps.
Import JS JSText Api ApiNotions.
Local Open Scope string_scope.

Lemma getAuthHeader_no_token (ls : gmap string string) :
  truthy (ls !! "session_token") = false ->
  getAuthHeader ls = (inl "No session token found", ls).
Proof.
  intros Htoken. unfold getAuthHeader, bind, getItem.
  destruct (ls !! "session_token") as [t|]; [| reflexivity].
  cbn [truthy] in Htoken. apply negb_false_iff in Htoken. now rewrite Htoken.
Qed.

Lemma getAuthHeader_token (ls : gmap string string) (t : string) :
  ls !! "session_token" = Some t -> is_empty t = false ->
  getAuthHeader ls
  = (inr (<["Authorization" := "Bearer " ++ t]> json_headers), ls).
Proof.
  intros Htoken Ht. unfold getAuthHeader, bind, getItem. now rewrite Htoken, Ht.
Qed.

(** Without a session token (none stored, or the empty string) the three
    calls that need one fail with "No session token found", leave the
    storage as it is and send nothing: the answer of the server plays no
    part. *)
Theorem no_token_no_request
    (fetch : Request -> FetchResult) (blob old new : string) (ls : gmap string string) :
  truthy (ls !! "session_token") = false ->
  getVault fetch ls = (inl "No session token found", ls)
  /\ updateVault fetch blob ls = (inl "No session token found", ls)
  /\ changePassword fetch old new ls = (inl "No session token found", ls).
Proof.
  intros Htoken. unfold getVault, updateVault, changePassword, bind.
  now rewrite getAuthHeader_no_token.
Qed.

Lemma no_token_no_request_witness :
  getVault (fun _ => inl "unreachable") (<["theme" := "dark"]> ∅)
    = (inl "No session token found", <["theme" := "dark"]> ∅)
  /\ updateVault (fun _ => inl "unreachable") "blob" (<["theme" := "dark"]> ∅)
     = (inl "No session token found", <["theme" := "dark"]> ∅)
  /\ changePassword (fun _ => inl "unreachable") "old" "new" (<["theme" := "dark"]> ∅)
     = (inl "No session token found", <["theme" := "dark"]> ∅).
Proof.
  apply (no_token_no_request (fun _ => inl "unreachable") "blob" "old" "new"
           (<["theme" := "dark"]> ∅)).
  reflexivity.
Defined.

(** [isAuthenticated()] is true exactly when [getAuthHeader()] succeeds,
    and the header then carries the stored token. *)
Theorem isAuthenticated_iff_auth_header (ls : gmap string string) :
  (fst (isAuthenticated ls) = inr true
   <-> exists t, ls !! "session_token" = Some t
                 /\ fst (getAuthHeader ls)
                    = inr (<["Authorization" := "Bearer " ++ t]> json_headers))
  /\ (fst (isAuthenticated ls) = inr false
      <-> fst (getAuthHeader ls) = inl "No session token found").
Proof.
  unfold isAuthenticated, bind, getItem, ret. cbn [fst].
  destruct (ls !! "session_token") as [t|] eqn:Htoken.
  - destruct (is_empty t) eqn:Ht.
    + rewrite getAuthHeader_no_token by (rewrite Htoken; cbn [truthy]; now rewrite Ht).
      cbn [truthy fst]. rewrite Ht. split; split; try discriminate; try reflexivity.
      intros (t' & Ht' & H). discriminate.
    + rewrite (getAuthHeader_token ls t Htoken Ht).
      cbn [truthy fst]. rewrite Ht. split; split; try discriminate; try reflexivity.
      intros _. now exists t.
  - rewrite getAuthHeader_no_token by now rewrite Htoken.
    cbn [truthy fst]. split; split; try discriminate; try reflexivity.
    intros (t' & Ht' & H). discriminate.
Qed.

Lemma handleResponse_401 (r : Response) (ls : gmap string string) :
  status r = 401%N -> handleResponse r ls = unauthorized_outcome r ls.
Proof.
  intros Hstatus. unfold handleResponse, ok, unauthorized_outcome, bind, await_text.
  rewrite Hstatus. now destruct (text r).
Qed.

(** A response with status 401, to whichever call, ends the session when
    its body can be read: the token is removed and the session reported
    as expired, also for the 401 that answers a login with wrong
    credentials, whether a token was stored or not.  When reading the
    body fails the token stays. *)
Theorem unauthorized_response_ends_session
    (fetch : Request -> FetchResult) (r : Response)
    (username vault : option string) (email pw blob old new : string)
    (ls : gmap string string) :
  (forall request, fetch request = inr r) -> status r = 401%N ->
  login fetch email pw ls = unauthorized_outcome r ls
  /\ register fetch username email pw vault ls = unauthorized_outcome r ls
  /\ (truthy (ls !! "session_token") = true ->
      getVault fetch ls = unauthorized_outcome r ls
      /\ updateVault fetch blob ls = unauthorized_outcome r ls
      /\ changePassword fetch old new ls = unauthorized_outcome r ls)
  /\ (forall body_text, text r = inr body_text ->
      fst (isAuthenticated (snd (login fetch email pw ls))) = inr false)
  /\ (forall message, text r = inl message ->
      snd (login fetch email pw ls) = ls).
Proof.
  intros Hfetch Hstatus.
  assert (Hlogin : login fetch email pw ls = unauthorized_outcome r ls).
  { unfold login, bind, await_fetch. rewrite Hfetch. unfold ret.
    rewrite handleResponse_401 by exact Hstatus.
    unfold unauthorized_outcome. now destruct (text r). }
  split; [exact Hlogin |]. split; [| split; [| split]].
  - unfold register, bind, await_fetch. rewrite Hfetch. unfold ret.
    now apply handleResponse_401.
  - intros Htoken.
    destruct (ls !! "session_token") as [t|] eqn:Hls; [| discriminate].
    cbn [truthy] in Htoken. apply negb_true_iff in Htoken.
    unfold getVault, updateVault, changePassword, bind, await_fetch.
    rewrite (getAuthHeader_token ls t Hls Htoken), !Hfetch.
    unfold ret. rewrite !handleResponse_401 by exact Hstatus.
    unfold unauthorized_outcome. now destruct (text r).
  - intros body_text Htext. rewrite Hlogin. unfold unauthorized_outcome.
    rewrite Htext. unfold isAuthenticated, bind, getItem, ret. cbn [fst snd].
    now rewrite lookup_delete_eq.
  - intros message Htext. rewrite Hlogin. unfold unauthorized_outcome.
    now rewrite Htext.
Qed.

Lemma unauthorized_response_ends_session_witness :
  let ls : gmap string string := <["session_token" := "abc"]> ∅ in
  let fetch : Request -> FetchResult := fun _ => inr ApiInputs.unauthorized in
  login fetch "ada@example.org" "wrong" ls
    = unauthorized_outcome ApiInputs.unauthorized ls
  /\ register fetch None "ada@example.org" "wrong" None ls
     = unauthorized_outcome ApiInputs.unauthorized ls
  /\ (truthy (ls !! "session_token") = true ->
      getVault fetch ls = unauthorized_outcome ApiInputs.unauthorized ls
      /\ updateVault fetch "blob" ls = unauthorized_outcome ApiInputs.unauthorized ls
      /\ changePassword fetch "old" "new" ls
         = unauthorized_outcome ApiInputs.unauthorized ls)
  /\ (forall body_text, text ApiInputs.unauthorized = inr body_text ->
      fst (isAuthenticated (snd (login fetch "ada@example.org" "wrong" ls))) = inr false)
  /\ (forall message, text ApiInputs.unauthorized = inl message ->
      snd (login fetch "ada@example.org" "wrong" ls) = ls).
Proof.
  apply (unauthorized_response_ends_session (fun _ => inr ApiInputs.unauthorized)
           ApiInputs.unauthorized None None "ada@example.org" "wrong" "blob" "old" "new"
           (<["session_token" := "abc"]> ∅)).
  - reflexivity.
  - reflexivity.
Defined.

(** The two outcomes of a 401, on concrete answers: with a readable body
    the token is gone, with an unreadable one it is kept. *)
Lemma unauthorized_outcomes_example :
  getVault (fun _ => inr ApiInputs.unauthorized) (<["session_token" := "abc"]> ∅)
    = (inl "Session expired. Please login again.", ∅)
  /\ getVault (fun _ => inr ApiInputs.unauthorized_unreadable)
       (<["session_token" := "abc"]> ∅)
     = (inl "Failed to fetch", <["session_token" := "abc"]> ∅).
Proof.
  split.
  - unfold getVault, bind, await_fetch, ret.
    rewrite (getAuthHeader_token _ "abc") by (try apply lookup_insert_eq; reflexivity).
    rewrite handleResponse_401 by reflexivity.
    unfold unauthorized_outcome. cbn [text ApiInputs.unauthorized].
    now rewrite delete_insert_eq, delete_empty.
  - unfold getVault, bind, await_fetch, ret.
    rewrite (getAuthHeader_token _ "abc") by (try apply lookup_insert_eq; reflexivity).
    now rewrite handleResponse_401 by reflexivity.
Qed.

Lemma handleResponse_storage (r : Response) (ls : gmap string string) :
  snd (handleResponse r ls) = ls
  \/ (fst (handleResponse r ls) = inl "Session expired. Please login again."
      /\ snd (handleResponse r ls) = delete "session_token" ls).
Proof.
  unfold handleResponse, bind, await_text.
  destruct (negb (ok r)).
  - destruct (text r) as [message|body_text]; [now left |]. unfold ret.
    destruct (status r =? 401)%N; [right; now split | now left].
  - destruct (negb (truthy (content_type r))
              || negb (includes_str (or_default (content_type r)) "application/json"));
      [now left |].
    destruct (json r); now left.
Qed.

Lemma login_cases (fetch : Request -> FetchResult) (email pw : string)
    (ls : gmap string string) :
  login fetch email pw ls
  = match fetch (login_request email pw) with
    | inl rejected => (inl rejected, ls)
    | inr r =>
        match handleResponse r ls with
        | (inl message, ls') => (inl message, ls')
        | (inr result, ls') =>
            (inr result,
             <["session_token" := to_storage_string (result !! "session_token")]> ls')
        end
    end.
Proof.
  unfold login, bind, await_fetch, login_request.
  destruct (fetch _) as [rejected|r]; [reflexivity |]. unfold ret at 1.
  now destruct (handleResponse r ls) as [[m|result] ls'].
Qed.

(** A login that fails grants no session: afterwards the client counts as
    authenticated only if it did before. *)
Theorem failed_login_grants_no_session
    (fetch : Request -> FetchResult) (email pw message : string) (ls : gmap string string) :
  fst (login fetch email pw ls) = inl message ->
  fst (isAuthenticated (snd (login fetch email pw ls))) = inr true ->
  fst (isAuthenticated ls) = inr true.
Proof.
  rewrite login_cases.
  destruct (fetch _) as [rejected|r]; [cbn [fst snd]; tauto |].
  pose proof (handleResponse_storage r ls) as Hstorage.
  destruct (handleResponse r ls) as [[m|result] ls']; [| discriminate].
  cbn [fst snd] in *. intros _. destruct Hstorage as [->|[_ ->]]; [tauto |].
  unfold isAuthenticated, bind, getItem, ret. cbn [fst].
  rewrite lookup_delete_eq. discriminate.
Qed.

Lemma failed_login_grants_no_session_witness :
  fst (isAuthenticated (<["session_token" := "abc"]> ∅)) = inr true.
Proof.
  apply (failed_login_grants_no_session (fun _ => inr ApiInputs.server_down)
           "ada@example.org" "pw" "API error 500: Internal Server Error"
           (<["session_token" := "abc"]> ∅)).
  - reflexivity.
  - reflexivity.
Defined.

(** A successful answer to the login that carries no [session_token]
    (no JSON content type, or an object without the field) still stores a
    token, the text "undefined", and the client then counts as
    authenticated. *)
Theorem login_without_token_stores_undefined
    (fetch : Request -> FetchResult) (r : Response) (result : gmap string jsval)
    (email pw : string) (ls : gmap string string) :
  (forall request, fetch request = inr r) ->
  fst (handleResponse r ls) = inr result -> result !! "session_token" = None ->
  login fetch email pw ls = (inr result, <["session_token" := "undefined"]> ls)
  /\ fst (isAuthenticated (snd (login fetch email pw ls))) = inr true.
Proof.
  intros Hfetch Hr Hfield.
  assert (Hlogin : login fetch email pw ls
                   = (inr result, <["session_token" := "undefined"]> ls)).
  { rewrite login_cases, Hfetch.
    destruct (handleResponse_storage r ls) as [Hls|[Hexp _]]; [| congruence].
    destruct (handleResponse r ls) as [[m|result'] ls']; cbn [fst snd] in *;
      [discriminate |].
    injection Hr as ->. subst ls'. now rewrite Hfield. }
  split; [exact Hlogin |]. rewrite Hlogin.
  unfold isAuthenticated, bind, getItem, ret. cbn [fst snd].
  now rewrite lookup_insert_eq.
Qed.

Lemma login_without_token_stores_undefined_witness :
  login (fun _ => inr ApiInputs.created_no_body) "ada@example.org" "pw" ∅
    = (inr ∅, <["session_token" := "undefined"]> ∅)
  /\ fst (isAuthenticated
            (snd (login (fun _ => inr ApiInputs.created_no_body) "ada@example.org" "pw" ∅)))
     = inr true.
Proof.
  apply (login_without_token_stores_undefined (fun _ => inr ApiInputs.created_no_body)
           ApiInputs.created_no_body ∅ "ada@example.org" "pw" ∅).
  - reflexivity.
  - reflexivity.
  - reflexivity.
Defined.

(** The token a login returns is the one the next call sends: after a
    login answered with a token that is not empty, [getVault] sends its
    request with the header "Authorization: Bearer <token>". *)
Theorem login_token_is_sent_as_bearer
    (fetch fetch' : Request -> FetchResult) (email pw t : string)
    (result : gmap string jsval) (ls ls' : gmap string string) :
  login fetch email pw ls = (inr result, ls') ->
  result !! "session_token" = Some (JString t) -> is_empty t = false ->
  getVault fetch' ls'
  = (do response <- await_fetch
          (fetch' {| url := API_BASE_URL ++ "/vault"; method := "GET";
                     headers := <["Authorization" := "Bearer " ++ t]> json_headers;
                     body := None |});
     handleResponse response) ls'.
Proof.
  intros Hlogin Hfield Ht.
  assert (Htoken : ls' !! "session_token" = Some t).
  { revert Hlogin. rewrite login_cases.
    destruct (fetch _) as [rejected|r]; [discriminate |].
    destruct (handleResponse r ls) as [[m|result'] ls1]; [discriminate |].
    intros H. injection H as <- <-.
    rewrite Hfield. cbn [to_storage_string]. apply lookup_insert_eq. }
  unfold getVault, bind at 1. now rewrite (getAuthHeader_token ls' t Htoken Ht).
Qed.

Lemma login_token_is_sent_as_bearer_witness :
  getVault (fun _ => inr ApiInputs.server_down)
    (snd (login ApiInputs.friendly "ada@example.org" "pw" ∅))
  = (do response <- await_fetch
          ((fun _ => inr ApiInputs.server_down)
             {| url := API_BASE_URL ++ "/vault"; method := "GET";
                headers := <["Authorization" := "Bearer tok-1"]> json_headers;
                body := None |});
     handleResponse response) (snd (login ApiInputs.friendly "ada@example.org" "pw" ∅)).
Proof.
  apply (login_token_is_sent_as_bearer ApiInputs.friendly (fun _ => inr ApiInputs.server_down)
           "ada@example.org" "pw" "tok-1"
           (<["session_token" := JString "tok-1"]>
              (<["expires_at" := JString "2030-01-01"]> ∅))
           ∅ (snd (login ApiInputs.friendly "ada@example.org" "pw" ∅))).
  - vm_compute. reflexivity.
  - reflexivity.
  - reflexivity.
Defined.

End ApiProps.

(** ** Properties of the registration and settings forms *)

Module AccountProps.
Import JS JSFacts JSText Api Account AccountNotions.
Local Open Scope string_scope.

(** The three ratings, in increasing order. *)
Lemma rating_cases (pwd : string) :
  strength (getPasswordStrength pwd) = "Weak"
  \/ strength (getPasswordStrength pwd) = "Medium"
  \/ strength (getPasswordStrength pwd) = "Strong".
Proof.
  unfold getPasswordStrength.
  destruct (String.length pwd <? 8)%nat; [now left |].
  destruct (String.length pwd <? 12)%nat; [right; now left |].
  destruct ((16 <=? String.length pwd)%nat && test is_upper pwd && test is_digit pwd
            && test is_not_alnum pwd); [right; now right | right; now left].
Qed.

Lemma weak_iff (pwd : string) :
  strength (getPasswordStrength pwd) = "Weak" <-> (String.length pwd < 8)%nat.
Proof.
  unfold getPasswordStrength.
  destruct (Nat.ltb_spec (String.length pwd) 8); [tauto |].
  destruct (String.length pwd <? 12)%nat; [split; [discriminate | lia] |].
  destruct ((16 <=? String.length pwd)%nat && test is_upper pwd && test is_digit pwd
            && test is_not_alnum pwd); split; try discriminate; lia.
Qed.

Lemma strong_iff (pwd : string) :
  strength (getPasswordStrength pwd) = "Strong"
  <-> (16 <= String.length pwd)%nat /\ test is_upper pwd = true
      /\ test is_digit pwd = true /\ test is_not_alnum pwd = true.
Proof.
  unfold getPasswordStrength.
  destruct (Nat.ltb_spec (String.length pwd) 8); [split; [discriminate | lia] |].
  destruct (Nat.ltb_spec (String.length pwd) 12); [split; [discriminate | lia] |].
  destruct (Nat.leb_spec 16 (String.length pwd));
    destruct (test is_upper pwd), (test is_digit pwd), (test is_not_alnum pwd);
    cbn; split; try discriminate; try tauto; try lia; intros (? & ? & ? & ?);
    try discriminate; lia.
Qed.

Lemma test_append (class : ascii -> bool) (a b : string) :
  test class a = true -> test class (a ++ b) = true.
Proof.
  unfold test. rewrite split_append, existsb_app. intros ->. reflexivity.
Qed.

(** Typing further characters never lowers the rating of a password, in
    the order Weak, Medium, Strong. *)
Theorem longer_password_is_not_rated_lower (pwd more : string) :
  (rank (getPasswordStrength pwd) <= rank (getPasswordStrength (pwd ++ more)))%nat.
Proof.
  assert (Hrank : forall p,
             (strength (getPasswordStrength p) = "Weak" /\ rank (getPasswordStrength p) = 0%nat)
             \/ (strength (getPasswordStrength p) = "Medium"
                 /\ rank (getPasswordStrength p) = 1%nat)
             \/ (strength (getPasswordStrength p) = "Strong"
                 /\ rank (getPasswordStrength p) = 2%nat)).
  { intros p. unfold rank.
    destruct (rating_cases p) as [H|[H|H]]; rewrite H; cbn; tauto. }
  destruct (Hrank pwd) as [[H R]|[[H R]|[H R]]];
    destruct (Hrank (pwd ++ more)) as [[H' R']|[[H' R']|[H' R']]];
    rewrite R, R'; try lia; exfalso.
  - apply weak_iff in H'. rewrite length_append in H'.
    assert (Hnot : ~ (String.length pwd < 8)%nat).
    { intros Hw. apply weak_iff in Hw. congruence. }
    lia.
  - apply weak_iff in H'. rewrite length_append in H'.
    apply strong_iff in H. lia.
  - apply strong_iff in H as (Hlen & Hu & Hd & Hs).
    assert (Hstrong : strength (getPasswordStrength (pwd ++ more)) = "Strong").
    { apply strong_iff. rewrite length_append.
      repeat split; try now apply test_append. lia. }
    congruence.
Qed.

(** A password of 8 to 15 characters is rated Medium whatever it is made
    of. *)
Theorem medium_band_ignores_composition (pwd : string) :
  (8 <= String.length pwd < 16)%nat -> strength (getPasswordStrength pwd) = "Medium".
Proof.
  intros Hlen. destruct (rating_cases pwd) as [H|[H|H]]; [| exact H |].
  - apply weak_iff in H. lia.
  - apply strong_iff in H. lia.
Qed.

Lemma medium_band_ignores_composition_witness :
  strength (getPasswordStrength "Tr0ub4dor&3-xyZ") = "Medium".
Proof.
  apply (medium_band_ignores_composition "Tr0ub4dor&3-xyZ"). simpl. lia.
Defined.

(** The registration form turns down exactly the forms whose passwords
    differ or whose password is rated Weak: it shows its message without
    encrypting anything, sending anything or touching the storage. *)
Theorem registration_rejects_mismatch_and_weak
    (encryptVault : Codec.Vault -> string -> string + string)
    (fetch : Request -> FetchResult) (f : RegisterForm) (ls : gmap string string) :
  password f <> confirmPassword f
  \/ strength (getPasswordStrength (password f)) = "Weak" ->
  handleSubmit encryptVault fetch f ls
  = (with_error (if String.eqb (password f) (confirmPassword f)
                 then "Password must be at least 8 characters long"
                 else "Passwords do not match") (with_error "" f),
     false, ls).
Proof.
  intros Hbad. unfold handleSubmit. cbn [password confirmPassword with_error].
  destruct (String.eqb_spec (password f) (confirmPassword f)) as [Heq|Hne];
    [| reflexivity].
  destruct Hbad as [Hne|Hweak]; [contradiction |].
  apply weak_iff in Hweak. cbn [negb].
  destruct (Nat.ltb_spec (String.length (password f)) 8); [reflexivity | lia].
Qed.


Lemma registration_rejects_mismatch_and_weak_witness :
  handleSubmit ScreenInputs.sealing ApiInputs.friendly ScreenInputs.short_form ∅
  = (with_error "Password must be at least 8 characters long"
       (with_error "" ScreenInputs.short_form), false, ∅).
Proof.
  apply (registration_rejects_mismatch_and_weak ScreenInputs.sealing ApiInputs.friendly
           ScreenInputs.short_form ∅).
  right. reflexivity.
Defined.

Lemma register_cases (fetch : Request -> FetchResult) (username : option string)
    (email pw : string) (blob : option string) (ls : gmap string string) :
  register fetch username email pw blob ls
  = match fetch {| url := API_BASE_URL ++ "/auth/register"; method := "POST";
                   headers := json_headers;
                   body := Some (RegisterRequest username email pw blob) |} with
    | inl rejected => (inl rejected, ls)
    | inr r => handleResponse r ls
    end.
Proof.
  unfold register, bind, await_fetch.
  destruct (fetch _) as [rejected|r]; [reflexivity |]. unfold ret.
  now destruct (handleResponse r ls) as [[m|result] ls'].
Qed.

(** [handleSubmit], case by case. *)
Lemma handleSubmit_cases
    (encryptVault : Codec.Vault -> string -> string + string)
    (fetch : Request -> FetchResult) (f : RegisterForm) (ls : gmap string string) :
  password f = confirmPassword f -> (8 <= String.length (password f))%nat ->
  handleSubmit encryptVault fetch f ls
  = match encryptVault Codec.createEmptyVault (password f) with
    | inl message => (shown f message, false, ls)
    | inr blob =>
        match register fetch None (email f) (password f) (Some blob) ls with
        | (inl message, ls1) => (shown f message, false, ls1)
        | (inr _, ls1) =>
            match login fetch (email f) (password f) ls1 with
            | (inl message, ls2) => (shown f message, false, ls2)
            | (inr _, ls2) => (shown f "", true, ls2)
            end
        end
    end.
Proof.
  intros Heq Hlen. unfold handleSubmit.
  cbn [password confirmPassword with_error with_loading email].
  rewrite <- Heq, String.eqb_refl. cbn [negb].
  destruct (Nat.ltb_spec (String.length (password f)) 8) as [Hshort|_]; [lia |].
  destruct (encryptVault Codec.createEmptyVault (password f)) as [m|blob];
    [reflexivity |].
  unfold bind.
  destruct (register fetch None (email f) (password f) (Some blob) ls)
    as [[m|registered] ls1]; [reflexivity |].
  now destruct (login fetch (email f) (password f) ls1) as [[m|result] ls2].
Qed.

Lemma handleSubmit_success_valid
    (encryptVault : Codec.Vault -> string -> string + string)
    (fetch : Request -> FetchResult) (f : RegisterForm) (ls : gmap string string) :
  snd (fst (handleSubmit encryptVault fetch f ls)) = true ->
  password f = confirmPassword f /\ (8 <= String.length (password f))%nat.
Proof.
  unfold handleSubmit. cbn [password confirmPassword with_error with_loading].
  destruct (String.eqb_spec (password f) (confirmPassword f)) as [Heq|Hne];
    [| discriminate].
  cbn [negb].
  destruct (Nat.ltb_spec (String.length (password f)) 8) as [Hshort|Hlong];
    [discriminate | tauto].
Qed.

(** A registration that is reported as successful has sent a form whose
    passwords agree and are not rated Weak, shows no error, and leaves a
    session token in the storage. *)
Theorem successful_registration_leaves_token
    (encryptVault : Codec.Vault -> string -> string + string)
    (fetch : Request -> FetchResult) (f : RegisterForm) (ls : gmap string string) :
  snd (fst (handleSubmit encryptVault fetch f ls)) = true ->
  password f = confirmPassword f
  /\ strength (getPasswordStrength (password f)) <> "Weak"
  /\ error (fst (fst (handleSubmit encryptVault fetch f ls))) = ""
  /\ is_Some (snd (handleSubmit encryptVault fetch f ls) !! "session_token").
Proof.
  intros Hok.
  destruct (handleSubmit_success_valid encryptVault fetch f ls Hok) as [Heq Hlen].
  revert Hok. rewrite (handleSubmit_cases encryptVault fetch f ls Heq Hlen).
  destruct (encryptVault Codec.createEmptyVault (password f)) as [m|blob];
    [discriminate |].
  destruct (register fetch None (email f) (password f) (Some blob) ls)
    as [[m|registered] ls1]; [discriminate |].
  rewrite ApiProps.login_cases.
  destruct (fetch _) as [rejected|r]; [discriminate |].
  destruct (handleResponse r ls1) as [[m|result] ls2]; [discriminate |].
  cbn [fst snd shown error]. intros _. split; [exact Heq |]. split.
  - rewrite weak_iff. lia.
  - split; [reflexivity |]. rewrite lookup_insert_eq. eauto.
Qed.

Lemma successful_registration_leaves_token_witness :
  password ScreenInputs.ada_form = confirmPassword ScreenInputs.ada_form
  /\ strength (getPasswordStrength (password ScreenInputs.ada_form)) <> "Weak"
  /\ error (fst (fst (handleSubmit ScreenInputs.sealing ApiInputs.friendly
                        ScreenInputs.ada_form ∅))) = ""
  /\ is_Some (snd (handleSubmit ScreenInputs.sealing ApiInputs.friendly
                     ScreenInputs.ada_form ∅) !! "session_token").
Proof.
  apply (successful_registration_leaves_token ScreenInputs.sealing ApiInputs.friendly
           ScreenInputs.ada_form ∅).
  vm_compute. reflexivity.
Defined.

(** When the registration request fails, its error is what the form shows
    and no login follows: the answer the server would give to a login
    plays no part. *)
Theorem failed_registration_attempts_no_login
    (encryptVault : Codec.Vault -> string -> string + string)
    (fetch : Request -> FetchResult) (f : RegisterForm) (ls ls' : gmap string string)
    (blob message : string) :
  password f = confirmPassword f -> (8 <= String.length (password f))%nat ->
  encryptVault Codec.createEmptyVault (password f) = inr blob ->
  register fetch None (email f) (password f) (Some blob) ls = (inl message, ls') ->
  handleSubmit encryptVault fetch f ls
  = ({| email := email f; password := password f; confirmPassword := confirmPassword f;
        loading := false; error := message |}, false, ls').
Proof.
  intros Heq Hlen Hblob Hreg.
  now rewrite (handleSubmit_cases encryptVault fetch f ls Heq Hlen), Hblob, Hreg.
Qed.

Lemma failed_registration_attempts_no_login_witness :
  handleSubmit ScreenInputs.sealing ApiInputs.no_registration ScreenInputs.ada_form ∅
  = ({| email := "ada@example.org"; password := "correct horse";
        confirmPassword := "correct horse"; loading := false;
        error := "API error 500: Internal Server Error" |}, false, ∅).
Proof.
  apply (failed_registration_attempts_no_login ScreenInputs.sealing
           ApiInputs.no_registration ScreenInputs.ada_form ∅ ∅
           (Codec.encryptVault Codec.toy (fun _ => "s"%char) Codec.createEmptyVault
              "correct horse")
           "API error 500: Internal Server Error").
  - reflexivity.
  - simpl. lia.
  - reflexivity.
  - vm_compute. reflexivity.
Defined.

End AccountProps.

(** ** Properties of the routes and of the flows across components *)

Module FlowProps.
Import JS JSText Api VaultScreen ScreenNotions App.
Local Open Scope string_scope.


(** A reload of the settings with a token stored: the first render leads
    to the login, the second one from there to the vault. *)
Lemma reload_of_settings_shows_vault :
  settle 1 false path_settings = Some (path_login, Render Login)
  /\ load 1 (<["session_token" := "abc"]> ∅) path_settings
     = Some ({| isAuthenticated_state := true; location := path_vault |}, Render Vault).
Proof. split; reflexivity. Qed.

(** When the server answers the loading of the vault with status 401 and
    the body of the answer can be read, the client drops the token, the
    vault screen shows the expiry message and asks for the logout, and the
    logout of the application ends on the landing page with no token
    stored, also after a reload.  (When the body cannot be read the token
    stays and no logout is asked for, unless the failure of the read
    itself speaks of an expired session.) *)
Theorem expired_session_returns_to_landing
    (fetch : Request -> FetchResult) (r : Response) (t body_text : string)
    (ls : gmap string string) (st : Screen) (app : AppState) :
  (forall request, fetch request = inr r) -> status r = 401%N ->
  text r = inr body_text ->
  ls !! "session_token" = Some t -> is_empty t = false ->
  let answer := getVault fetch ls in
  let loaded := loadVault (vault_answer (fst answer)) st in
  let out := handleLogout app (snd answer) in
  snd loaded = true
  /\ error (fst loaded) = "Session expired. Please login again."
  /\ unlocked (fst loaded) = unlocked st
  /\ snd out !! "session_token" = None
  /\ settle 1 (isAuthenticated_state (fst out)) (location (fst out))
     = Some (path_root, Render Landing)
  /\ load 1 (snd out) (location (fst out))
     = Some ({| isAuthenticated_state := false; location := path_root |}, Render Landing).
Proof.
  intros Hfetch Hstatus Htext Htoken Ht answer loaded out.
  assert (Hanswer : answer = (inl "Session expired. Please login again.",
                              delete "session_token" ls)).
  { unfold answer, getVault, bind, await_fetch.
    rewrite (ApiProps.getAuthHeader_token ls t Htoken Ht), Hfetch. unfold ret.
    rewrite ApiProps.handleResponse_401 by exact Hstatus.
    unfold ApiNotions.unauthorized_outcome. now rewrite Htext. }
  unfold loaded, out. rewrite Hanswer. cbn [fst snd vault_answer].
  assert (Hgone : snd (logout (delete "session_token" ls)) !! "session_token" = None).
  { unfold logout, removeItem. cbn [snd]. now rewrite lookup_delete_eq. }
  repeat split.
  - exact Hgone.
  - unfold handleLogout. cbn [fst snd location].
    unfold load, on_mount, Api.isAuthenticated, bind, getItem, ret.
    cbn [settle route fst isAuthenticated_state location].
    now rewrite Hgone.
Qed.

Lemma expired_session_returns_to_landing_witness :
  let ls : gmap string string := <["session_token" := "abc"]> ∅ in
  let answer := getVault (fun _ => inr ApiInputs.unauthorized) ls in
  let loaded := loadVault (vault_answer (fst answer)) initial in
  let out := handleLogout {| isAuthenticated_state := true; location := path_vault |}
               (snd answer) in
  snd loaded = true
  /\ error (fst loaded) = "Session expired. Please login again."
  /\ unlocked (fst loaded) = unlocked initial
  /\ snd out !! "session_token" = None
  /\ settle 1 (isAuthenticated_state (fst out)) (location (fst out))
     = Some (path_root, Render Landing)
  /\ load 1 (snd out) (location (fst out))
     = Some ({| isAuthenticated_state := false; location := path_root |}, Render Landing).
Proof.
  apply (expired_session_returns_to_landing (fun _ => inr ApiInputs.unauthorized)
           ApiInputs.unauthorized "abc" "invalid credentials"
           (<["session_token" := "abc"]> ∅) initial
           {| isAuthenticated_state := true; location := path_vault |}).
  - reflexivity.
  - reflexivity.
  - reflexivity.
  - apply lookup_insert_eq.
  - reflexivity.
Defined.

(** With a body that cannot be read, the 401 leaves the token where it
    is, and the vault screen shows the failure of the read without asking
    for the logout. *)
Lemma unreadable_unauthorized_keeps_session :
  let ls : gmap string string := <["session_token" := "abc"]> ∅ in
  let answer := getVault (fun _ => inr ApiInputs.unauthorized_unreadable) ls in
  let loaded := loadVault (vault_answer (fst answer)) initial in
  snd answer = ls
  /\ snd loaded = false
  /\ error (fst loaded) = "Failed to fetch".
Proof.
  cbn zeta.
  assert (Hanswer : getVault (fun _ => inr ApiInputs.unauthorized_unreadable)
                      (<["session_token" := "abc"]> ∅)
                    = (inl "Failed to fetch", <["session_token" := "abc"]> ∅)).
  { apply ApiProps.unauthorized_outcomes_example. }
  rewrite Hanswer. repeat split.
Qed.

(** The password taken over from the generator dialog is the password of
    the entry that is saved next: "Use Password" hands over the text
    shown, never an empty one, and the entry saved holds it as a present
    field.  (When an entry is being edited, it has to be one of the
    vault.) *)
Theorem generated_password_reaches_saved_entry
    (d : GeneratorDialog.Dialog) (pw now : string) (st : Screen) (v : Codec.Vault) :
  GeneratorDialog.handleUsePassword d = Some pw ->
  vault st = Some v -> masterPassword st <> EmptyString ->
  form_name (entryForm st) <> EmptyString ->
  (viewMode st = edit ->
   exists sel, selectedEntry st = Some sel /\ Codec.id sel ∈ ids_of st) ->
  pw = GeneratorDialog.password d
  /\ exists e,
       e ∈ entries_of (handleSaveEntry now (inr tt) (handlePasswordGenerated pw st))
       /\ Codec.password e = Some pw
       /\ Codec.name e = form_name (entryForm st).
Proof.
  intros Huse Hv Hpw Hname Hedit.
  unfold GeneratorDialog.handleUsePassword in Huse.
  destruct (is_empty (GeneratorDialog.password d)) eqn:Hempty; [discriminate |].
  injection Huse as <-. split; [reflexivity |].
  set (pw := GeneratorDialog.password d) in *.
  set (st1 := handlePasswordGenerated pw st).
  exists (newEntry now st1).
  rewrite VaultScreenProps.entries_handleSaveEntry.
  change (vault st1) with (vault st). rewrite Hv.
  change (masterPassword st1) with (masterPassword st).
  change (form_name (entryForm st1)) with (form_name (entryForm st)).
  apply VaultScreenProps.is_empty_false in Hpw.
  apply VaultScreenProps.is_empty_false in Hname.
  rewrite Hpw, Hname. cbn [orb]. split; [| split].
  - assert (Happ : newEntry now st1 ∈ (Codec.entries v ++ [newEntry now st1])%list).
    { apply elem_of_app. right. now apply list_elem_of_singleton. }
    unfold updatedEntries. change (viewMode st1) with (viewMode st).
    change (selectedEntry st1) with (selectedEntry st).
    destruct (viewMode st) eqn:Hmode; try exact Happ.
    destruct (Hedit eq_refl) as (sel & Hsel & Hin). rewrite Hsel.
    unfold ids_of, entries_of in Hin. rewrite Hv in Hin.
    apply list_elem_of_fmap in Hin as (x & Hx & Hxin).
    apply list_elem_of_fmap. exists x. split; [| exact Hxin].
    now rewrite <- Hx, String.eqb_refl.
  - unfold newEntry, st1. cbn. unfold or_undefined. now rewrite Hempty.
  - reflexivity.
Qed.

Lemma generated_password_reaches_saved_entry_witness :
  "aaaaaaaa+aaaaaaa"%string
  = GeneratorDialog.password (GeneratorDialog.show "aaaaaaaa+aaaaaaa" GeneratorDialog.initial)
  /\ exists e,
       e ∈ entries_of (handleSaveEntry "1700000000002" (inr tt)
                         (handlePasswordGenerated "aaaaaaaa+aaaaaaa"
                            ScreenInputs.adding_shop))
       /\ Codec.password e = Some "aaaaaaaa+aaaaaaa"%string
       /\ Codec.name e = form_name (entryForm ScreenInputs.adding_shop).
Proof.
  apply (generated_password_reaches_saved_entry
           (GeneratorDialog.show "aaaaaaaa+aaaaaaa" GeneratorDialog.initial)
           "aaaaaaaa+aaaaaaa" "1700000000002" ScreenInputs.adding_shop
           {| Codec.entries := [ScreenInputs.mail_entry; ScreenInputs.bank_entry] |}).
  - reflexivity.
  - reflexivity.
  - discriminate.
  - discriminate.
  - discriminate.
Defined.

End FlowProps.

(** ** Properties of the reveal order *)

Module RevealProps.
Import Reveal.

(** What the loop of the [center] case maintains: the indices pushed so
    far are those strictly between [left] and [right]. *)
Lemma center_loop_permutation (length : Z) (fuel : nat) :
  forall (left right : Z) (result : list Z),
    (-1 <= left)%Z -> (left < right)%Z -> (right <= length)%Z ->
    result ≡ₚ seqZ (left + 1) (right - left - 1) ->
    ((left + 1) + (length - right) <= Z.of_nat fuel)%Z ->
    exists order, center_loop fuel length left right result = Some order
                  /\ order ≡ₚ seqZ 0 length.
Proof.
  induction fuel as [|fuel IH]; intros left right result Hl Hlr Hr Hperm Hfuel;
    cbn [center_loop].
  - destruct (Z.leb_spec 0 left); [lia |]. destruct (Z.ltb_spec right length); [lia |].
    cbn [orb]. exists result. split; [reflexivity |].
    replace left with (-1)%Z in Hperm by lia. replace right with length in Hperm by lia.
    now replace (length - -1 - 1)%Z with length in Hperm by lia.
  - destruct (Z.leb_spec 0 left) as [Hleft|Hleft];
      destruct (Z.ltb_spec right length) as [Hright|Hright]; cbn [orb].
    + apply IH; try lia.
      replace (left - 1 + 1)%Z with left by lia.
      replace (right + 1 - (left - 1) - 1)%Z with (right - left + 1)%Z by lia.
      assert (Hseq : seqZ left (right - left + 1)
                     = left :: (seqZ (left + 1) (right - left - 1) ++ [right])).
      { rewrite seqZ_cons by lia. f_equal.
        replace (Z.pred (right - left + 1)) with ((right - left - 1) + 1)%Z by lia.
        rewrite seqZ_app by lia. replace (Z.succ left) with (left + 1)%Z by lia.
        f_equal. replace (left + 1 + (right - left - 1))%Z with right by lia.
        reflexivity. }
      rewrite Hseq, Hperm.
      change (left :: (seqZ (left + 1) (right - left - 1) ++ [right]))
        with ((left :: seqZ (left + 1) (right - left - 1)) ++ [right]).
      apply Permutation_app_tail. symmetry. apply Permutation_cons_append.
    + apply IH; try lia.
      replace (left - 1 + 1)%Z with left by lia.
      replace (right - (left - 1) - 1)%Z with (right - left)%Z by lia.
      rewrite (seqZ_cons left) by lia.
      replace (Z.succ left) with (left + 1)%Z by lia.
      replace (Z.pred (right - left)) with (right - left - 1)%Z by lia.
      rewrite Hperm. symmetry. apply Permutation_cons_append.
    + apply IH; try lia.
      replace (right + 1 - left - 1)%Z with ((right - left - 1) + 1)%Z by lia.
      rewrite seqZ_app by lia.
      replace (left + 1 + (right - left - 1))%Z with right by lia.
      rewrite Hperm. reflexivity.
    + exists result. split; [reflexivity |].
      replace left with (-1)%Z in Hperm by lia. replace right with length in Hperm by lia.
      now replace (length - -1 - 1)%Z with length in Hperm by lia.
Qed.

Lemma indices_seqZ (length : nat) : indices length = seqZ 0 (Z.of_nat length).
Proof.
  unfold indices, seqZ. rewrite Nat2Z.id.
  induction (seq 0 length) as [|i l IH]; [reflexivity |].
  cbn. f_equal; [lia | exact IH].
Qed.

(** For a text that is not empty, each of the three directions yields an
    order in which every index of the text occurs exactly once; the loop
    of the [center] case ends within [length] iterations. *)
Theorem reveal_order_is_a_permutation (length : nat) (direction : Direction) :
  1 <= length ->
  exists order, getRevealOrder length length direction = Some order
                /\ order ≡ₚ indices length.
Proof.
  intros Hlen. destruct direction; cbn [getRevealOrder].
  - eexists. split; [reflexivity | reflexivity].
  - eexists. split; [reflexivity |]. symmetry. apply Permutation_rev.
  - rewrite indices_seqZ.
    assert (Hhalf : (0 <= Z.of_nat length / 2 < Z.of_nat length)%Z).
    { split; [apply Z.div_pos; lia | apply Z.div_lt_upper_bound; lia]. }
    apply center_loop_permutation; try lia.
    replace (Z.of_nat length / 2 + 1 - (Z.of_nat length / 2 - 1) - 1)%Z with 1%Z by lia.
    replace (Z.of_nat length / 2 - 1 + 1)%Z with (Z.of_nat length / 2)%Z by lia.
    reflexivity.
Qed.

Lemma reveal_order_is_a_permutation_witness :
  exists order, getRevealOrder 5 5 center = Some order /\ order ≡ₚ indices 5.
Proof. apply (reveal_order_is_a_permutation 5 center). lia. Defined.

(** For the empty text the [center] order is not empty: it holds the
    index 0, which the text does not have. *)
Lemma reveal_order_center_of_empty_text (fuel : nat) :
  getRevealOrder fuel 0 center = Some [0%Z]
  /\ getRevealOrder fuel 0 start = Some [] /\ getRevealOrder fuel 0 end_ = Some [].
Proof. repeat split. now destruct fuel. Qed.

End RevealProps.

(** ** Further properties of the generator *)

Module GeneratorMore.
Import JS NumberNotions JSFacts Generator Notions MoreNotions PasswordFacts PassphraseFacts Inputs.

Lemma charset_within_enabled (p : PasswordSettings) :
  ensureChars p <> [] ->
  forallb (fun c => existsb (fun set => includes set c) (ensureChars p))
          (split (build_charset p)) = true.
Proof.
  destruct p as [n [] [] [] [] []]; intros Hsome;
    try (now elim Hsome); vm_compute; reflexivity.
Qed.

Lemma ensure_step_within (rnd : nat -> sample) (sets : list string)
    (result set : string) (k : nat) :
  In set sets -> 0 < String.length set -> exact_length (String.length set) ->
  Forall (fun c => existsb (fun set => includes set c) sets = true) (split result) ->
  Forall (fun c => existsb (fun set => includes set c) sets = true)
         (split (fst (ensure_step rnd (result, k) set))).
Proof.
  intros Hin Hset Hset' Hres. unfold ensure_step.
  destruct (negb (has_char_of set result)); [| exact Hres]. cbn [fst].
  destruct (index_str_in_range set (random_index (rnd k) (String.length set)))
    as (c & Hc & Hlook).
  { now apply random_index_lt. }
  rewrite Hc, !split_append, split_substring, split_substring_from by lia.
  apply Forall_app. split; [now apply Forall_take |].
  apply Forall_app. split; [| now apply Forall_drop].
  constructor; [| constructor].
  apply existsb_exists. exists set. split; [exact Hin |].
  unfold includes. apply existsb_exists. exists c. split; [| apply Ascii.eqb_refl].
  apply list_elem_of_In. eapply list_elem_of_lookup_2. exact Hlook.
Qed.

Lemma ensure_fold_within (rnd : nat -> sample) (all sets : list string)
    (st : string * nat) :
  (forall set, In set sets -> In set all) ->
  Forall (fun set => 0 < String.length set) sets ->
  Forall (fun set => exact_length (String.length set)) sets ->
  Forall (fun c => existsb (fun set => includes set c) all = true) (split (fst st)) ->
  Forall (fun c => existsb (fun set => includes set c) all = true)
         (split (fst (fold_left (ensure_step rnd) sets st))).
Proof.
  revert st. induction sets as [|set sets IH]; intros [result k] Hsub Hne Hex Hres;
    cbn [fold_left]; [exact Hres |].
  inversion Hne as [|? ? Hset Hrest]; subst.
  inversion Hex as [|? ? Hset' Hrest']; subst.
  destruct (ensure_step rnd (result, k) set) as [result' k'] eqn:Hstep.
  apply IH; [intros s Hs; apply Hsub; now right | exact Hrest | exact Hrest' |].
  pose proof (ensure_step_within rnd all result set k) as Hw.
  rewrite Hstep in Hw.
  apply Hw; [apply Hsub; now left | exact Hset | exact Hset' | exact Hres].
Qed.

(** With at least one category enabled, every character of the password,
    drawn or injected, belongs to one of the enabled categories: nothing
    comes from a category that is switched off. *)
Theorem password_stays_within_enabled_categories
    (p : PasswordSettings) (src : RandomSources) :
  ensureChars p <> [] -> (N.of_nat (length p) <= 16384)%N ->
  exists s, generateRandomPassword p src = inr s
            /\ Forall (fun c => exists set, In set (ensureChars p) /\ includes set c = true)
                      (split s).
Proof.
  intros Hsome Hquota. unfold generateRandomPassword.
  rewrite getRandomValues_ok by exact Hquota.
  eexists. split; [reflexivity |].
  eapply Forall_impl.
  - apply (ensure_fold_within (Math_random src) (ensureChars p) (ensureChars p));
      [auto | apply ensureChars_nonempty | apply ensureChars_exact |].
    cbn [fst]. eapply Forall_impl; [apply draw_chars, build_charset_nonempty |].
    intros c Hc. pose proof (charset_within_enabled p Hsome) as Hall.
    rewrite forallb_forall in Hall. apply Hall. now apply list_elem_of_In.
  - intros c Hc. apply existsb_exists in Hc as (set & Hin & Hinc). eauto.
Qed.

Lemma password_stays_within_enabled_categories_witness :
  exists s, generateRandomPassword letters_unambiguous_8
              (constant_values 24 (replay [r_7_16; r_1_2])) = inr s
            /\ Forall (fun c => exists set, In set (ensureChars letters_unambiguous_8)
                                            /\ includes set c = true)
                      (split s).
Proof.
  apply (password_stays_within_enabled_categories letters_unambiguous_8
           (constant_values 24 (replay [r_7_16; r_1_2]))).
  - discriminate.
  - simpl. lia.
Defined.

(** The category checked last is always covered: for a length of at least
    1, the password holds a character of the last enabled category (the
    symbols, when they are enabled). *)
Theorem last_enabled_category_is_covered
    (p : PasswordSettings) (src : RandomSources) (sets : list string) (last : string) :
  1 <= length p -> (N.of_nat (length p) <= 16384)%N ->
  ensureChars p = sets ++ [last] ->
  exists s, generateRandomPassword p src = inr s /\ has_char_of last s = true.
Proof.
  intros Hpos Hquota Hsets. unfold generateRandomPassword.
  rewrite getRandomValues_ok by exact Hquota.
  eexists. split; [reflexivity |].
  pose proof (ensureChars_nonempty p) as Hne. pose proof (ensureChars_exact p) as Hex.
  rewrite Hsets in *.
  apply Forall_app in Hne as [Hne Hlast]. inversion Hlast as [|? ? Hlast' _]; subst.
  apply Forall_app in Hex as [Hex Hlastex]. inversion Hlastex as [|? ? Hlastex' _]; subst.
  rewrite fold_left_app. cbn [fold_left].
  set (result := draw (build_charset p) (fun i => (crypto_values src i mod 2 ^ 32)%N)
                   (length p)).
  pose proof (ensure_fold_length (Math_random src) sets (result, 0)) as Hlen.
  destruct (fold_left (ensure_step (Math_random src)) sets (result, 0)) as [mid k].
  cbn [fst] in Hlen.
  assert (Hresult : String.length result = length p).
  { apply draw_length, build_charset_nonempty. }
  apply GeneratorSpec.ensure_step_covers; [| exact Hlast' | exact Hlastex'].
  rewrite Hlen; [lia | lia | rewrite Hresult; now apply small_exact | exact Hne | exact Hex].
Qed.

Lemma last_enabled_category_is_covered_witness :
  exists s, generateRandomPassword all_categories_16
              (constant_values 26 (replay [r_3_4; r_1_2; r_1_4; r_1_2; r_7_16; r_1_2]))
            = inr s
            /\ has_char_of symbols s = true.
Proof.
  apply (last_enabled_category_is_covered all_categories_16
           (constant_values 26 (replay [r_3_4; r_1_2; r_1_4; r_1_2; r_7_16; r_1_2]))
           [uppercase; lowercase; numbers] symbols).
  - simpl. lia.
  - simpl. lia.
  - reflexivity.
Defined.

Lemma same_word_at_two_indices :
  forallb (fun a =>
     forallb (fun b =>
        (a =? b) || negb (String.eqb (word_at a) (word_at b)) || listed_twice (word_at a))
       (seq 0 (List.length WORD_LIST)))
    (seq 0 (List.length WORD_LIST)) = true.
Proof. vm_compute. reflexivity. Qed.

(** A passphrase repeats a word only if that word is "thunder" or
    "violet": any two selected words at different places are different,
    unless both are one of these two. *)
Theorem repeated_word_is_thunder_or_violet
    (fuel : nat) (rnd : nat -> sample) (wordCount : nat)
    (words : list string) (used : gset nat) (k i j : nat) (w : string) :
  select_loop fuel rnd wordCount [] ∅ 0 = Some (words, used, k) ->
  i <> j -> words !! i = Some w -> words !! j = Some w ->
  w = "thunder"%string \/ w = "violet"%string.
Proof.
  intros Hrun Hij Hi Hj.
  destruct (select_loop_sound rnd wordCount fuel [] [] ∅ 0 words used k
              selection_nil (Nat.le_0_l _) Hrun) as [[idxs (Hwords & Hnd & _ & Hlt)] _].
  subst words. rewrite list_lookup_fmap in Hi, Hj.
  destruct (idxs !! i) as [a|] eqn:Ha; [| discriminate].
  destruct (idxs !! j) as [b|] eqn:Hb; [| discriminate].
  cbn [fmap option_fmap option_map] in Hi, Hj. injection Hi as Hi. injection Hj as Hj.
  assert (Hab : a <> b).
  { intros ->. apply Hij. eapply NoDup_lookup; eauto. }
  rewrite Forall_forall in Hlt.
  assert (Hal : a < List.length WORD_LIST) by (apply Hlt; eapply list_elem_of_lookup_2; eauto).
  assert (Hbl : b < List.length WORD_LIST) by (apply Hlt; eapply list_elem_of_lookup_2; eauto).
  pose proof same_word_at_two_indices as Hall.
  rewrite forallb_forall in Hall. specialize (Hall a).
  rewrite forallb_forall in Hall. specialize (Hall ltac:(apply in_seq; lia) b ltac:(apply in_seq; lia)).
  rewrite Hi, Hj, String.eqb_refl in Hall.
  destruct (Nat.eqb_spec a b) as [|_]; [contradiction |].
  cbn [orb negb] in Hall. unfold listed_twice in Hall.
  apply orb_true_iff in Hall as [Hw|Hw]; apply String.eqb_eq in Hw; auto.
Qed.

Lemma repeated_word_is_thunder_or_violet_witness :
  "thunder"%string = "thunder"%string \/ "thunder"%string = "violet"%string.
Proof.
  apply (repeated_word_is_thunder_or_violet 8 (replay [r_11_128; r_23_32; r_1_2]) 3
           ["thunder"; "thunder"; "quantum"]%string {[56; 80; 9]} 3 0 1 "thunder").
  - vm_compute. reflexivity.
  - discriminate.
  - reflexivity.
  - reflexivity.
Defined.


Lemma single_category_charset (p : PasswordSettings) (set : string) :
  ensureChars p = [set] ->
  forallb (fun c => includes set c) (split (build_charset p)) = true.
Proof.
  destruct p as [n [] [] [] [] []]; intros Hone; try discriminate Hone;
    injection Hone as <-; vm_compute; reflexivity.
Qed.

(** With exactly one category enabled and a length of at least 1, no
    injection takes place: the password is the draw, and it is the same
    whatever [Math.random()] returns. *)
Theorem single_category_password_ignores_Math_random
    (p : PasswordSettings) (set : string) (values : nat -> N) (rnd rnd' : nat -> sample) :
  ensureChars p = [set] -> 1 <= length p ->
  generateRandomPassword p {| crypto_values := values; Math_random := rnd |}
  = generateRandomPassword p {| crypto_values := values; Math_random := rnd' |}.
Proof.
  intros Hone Hpos. unfold generateRandomPassword, getRandomValues.
  cbn [crypto_values Math_random].
  destruct (65536 <? 4 * N.of_nat (length p))%N; [reflexivity |].
  set (result := draw (build_charset p) (fun i => (values i mod 2 ^ 32)%N) (length p)).
  assert (Hcov : Forall (fun set => has_char_of set result = true) (ensureChars p)).
  { rewrite Hone. constructor; [| constructor].
    pose proof (draw_length (build_charset p) (fun i => (values i mod 2 ^ 32)%N)
                  (length p) (build_charset_nonempty p)) as Hlen.
    pose proof (draw_chars (build_charset p) (fun i => (values i mod 2 ^ 32)%N)
                  (length p) (build_charset_nonempty p)) as Hchars.
    fold result in Hlen, Hchars. unfold has_char_of.
    rewrite <- length_split in Hlen.
    destruct (split result) as [|c rest]; [simpl in Hlen; lia |].
    inversion Hchars as [|? ? Hc _]; subst.
    pose proof (single_category_charset p set Hone) as Hall.
    rewrite forallb_forall in Hall. cbn [existsb].
    rewrite (Hall c); [reflexivity | now apply list_elem_of_In]. }
  now rewrite !ensure_fold_covered by exact Hcov.
Qed.

Lemma single_category_password_ignores_Math_random_witness :
  generateRandomPassword
    {| length := 12; includeUppercase := false; includeLowercase := false;
       includeNumbers := true; includeSymbols := false; excludeAmbiguous := true |}
    {| crypto_values := fun i => (11 * N.of_nat i)%N; Math_random := replay [] |}
  = generateRandomPassword
      {| length := 12; includeUppercase := false; includeLowercase := false;
         includeNumbers := true; includeSymbols := false; excludeAmbiguous := true |}
      {| crypto_values := fun i => (11 * N.of_nat i)%N;
         Math_random := replay [r_1_2; r_3_4] |}.
Proof.
  apply (single_category_password_ignores_Math_random
           {| length := 12; includeUppercase := false; includeLowercase := false;
              includeNumbers := true; includeSymbols := false; excludeAmbiguous := true |}
           numbers).
  - reflexivity.
  - simpl. lia.
Defined.

(** With [excludeAmbiguous] set and a category enabled, every drawn
    character is off the blacklist; so a password that needed no
    injection holds no blacklisted character. *)
Theorem blacklist_is_kept_without_injection
    (p : PasswordSettings) (src : RandomSources) :
  excludeAmbiguous p = true -> ensureChars p <> [] ->
  (N.of_nat (length p) <= 16384)%N ->
  Forall (fun set =>
            has_char_of set
              (draw (build_charset p) (fun i => (crypto_values src i mod 2 ^ 32)%N)
                 (length p)) = true)
         (ensureChars p) ->
  exists s, generateRandomPassword p src = inr s
            /\ Forall (fun c => includes ambiguous c = false) (split s).
Proof.
  intros Hex Hsome Hquota Hcov. unfold generateRandomPassword.
  rewrite getRandomValues_ok by exact Hquota. rewrite ensure_fold_covered by exact Hcov.
  eexists. split; [reflexivity |]. cbn [fst].
  eapply Forall_impl; [apply draw_chars, build_charset_nonempty |].
  intros c Hc.
  assert (Hflags : includeUppercase p || includeLowercase p || includeNumbers p
                   || includeSymbols p = true).
  { destruct p as [n [] [] [] [] e]; try reflexivity. now elim Hsome. }
  pose proof (GeneratorSpec.charset_excludes_ambiguous p Hex Hflags) as Hall.
  rewrite forallb_forall in Hall. apply negb_true_iff. apply Hall.
  now apply list_elem_of_In.
Qed.

Lemma blacklist_is_kept_without_injection_witness :
  exists s, generateRandomPassword
              {| length := 12; includeUppercase := false; includeLowercase := false;
                 includeNumbers := true; includeSymbols := false;
                 excludeAmbiguous := true |}
              (stepping_values (replay [])) = inr s
            /\ Forall (fun c => includes ambiguous c = false) (split s).
Proof.
  apply (blacklist_is_kept_without_injection
           {| length := 12; includeUppercase := false; includeLowercase := false;
              includeNumbers := true; includeSymbols := false; excludeAmbiguous := true |}
           (stepping_values (replay []))).
  - reflexivity.
  - discriminate.
  - simpl. lia.
  - repeat constructor; vm_compute; reflexivity.
Defined.

End GeneratorMore.

(** ** Unlocking, and changing the master password *)

Module UnlockProps.
Import JS JSText Api VaultScreen ScreenNotions.
Local Open Scope string_scope.

(** A locked screen becomes unlocked only through a vault that
    [decryptVault] returned for the stored envelope and the master
    password typed; in every other case it stays locked, holds the vault
    it held, and shows an error. *)
Theorem unlock_only_with_decrypted_vault
    (decryptVault : string -> string -> option Codec.Vault)
    (answer : VaultAnswer) (st : Screen) :
  unlocked st = false ->
  let st' := handleUnlock decryptVault answer st in
  (exists blob v, answer = inr (Some blob) /\ blob <> EmptyString
                  /\ decryptVault blob (masterPassword st) = Some v
                  /\ vault st' = Some v /\ unlocked st' = true /\ error st' = "")
  \/ (unlocked st' = false /\ vault st' = vault st /\ error st' <> "").
Proof.
  intros Hlocked st'. unfold st', handleUnlock.
  destruct answer as [message|[blob|]].
  - right. cbn. now rewrite Hlocked.
  - cbn [has_vault]. destruct (is_empty blob) eqn:Hblob; cbn [negb].
    + right. cbn. now rewrite Hlocked.
    + change (masterPassword (setError "" st)) with (masterPassword st).
      destruct (decryptVault blob (masterPassword st)) as [v|] eqn:Hdec.
      * left. exists blob, v. cbn. repeat split; try reflexivity; try exact Hdec.
        now apply VaultScreenProps.is_empty_false.
      * right. cbn. now rewrite Hlocked.
  - right. cbn. now rewrite Hlocked.
Qed.

Lemma unlock_only_with_decrypted_vault_witness :
  let st' := handleUnlock (fun _ _ => None) (inr (Some "envelope")) initial in
  (exists blob v, inr (Some "envelope") = @inr string (option string) (Some blob)
                  /\ blob <> EmptyString
                  /\ (fun _ _ : string => @None Codec.Vault) blob (masterPassword initial)
                     = Some v
                  /\ vault st' = Some v /\ unlocked st' = true /\ error st' = "")
  \/ (unlocked st' = false /\ vault st' = vault initial /\ error st' <> "").
Proof.
  apply (unlock_only_with_decrypted_vault (fun _ _ => None) (inr (Some "envelope")) initial).
  reflexivity.
Defined.

End UnlockProps.

Module SettingsProps.
Import JS JSText Api Account.
Local Open Scope string_scope.

(** The settings form changes nothing and sends nothing unless the two
    new passwords agree, the new password has at least 8 characters and a
    session token is stored: it shows an error, keeps what was typed and
    starts no logout. *)
Theorem password_change_needs_valid_form_and_session
    (fetch : Request -> FetchResult) (f : SettingsForm) (ls : gmap string string) :
  newPassword f <> confirmNewPassword f
  \/ (String.length (newPassword f) < 8)%nat
  \/ truthy (ls !! "session_token") = false ->
  exists message,
    message <> ""
    /\ handleChangePassword fetch f ls
       = ({| currentPassword := currentPassword f; newPassword := newPassword f;
             confirmNewPassword := confirmNewPassword f;
             settings_loading :=
               if String.eqb (newPassword f) (confirmNewPassword f)
                  && (8 <=? String.length (newPassword f))%nat
               then false else settings_loading f;
             settings_error := message; success := "" |}, false, ls).
Proof.
  intros Hbad. unfold handleChangePassword.
  destruct (String.eqb_spec (newPassword f) (confirmNewPassword f)) as [Heq|Hne];
    cbn [negb andb].
  2: { eexists. split; [| reflexivity]. discriminate. }
  destruct (Nat.ltb_spec (String.length (newPassword f)) 8) as [Hshort|Hlong].
  { destruct (Nat.leb_spec 8 (String.length (newPassword f))); [lia |].
    eexists. split; [| reflexivity]. discriminate. }
  destruct (Nat.leb_spec 8 (String.length (newPassword f))); [| lia].
  destruct Hbad as [Hne|[Hshort|Htoken]]; [contradiction | lia |].
  unfold changePassword, bind. rewrite (ApiProps.getAuthHeader_no_token ls Htoken).
  eexists. split; [| reflexivity]. discriminate.
Qed.

Lemma password_change_needs_valid_form_and_session_witness :
  exists message,
    message <> ""
    /\ handleChangePassword ApiInputs.friendly
         {| currentPassword := "correct horse"; newPassword := "battery staple";
            confirmNewPassword := "battery staple"; settings_loading := false;
            settings_error := ""; success := "" |} ∅
       = ({| currentPassword := "correct horse"; newPassword := "battery staple";
             confirmNewPassword := "battery staple"; settings_loading := false;
             settings_error := message; success := "" |}, false, ∅).
Proof.
  apply (password_change_needs_valid_form_and_session ApiInputs.friendly
           {| currentPassword := "correct horse"; newPassword := "battery staple";
              confirmNewPassword := "battery staple"; settings_loading := false;
              settings_error := ""; success := "" |} ∅).
  right. right. reflexivity.
Defined.

End SettingsProps.
